(** * Availability sync of overseerr: a shallow embedding

    The development follows [server/lib/availabilitySync.ts] (module
    [Sync] below) and the second revision of the same class found in the
    repository (module [Part001], the one with [findMediaStatus]).

    Conventions of the embedding:
    - a JS object that is mutated in place is passed and returned
      explicitly; the [Season] objects of a [Media] live in [seasonObjs]
      and the array [media.seasons] is a list of references (positions)
      into it, so that [media.seasons = [...media.seasons, season]] keeps
      the aliasing the source has;
    - the engine instance, the repository and the logger are one state
      record [Sys], threaded through every call in program order; the
      calls of [mediaUpdater] that the source does not await are taken
      where they are made, and [save] writes the columns that the object
      has when it is called;
    - a remote call either returns or throws: [Outcome];
    - the external collaborators (Plex, Radarr, Sonarr, the user table,
      failures of [save], the method [warning] of the logger) are the
      fields of [World]; reading a page of the Media table and the other
      methods of the logger are taken to succeed;
    - [cancel()] reaches a run from outside: a run takes the schedule of
      these calls as an argument and looks at it where the source reads
      [this.running];
    - the key [`${server.id}-${externalServiceId}`] of the Sonarr cache is
      the pair of the two values that the template prints, and a row of
      the table is found again by its id. *)

From stdpp Require Import gmap strings list.
From Stdlib Require Import ZArith Lia.

Local Open Scope Z_scope.

(** ** Entities *)

(** Modelled from the spec: the enumeration [MediaStatus] of
    [@server/constants/media], which is not under src/; the spec lists its
    six values. *)
Inductive MediaStatus : Type :=
| UNKNOWN
| PENDING
| PROCESSING
| PARTIALLY_AVAILABLE
| AVAILABLE
| DELETED.

#[global] Instance MediaStatus_eq_dec : EqDecision MediaStatus.
Proof. solve_decision. Defined.

(** [a === b] on statuses. *)
Definition status_eqb (a b : MediaStatus) : bool := bool_decide (a = b).

(** Modelled from the spec: [MediaType] of [@server/constants/media]
    (['movie'] and ['tv']). *)
Inductive MediaType : Type := MOVIE | TV.

#[global] Instance MediaType_eq_dec : EqDecision MediaType.
Proof. solve_decision. Defined.

(** Modelled from the spec: the columns of the [Season] entity that the
    engine reads and writes. *)
Record Season : Type := mkSeason {
  seasonNumber : Z;
  season_status : MediaStatus;
  season_status4k : MediaStatus
}.

(** Modelled from the spec: the columns of the [Media] entity that the
    engine reads and writes.  [seasonObjs] holds the Season objects and
    [seasons] is the array [media.seasons] of references to them. *)
Record Media : Type := mkMedia {
  mid : Z;
  tmdbId : Z;
  mediaType : MediaType;
  status : MediaStatus;
  status4k : MediaStatus;
  serviceId : option Z;
  serviceId4k : option Z;
  externalServiceId : option Z;
  externalServiceId4k : option Z;
  externalServiceSlug : option string;
  externalServiceSlug4k : option string;
  ratingKey : option string;
  ratingKey4k : option string;
  seasonObjs : list Season;
  seasons : list nat
}.

(** JS truthiness of a nullable number and of a nullable string. *)
Definition truthyZ (x : option Z) : bool :=
  match x with Some n => negb (n =? 0) | None => false end.

Definition truthyS (x : option string) : bool :=
  match x with Some s => negb (String.eqb s EmptyString) | None => false end.

(** *** Field updates *)

Definition set_status (v : MediaStatus) (m : Media) : Media :=
  mkMedia (mid m) (tmdbId m) (mediaType m) v (status4k m)
    (serviceId m) (serviceId4k m) (externalServiceId m) (externalServiceId4k m)
    (externalServiceSlug m) (externalServiceSlug4k m) (ratingKey m) (ratingKey4k m)
    (seasonObjs m) (seasons m).

Definition set_status4k (v : MediaStatus) (m : Media) : Media :=
  mkMedia (mid m) (tmdbId m) (mediaType m) (status m) v
    (serviceId m) (serviceId4k m) (externalServiceId m) (externalServiceId4k m)
    (externalServiceSlug m) (externalServiceSlug4k m) (ratingKey m) (ratingKey4k m)
    (seasonObjs m) (seasons m).

Definition set_serviceId (v : option Z) (m : Media) : Media :=
  mkMedia (mid m) (tmdbId m) (mediaType m) (status m) (status4k m)
    v (serviceId4k m) (externalServiceId m) (externalServiceId4k m)
    (externalServiceSlug m) (externalServiceSlug4k m) (ratingKey m) (ratingKey4k m)
    (seasonObjs m) (seasons m).

Definition set_serviceId4k (v : option Z) (m : Media) : Media :=
  mkMedia (mid m) (tmdbId m) (mediaType m) (status m) (status4k m)
    (serviceId m) v (externalServiceId m) (externalServiceId4k m)
    (externalServiceSlug m) (externalServiceSlug4k m) (ratingKey m) (ratingKey4k m)
    (seasonObjs m) (seasons m).

Definition set_externalServiceId (v : option Z) (m : Media) : Media :=
  mkMedia (mid m) (tmdbId m) (mediaType m) (status m) (status4k m)
    (serviceId m) (serviceId4k m) v (externalServiceId4k m)
    (externalServiceSlug m) (externalServiceSlug4k m) (ratingKey m) (ratingKey4k m)
    (seasonObjs m) (seasons m).

Definition set_externalServiceId4k (v : option Z) (m : Media) : Media :=
  mkMedia (mid m) (tmdbId m) (mediaType m) (status m) (status4k m)
    (serviceId m) (serviceId4k m) (externalServiceId m) v
    (externalServiceSlug m) (externalServiceSlug4k m) (ratingKey m) (ratingKey4k m)
    (seasonObjs m) (seasons m).

Definition set_externalServiceSlug (v : option string) (m : Media) : Media :=
  mkMedia (mid m) (tmdbId m) (mediaType m) (status m) (status4k m)
    (serviceId m) (serviceId4k m) (externalServiceId m) (externalServiceId4k m)
    v (externalServiceSlug4k m) (ratingKey m) (ratingKey4k m)
    (seasonObjs m) (seasons m).

Definition set_externalServiceSlug4k (v : option string) (m : Media) : Media :=
  mkMedia (mid m) (tmdbId m) (mediaType m) (status m) (status4k m)
    (serviceId m) (serviceId4k m) (externalServiceId m) (externalServiceId4k m)
    (externalServiceSlug m) v (ratingKey m) (ratingKey4k m)
    (seasonObjs m) (seasons m).

Definition set_ratingKey (v : option string) (m : Media) : Media :=
  mkMedia (mid m) (tmdbId m) (mediaType m) (status m) (status4k m)
    (serviceId m) (serviceId4k m) (externalServiceId m) (externalServiceId4k m)
    (externalServiceSlug m) (externalServiceSlug4k m) v (ratingKey4k m)
    (seasonObjs m) (seasons m).

Definition set_ratingKey4k (v : option string) (m : Media) : Media :=
  mkMedia (mid m) (tmdbId m) (mediaType m) (status m) (status4k m)
    (serviceId m) (serviceId4k m) (externalServiceId m) (externalServiceId4k m)
    (externalServiceSlug m) (externalServiceSlug4k m) (ratingKey m) v
    (seasonObjs m) (seasons m).

Definition set_seasonObjs (v : list Season) (m : Media) : Media :=
  mkMedia (mid m) (tmdbId m) (mediaType m) (status m) (status4k m)
    (serviceId m) (serviceId4k m) (externalServiceId m) (externalServiceId4k m)
    (externalServiceSlug m) (externalServiceSlug4k m) (ratingKey m) (ratingKey4k m)
    v (seasons m).

Definition set_seasons (v : list nat) (m : Media) : Media :=
  mkMedia (mid m) (tmdbId m) (mediaType m) (status m) (status4k m)
    (serviceId m) (serviceId4k m) (externalServiceId m) (externalServiceId4k m)
    (externalServiceSlug m) (externalServiceSlug4k m) (ratingKey m) (ratingKey4k m)
    (seasonObjs m) v.

Definition set_season_status (v : MediaStatus) (s : Season) : Season :=
  mkSeason (seasonNumber s) v (season_status4k s).

Definition set_season_status4k (v : MediaStatus) (s : Season) : Season :=
  mkSeason (seasonNumber s) (season_status s) v.

(** [media[is4k ? 'status4k' : 'status']] and its siblings. *)
Definition statusOf (is4k : bool) (m : Media) : MediaStatus :=
  if is4k then status4k m else status m.

Definition setStatusOf (is4k : bool) (v : MediaStatus) (m : Media) : Media :=
  if is4k then set_status4k v m else set_status v m.

Definition serviceIdOf (is4k : bool) (m : Media) : option Z :=
  if is4k then serviceId4k m else serviceId m.

Definition externalServiceIdOf (is4k : bool) (m : Media) : option Z :=
  if is4k then externalServiceId4k m else externalServiceId m.

Definition externalServiceSlugOf (is4k : bool) (m : Media) : option string :=
  if is4k then externalServiceSlug4k m else externalServiceSlug m.

Definition ratingKeyOf (is4k : bool) (m : Media) : option string :=
  if is4k then ratingKey4k m else ratingKey m.

Definition setServiceIdOf (is4k : bool) (v : option Z) (m : Media) : Media :=
  if is4k then set_serviceId4k v m else set_serviceId v m.

Definition setExternalServiceIdOf (is4k : bool) (v : option Z) (m : Media) : Media :=
  if is4k then set_externalServiceId4k v m else set_externalServiceId v m.

Definition setExternalServiceSlugOf (is4k : bool) (v : option string) (m : Media) : Media :=
  if is4k then set_externalServiceSlug4k v m else set_externalServiceSlug v m.

Definition setRatingKeyOf (is4k : bool) (v : option string) (m : Media) : Media :=
  if is4k then set_ratingKey4k v m else set_ratingKey v m.

Definition seasonStatusOf (is4k : bool) (s : Season) : MediaStatus :=
  if is4k then season_status4k s else season_status s.

Definition setSeasonStatusOf (is4k : bool) (v : MediaStatus) (s : Season) : Season :=
  if is4k then set_season_status4k v s else set_season_status v s.

(** Mutation of the Season object behind reference [r]. *)
Definition updSeason (r : nat) (f : Season → Season) (m : Media) : Media :=
  match seasonObjs m !! r with
  | Some s => set_seasonObjs (<[r := f s]> (seasonObjs m)) m
  | None => m
  end.

(** ** External collaborators *)

Inductive Outcome (A : Type) : Type :=
| Returned (a : A)
| Threw (message : string).
Arguments Returned {A} a.
Arguments Threw {A} message.

Record PlexAPI : Type := mkPlexAPI { plexToken : option string }.
Record User : Type := mkUser { user_plexToken : option string }.
Record PlexLibraryItem : Type := mkPlexItem { item_ratingKey : string }.
Record PlexMetadata : Type := mkPlexMetadata { index : Z }.
Record RadarrMovie : Type := mkRadarrMovie { hasFile : bool }.

(** [statistics?.episodeFileCount] of a Sonarr season: [None] when the
    season carries no statistics. *)
Record SonarrSeason : Type := mkSonarrSeason {
  sonarr_seasonNumber : Z;
  statistics : option Z
}.

Record SonarrSeries : Type := mkSonarrSeries {
  series_seasons : list SonarrSeason;
  series_episodeFileCount : Z
}.

(** [RadarrSettings] and [SonarrSettings]: the fields the engine uses. *)
Record DVRSettings : Type := mkServer {
  server_id : Z;
  is4k : bool;
  syncEnabled : bool
}.

Record World : Type := mkWorld {
  settings_radarr : list DVRSettings;
  settings_sonarr : list DVRSettings;
  (** [userRepository.findOne({ where: { id: 1 } })]: the user, null, or
      a rejection *)
  admin : Outcome (option User);
  (** [logger.warning(...)].  The logger is [@server/logger], which is not
      among the sources.  Every other warning of the class is written
      with [logger.warn]; a winston logger with the default levels has a
      method [warn] and no method [warning], and the call then throws a
      TypeError.  The field says what the call does: it throws, or it
      returns after the line has been logged (at a level of its own,
      [LWarning]). *)
  loggerWarning : Outcome unit;
  getMetadata : PlexAPI → string → Outcome (option PlexLibraryItem);
  getChildrenMetadata : PlexAPI → string → Outcome (option (list PlexMetadata));
  (** [new RadarrAPI(server).getMovie({ id })], by server id *)
  getMovie : Z → Z → Outcome RadarrMovie;
  (** [new SonarrAPI(server).getSeriesById(id)], by server id *)
  getSeriesById : Z → Z → Outcome SonarrSeries;
  (** [mediaRepository.save(media)] rejects with this message *)
  saveError : Media → option string
}.

(** ** Logger *)

Inductive LogLevel : Type := LInfo | LWarn | LWarning | LError | LDebug.

#[global] Instance LogLevel_eq_dec : EqDecision LogLevel.
Proof. solve_decision. Defined.

Inductive LogMessage : Type :=
| MsgStarting
| MsgComplete
| MsgFailedToComplete (errorMessage : string)
| MsgNoAdmin
| MsgMediaMissing (tmdb : Z)
| MsgRemovingSeason (season tmdb : Z)
| MsgMarkingPartial (tmdb : Z)
| MsgVariantMissing (tmdb : Z) (variant4k isTypeTV : bool)
| MsgFailureUpdating (tmdb : Z) (errorMessage : string)
| MsgFailureRadarr (tmdb : Z) (variant4k : bool) (errorMessage : string)
| MsgFailureSonarr (tmdb : Z) (variant4k : bool) (errorMessage : string)
| MsgSeasonVariantMissing (season tmdb : Z) (variant4k : bool)
| MsgPlexMetadataFailed (errorMessage : string)
| MsgPlexChildrenFailed (errorMessage : string)
| MsgExistsRadarr (media : Z)
| MsgExistsSonarr (media : Z)
| MsgSeasonExists (season media : Z).

Record LogEntry : Type := mkLog { level : LogLevel; msg : LogMessage }.

(** [haystack.includes(needle)] *)
Fixpoint includes (needle haystack : string) : bool :=
  String.prefix needle haystack ||
  match haystack with
  | EmptyString => false
  | String _ rest => includes needle rest
  end.

(** ** The engine instance, the repository and the log *)

Record Sys : Type := mkSys {
  running : bool;
  plexClient : option PlexAPI;
  plexSeasonsCache : gmap string (list PlexMetadata);
  (** keyed by the pair that the template string
      [`${server.id}-${externalServiceId}`] prints *)
  sonarrSeasonsCache : gmap (Z * option Z) (list SonarrSeason);
  radarrServers : list DVRSettings;
  sonarrServers : list DVRSettings;
  (** the rows of the Media table *)
  db : list Media;
  log : list LogEntry;
  (** every [mediaRepository.save] issued, oldest first *)
  saved : list Media
}.

Definition set_running (v : bool) (st : Sys) : Sys :=
  mkSys v (plexClient st) (plexSeasonsCache st) (sonarrSeasonsCache st)
    (radarrServers st) (sonarrServers st) (db st) (log st) (saved st).

Definition set_plexClient (v : option PlexAPI) (st : Sys) : Sys :=
  mkSys (running st) v (plexSeasonsCache st) (sonarrSeasonsCache st)
    (radarrServers st) (sonarrServers st) (db st) (log st) (saved st).

Definition set_plexSeasonsCache (v : gmap string (list PlexMetadata)) (st : Sys) : Sys :=
  mkSys (running st) (plexClient st) v (sonarrSeasonsCache st)
    (radarrServers st) (sonarrServers st) (db st) (log st) (saved st).

Definition set_sonarrSeasonsCache (v : gmap (Z * option Z) (list SonarrSeason)) (st : Sys) : Sys :=
  mkSys (running st) (plexClient st) (plexSeasonsCache st) v
    (radarrServers st) (sonarrServers st) (db st) (log st) (saved st).

Definition set_radarrServers (v : list DVRSettings) (st : Sys) : Sys :=
  mkSys (running st) (plexClient st) (plexSeasonsCache st) (sonarrSeasonsCache st)
    v (sonarrServers st) (db st) (log st) (saved st).

Definition set_sonarrServers (v : list DVRSettings) (st : Sys) : Sys :=
  mkSys (running st) (plexClient st) (plexSeasonsCache st) (sonarrSeasonsCache st)
    (radarrServers st) v (db st) (log st) (saved st).

Definition set_db (v : list Media) (st : Sys) : Sys :=
  mkSys (running st) (plexClient st) (plexSeasonsCache st) (sonarrSeasonsCache st)
    (radarrServers st) (sonarrServers st) v (log st) (saved st).

Definition set_log (v : list LogEntry) (st : Sys) : Sys :=
  mkSys (running st) (plexClient st) (plexSeasonsCache st) (sonarrSeasonsCache st)
    (radarrServers st) (sonarrServers st) (db st) v (saved st).

Definition set_saved (v : list Media) (st : Sys) : Sys :=
  mkSys (running st) (plexClient st) (plexSeasonsCache st) (sonarrSeasonsCache st)
    (radarrServers st) (sonarrServers st) (db st) (log st) v.

Definition logger (l : LogLevel) (m : LogMessage) (st : Sys) : Sys :=
  set_log (log st ++ [mkLog l m]) st.

(** The instance as constructed: [new AvailabilitySync()], over a table. *)
Definition newSync (rows : list Media) : Sys :=
  mkSys false None ∅ ∅ [] [] rows [] [].

(** ** The repository *)

(** An entity as TypeORM loads it: every Season object once. *)
Definition loaded (m : Media) : Media :=
  set_seasons (seq 0 (length (seasonObjs m))) m.

(** [mediaRepository.save(media)] on the table: the row with the id of
    [media] takes its columns (and those of its Season objects); a record
    without a row is inserted. *)
Definition upsert (media : Media) (rows : list Media) : list Media :=
  if existsb (λ r, mid r =? mid media) rows
  then map (λ r, if mid r =? mid media then media else r) rows
  else rows ++ [media].

Definition save (w : World) (media : Media) (st : Sys) : Outcome unit * Sys :=
  let st := set_saved (saved st ++ [media]) st in
  match saveError w media with
  | Some e => (Threw e, st)
  | None => (Returned tt, set_db (upsert (loaded media) (db st)) st)
  end.

(** The [where] clause of [loadAvailableMediaPaginated]. *)
Definition eligible (m : Media) : bool :=
  status_eqb (status m) AVAILABLE
  || status_eqb (status m) PARTIALLY_AVAILABLE
  || status_eqb (status4k m) AVAILABLE
  || status_eqb (status4k m) PARTIALLY_AVAILABLE.

(** [mediaRepository.find({ where, skip, take })] *)
Definition find (rows : list Media) (skip take_ : nat) : list Media :=
  map loaded (take take_ (drop skip (List.filter eligible rows))).

(** ** server/lib/availabilitySync.ts *)

Module Sync.

(** The Season object behind a reference (references handed out by the
    loops below are always in range). *)
Definition seasonAt (media : Media) (r : nat) : Season :=
  default (mkSeason 0 UNKNOWN UNKNOWN) (seasonObjs media !! r).

(** *** mediaUpdater *)

(** [media.seasons.forEach(...)] of [mediaUpdater]. *)
Definition deleteAvailableSeasons (is4k : bool) (media : Media) : Media :=
  foldl
    (λ m r,
       updSeason r
         (λ season,
            if status_eqb (seasonStatusOf is4k season) AVAILABLE
            then setSeasonStatusOf is4k DELETED season
            else season) m)
    media (seasons media).

Definition mediaUpdater (w : World) (media : Media) (is4k : bool) (st : Sys)
  : Media * Sys :=
  let isTypeTV := bool_decide (mediaType media = TV) in
  let st := logger LInfo (MsgVariantMissing (tmdbId media) is4k isTypeTV) st in
  let media := setStatusOf is4k DELETED media in
  let media := setServiceIdOf is4k None media in
  let media := setExternalServiceIdOf is4k None media in
  let media := setExternalServiceSlugOf is4k None media in
  let media := setRatingKeyOf is4k None media in
  let media := if isTypeTV then deleteAvailableSeasons is4k media else media in
  match save w media st with
  | (Returned _, st) => (media, st)
  | (Threw e, st) =>
      (media, logger LDebug (MsgFailureUpdating (tmdbId media) e) st)
  end.

(** The two guarded calls of [mediaUpdater] that close
    [mediaExistsInRadarr] and [mediaExistsInSonarr]. *)
Definition updateSingleVariant (w : World) (media : Media)
    (existsInArr existsInArr4k existsInPlex existsInPlex4k : bool) (st : Sys)
  : Media * Sys :=
  let '(media, st) :=
    if negb existsInArr && (existsInArr4k || existsInPlex4k) && negb existsInPlex
    then
      if negb (status_eqb (status media) DELETED)
         && negb (status_eqb (status media) UNKNOWN)
      then mediaUpdater w media false st
      else (media, st)
    else (media, st) in
  if (existsInArr || existsInPlex) && negb existsInArr4k && negb existsInPlex4k
  then
    if negb (status_eqb (status4k media) DELETED)
       && negb (status_eqb (status4k media) UNKNOWN)
    then mediaUpdater w media true st
    else (media, st)
  else (media, st).

(** *** mediaExistsInRadarr *)

(** One turn of [for (const server of this.radarrServers)]. *)
Definition radarrServerStep (w : World) (media : Media)
    (acc : bool * bool * Sys) (server : DVRSettings) : bool * bool * Sys :=
  let '(existsInRadarr, existsInRadarr4k, st) := acc in
  let attempt : Outcome (option RadarrMovie) :=
    match
      (if negb (is4k server) && truthyZ (externalServiceId media)
       then
         match getMovie w (server_id server) (default 0 (externalServiceId media)) with
         | Returned r => Returned (Some r)
         | Threw e => Threw e
         end
       else Returned None)
    with
    | Threw e => Threw e
    | Returned radarr =>
        if is4k server && truthyZ (externalServiceId4k media)
        then
          match getMovie w (server_id server) (default 0 (externalServiceId4k media)) with
          | Returned r => Returned (Some r)
          | Threw e => Threw e
          end
        else Returned radarr
    end in
  match attempt with
  | Returned radarr =>
      let noFile := match radarr with Some r => negb (hasFile r) | None => true end in
      (if negb (is4k server) && noFile then false else existsInRadarr,
       if is4k server && noFile then false else existsInRadarr4k,
       st)
  | Threw e =>
      let st := logger LDebug (MsgFailureRadarr (tmdbId media) (is4k server) e) st in
      (if negb (is4k server) then false else existsInRadarr,
       if is4k server then false else existsInRadarr4k,
       st)
  end.

Definition mediaExistsInRadarr (w : World) (media : Media)
    (existsInPlex existsInPlex4k : bool) (st : Sys) : bool * Media * Sys :=
  let '(existsInRadarr, existsInRadarr4k, st) :=
    foldl (radarrServerStep w media) (true, true, st) (radarrServers st) in
  let '(media, st) :=
    updateSingleVariant w media existsInRadarr existsInRadarr4k
      existsInPlex existsInPlex4k st in
  (existsInRadarr || existsInRadarr4k || existsInPlex || existsInPlex4k, media, st).

(** *** mediaExistsInSonarr *)

Definition sonarrKey (server : DVRSettings) (ext : option Z) : Z * option Z :=
  (server_id server, ext).

(** [sonarr = await api.getSeriesById(id); cache[key] = sonarr.seasons] *)
Definition fetchSeries (w : World) (server : DVRSettings) (ext : option Z)
    (st : Sys) : Outcome (option SonarrSeries) * Sys :=
  match getSeriesById w (server_id server) (default 0 ext) with
  | Returned sonarr =>
      (Returned (Some sonarr),
       set_sonarrSeasonsCache
         (<[sonarrKey server ext := series_seasons sonarr]> (sonarrSeasonsCache st)) st)
  | Threw e => (Threw e, st)
  end.

(** One turn of [for (const server of this.sonarrServers)] in
    [mediaExistsInSonarr]. *)
Definition sonarrServerStep (w : World) (media : Media)
    (acc : bool * bool * Sys) (server : DVRSettings) : bool * bool * Sys :=
  let '(existsInSonarr, existsInSonarr4k, st) := acc in
  let '(attempt, st) :=
    match
      (if negb (is4k server) && truthyZ (externalServiceId media)
       then fetchSeries w server (externalServiceId media) st
       else (Returned None, st))
    with
    | (Threw e, st) => (Threw e, st)
    | (Returned sonarr, st) =>
        if is4k server && truthyZ (externalServiceId4k media)
        then fetchSeries w server (externalServiceId4k media) st
        else (Returned sonarr, st)
    end in
  match attempt with
  | Returned sonarr =>
      let noFiles :=
        match sonarr with
        | Some s => series_episodeFileCount s =? 0
        | None => true
        end in
      (if negb (is4k server) && noFiles then false else existsInSonarr,
       if is4k server && noFiles then false else existsInSonarr4k,
       st)
  | Threw e =>
      let st := logger LDebug (MsgFailureSonarr (tmdbId media) (is4k server) e) st in
      (if negb (is4k server) then false else existsInSonarr,
       if is4k server then false else existsInSonarr4k,
       st)
  end.

Definition mediaExistsInSonarr (w : World) (media : Media)
    (existsInPlex existsInPlex4k : bool) (st : Sys) : bool * Media * Sys :=
  let '(existsInSonarr, existsInSonarr4k, st) :=
    foldl (sonarrServerStep w media) (true, true, st) (sonarrServers st) in
  let '(media, st) :=
    updateSingleVariant w media existsInSonarr existsInSonarr4k
      existsInPlex existsInPlex4k st in
  (existsInSonarr || existsInSonarr4k || existsInPlex || existsInPlex4k, media, st).

(** *** seasonExistsInSonarr *)

(** [cache[key] ?? (await api.getSeriesById(id)).seasons], followed by
    [cache[key] = sonarrSeasons]. *)
Definition cachedSeasons (w : World) (server : DVRSettings) (ext : option Z)
    (st : Sys) : Outcome (option (list SonarrSeason)) * Sys :=
  let key := sonarrKey server ext in
  match sonarrSeasonsCache st !! key with
  | Some sonarrSeasons =>
      (Returned (Some sonarrSeasons),
       set_sonarrSeasonsCache (<[key := sonarrSeasons]> (sonarrSeasonsCache st)) st)
  | None =>
      match getSeriesById w (server_id server) (default 0 ext) with
      | Returned sonarr =>
          (Returned (Some (series_seasons sonarr)),
           set_sonarrSeasonsCache
             (<[key := series_seasons sonarr]> (sonarrSeasonsCache st)) st)
      | Threw e => (Threw e, st)
      end
  end.

(** The predicate of [sonarrSeasons?.find(...)]: the entry of the season
    with [statistics?.episodeFileCount === 0]. *)
Definition isUnavailableEntry (season : Season) (entry : SonarrSeason) : bool :=
  (seasonNumber season =? sonarr_seasonNumber entry)
  && bool_decide (statistics entry = Some 0).

Definition seasonIsUnavailable (season : Season)
    (sonarrSeasons : option (list SonarrSeason)) : bool :=
  match sonarrSeasons with
  | Some l => existsb (isUnavailableEntry season) l
  | None => false
  end.

(** One turn of [for (const server of this.sonarrServers)] in
    [seasonExistsInSonarr]. *)
Definition sonarrSeasonStep (w : World) (media : Media) (season : Season)
    (acc : bool * bool * Sys) (server : DVRSettings) : bool * bool * Sys :=
  let '(seasonExistsInSonarr, seasonExistsInSonarr4k, st) := acc in
  let initial : option (list SonarrSeason) :=
    sonarrSeasonsCache st
      !! sonarrKey server
           (if negb (is4k server) then externalServiceId media
            else externalServiceId4k media) in
  let '(attempt, st) :=
    match
      (if negb (is4k server) && truthyZ (externalServiceId media)
       then cachedSeasons w server (externalServiceId media) st
       else (Returned initial, st))
    with
    | (Threw e, st) => (Threw e, st)
    | (Returned sonarrSeasons, st) =>
        if is4k server && truthyZ (externalServiceId4k media)
        then cachedSeasons w server (externalServiceId4k media) st
        else (Returned sonarrSeasons, st)
    end in
  match attempt with
  | Returned sonarrSeasons =>
      let unavailable := seasonIsUnavailable season sonarrSeasons in
      (if negb (is4k server) && unavailable then false else seasonExistsInSonarr,
       if is4k server && unavailable then false else seasonExistsInSonarr4k,
       st)
  | Threw e =>
      let st := logger LDebug (MsgFailureSonarr (tmdbId media) (is4k server) e) st in
      (if negb (is4k server) then false else seasonExistsInSonarr,
       if is4k server then false else seasonExistsInSonarr4k,
       st)
  end.

(** Lines 505-553: the single-variant removal of a season and the
    demotion of the parent in that variant. *)
Definition removeSeasonVariant (media : Media) (r : nat) (is4k : bool) (st : Sys)
  : Media * Sys :=
  let season := seasonAt media r in
  if negb (status_eqb (seasonStatusOf is4k season) DELETED)
     && negb (status_eqb (seasonStatusOf is4k season) UNKNOWN)
  then
    let st := logger LInfo
                (MsgSeasonVariantMissing (seasonNumber season) (tmdbId media) is4k) st in
    let media := updSeason r (setSeasonStatusOf is4k DELETED) media in
    if status_eqb (statusOf is4k media) AVAILABLE
    then
      (setStatusOf is4k PARTIALLY_AVAILABLE media,
       logger LInfo (MsgMarkingPartial (tmdbId media)) st)
    else (media, st)
  else (media, st).

Definition seasonExistsInSonarr (w : World) (media : Media) (r : nat)
    (seasonExistsInPlex seasonExistsInPlex4k : bool) (st : Sys)
  : bool * Media * Sys :=
  let '(seasonExistsInSonarr, seasonExistsInSonarr4k, st) :=
    foldl (sonarrSeasonStep w media (seasonAt media r)) (true, true, st)
      (sonarrServers st) in
  let '(media, st) :=
    if negb seasonExistsInSonarr
       && (seasonExistsInSonarr4k || seasonExistsInPlex4k)
       && negb seasonExistsInPlex
    then removeSeasonVariant media r false st
    else (media, st) in
  let '(media, st) :=
    if (seasonExistsInSonarr || seasonExistsInPlex)
       && negb seasonExistsInSonarr4k
       && negb seasonExistsInPlex4k
    then removeSeasonVariant media r true st
    else (media, st) in
  let '(media, st) :=
    if negb seasonExistsInSonarr || negb seasonExistsInSonarr4k
    then
      let media := set_seasons (seasons media ++ [r]) media in
      match save w media st with
      | (Returned _, st) => (media, st)
      | (Threw e, st) =>
          (media, logger LDebug (MsgFailureUpdating (tmdbId media) e) st)
      end
    else (media, st) in
  (seasonExistsInSonarr || seasonExistsInSonarr4k
   || seasonExistsInPlex || seasonExistsInPlex4k,
   media, st).

(** *** seasonExists *)

(** [cache[ratingKey] ?? (await this.plexClient?.getChildrenMetadata(ratingKey)) ?? []],
    followed by [cache[ratingKey] = children] and the search for the
    child whose index is the season number. *)
Definition plexSeasonProbe (w : World) (key : string) (season : Season) (st : Sys)
  : Outcome bool * Sys :=
  let fetched : Outcome (list PlexMetadata) :=
    match plexSeasonsCache st !! key with
    | Some children => Returned children
    | None =>
        match plexClient st with
        | None => Returned []
        | Some api =>
            match getChildrenMetadata w api key with
            | Returned (Some children) => Returned children
            | Returned None => Returned []
            | Threw e => Threw e
            end
        end
    end in
  match fetched with
  | Returned children =>
      (Returned (existsb (λ child, index child =? seasonNumber season) children),
       set_plexSeasonsCache (<[key := children]> (plexSeasonsCache st)) st)
  | Threw e => (Threw e, st)
  end.

(** The [try] block of [seasonExists]: the first probe that throws skips
    the rest of the block. *)
Definition seasonExistsInPlex (w : World) (media : Media) (season : Season) (st : Sys)
  : bool * bool * Sys :=
  let ratingKey := ratingKey media in
  let ratingKey4k := ratingKey4k media in
  let catch (e : string) (st : Sys) : Sys :=
    if negb (includes "response code: 404" e)
    then logger LDebug (MsgPlexChildrenFailed e) st
    else st in
  let '(first, st) :=
    if truthyS ratingKey
    then plexSeasonProbe w (default EmptyString ratingKey) season st
    else (Returned false, st) in
  match first with
  | Threw e => (false, false, catch e st)
  | Returned seasonExistsInPlex =>
      let '(second, st) :=
        if truthyS ratingKey4k
        then plexSeasonProbe w (default EmptyString ratingKey4k) season st
        else (Returned false, st) in
      match second with
      | Threw e => (seasonExistsInPlex, false, catch e st)
      | Returned seasonExistsInPlex4k =>
          (seasonExistsInPlex, seasonExistsInPlex4k, st)
      end
  end.

Definition seasonExists (w : World) (media : Media) (r : nat) (st : Sys)
  : bool * Media * Sys :=
  let season := seasonAt media r in
  let '(seasonExistsInPlex, seasonExistsInPlex4k, st) :=
    seasonExistsInPlex w media season st in
  if seasonExistsInPlex && seasonExistsInPlex4k
  then (true, media, st)
  else
    let '(existsInSonarr, media, st) :=
      seasonExistsInSonarr w media r seasonExistsInPlex seasonExistsInPlex4k st in
    if existsInSonarr
    then
      (true, media,
       logger LWarn (MsgSeasonExists (seasonNumber season) (mid media)) st)
    else (false, media, st).

(** *** mediaExists *)

(** [await this.plexClient?.getMetadata(ratingKey)] and the test of its
    result. *)
Definition plexMediaProbe (w : World) (key : string) (st : Sys) : Outcome bool :=
  match plexClient st with
  | None => Returned false
  | Some api =>
      match getMetadata w api key with
      | Returned (Some _) => Returned true
      | Returned None => Returned false
      | Threw e => Threw e
      end
  end.

(** The [try] block of [mediaExists]. *)
Definition existsInPlex (w : World) (media : Media) (st : Sys) : bool * bool * Sys :=
  let ratingKey := ratingKey media in
  let ratingKey4k := ratingKey4k media in
  let catch (e : string) (st : Sys) : Sys :=
    if negb (includes "response code: 404" e)
    then logger LDebug (MsgPlexMetadataFailed e) st
    else st in
  match
    (if truthyS ratingKey
     then plexMediaProbe w (default EmptyString ratingKey) st
     else Returned false)
  with
  | Threw e => (false, false, catch e st)
  | Returned existsInPlex =>
      match
        (if truthyS ratingKey4k
         then plexMediaProbe w (default EmptyString ratingKey4k) st
         else Returned false)
      with
      | Threw e => (existsInPlex, false, catch e st)
      | Returned existsInPlex4k => (existsInPlex, existsInPlex4k, st)
      end
  end.

Definition mediaExists (w : World) (media : Media) (st : Sys) : bool * Media * Sys :=
  let '(existsInPlex, existsInPlex4k, st) := existsInPlex w media st in
  if existsInPlex && existsInPlex4k
  then (true, media, st)
  else
    match mediaType media with
    | MOVIE =>
        let '(existsInRadarr, media, st) :=
          mediaExistsInRadarr w media existsInPlex existsInPlex4k st in
        if existsInRadarr
        then (true, media, logger LWarn (MsgExistsRadarr (mid media)) st)
        else (false, media, st)
    | TV =>
        let '(existsInSonarr, media, st) :=
          mediaExistsInSonarr w media existsInPlex existsInPlex4k st in
        if existsInSonarr
        then (true, media, logger LWarn (MsgExistsSonarr (mid media)) st)
        else (false, media, st)
    end.

(** *** The body of the loop of run *)

(** The test
    [(a !== DELETED || b !== DELETED) && (a !== UNKNOWN || b !== UNKNOWN)]
    that run applies to a record and to a season. *)
Definition notBothTerminal (a b : MediaStatus) : bool :=
  (negb (status_eqb a DELETED) || negb (status_eqb b DELETED))
  && (negb (status_eqb a UNKNOWN) || negb (status_eqb b UNKNOWN)).

(** Lines 58-87: the record is missing everywhere. *)
Definition markMissing (media : Media) (st : Sys) : Media * Sys :=
  if notBothTerminal (status media) (status4k media)
  then
    let st := logger LInfo (MsgMediaMissing (tmdbId media)) st in
    let media :=
      set_status
        (if negb (status_eqb (status media) UNKNOWN) then DELETED else UNKNOWN)
        media in
    let media :=
      set_status4k
        (if negb (status_eqb (status4k media) UNKNOWN) then DELETED else UNKNOWN)
        media in
    let media := set_serviceId None media in
    let media := set_serviceId4k None media in
    let media := set_externalServiceId None media in
    let media := set_externalServiceId4k None media in
    let media := set_externalServiceSlug None media in
    let media := set_externalServiceSlug4k None media in
    let media := set_ratingKey None media in
    let media := set_ratingKey4k None media in
    (media, st)
  else (media, st).

(** [season.status = DELETED; season.status4k = DELETED] *)
Definition deleteSeason (season : Season) : Season :=
  set_season_status4k DELETED (set_season_status DELETED season).

(** Lines 127-146. *)
Definition demoteParent (media : Media) (st : Sys) : Media * Sys :=
  if status_eqb (status media) AVAILABLE || status_eqb (status4k media) AVAILABLE
  then
    let st := logger LInfo (MsgMarkingPartial (tmdbId media)) st in
    let media :=
      if status_eqb (status media) AVAILABLE
      then set_status PARTIALLY_AVAILABLE media else media in
    let media :=
      if status_eqb (status4k media) AVAILABLE
      then set_status4k PARTIALLY_AVAILABLE media else media in
    (media, st)
  else (media, st).

(** One turn of [for (const season of media.seasons)] (lines 90-146);
    [r] is the reference the iterator yields. *)
Definition seasonTurn (w : World) (mediaExists : bool)
    (acc : bool * Media * Sys) (r : nat) : bool * Media * Sys :=
  let '(didDeleteSeasons, media, st) := acc in
  let season := seasonAt media r in
  let '(didDeleteSeasons, media, st) :=
    if negb mediaExists
       && notBothTerminal (season_status season) (season_status4k season)
    then (didDeleteSeasons, updSeason r deleteSeason media, st)
    else
      let '(seasonExists, media, st) := seasonExists w media r st in
      if negb seasonExists
      then
        let st := logger LInfo
                    (MsgRemovingSeason (seasonNumber (seasonAt media r)) (tmdbId media)) st in
        let season := seasonAt media r in
        let media :=
          if notBothTerminal (season_status season) (season_status4k season)
          then updSeason r deleteSeason media
          else media in
        (true, media, st)
      else (didDeleteSeasons, media, st) in
  if didDeleteSeasons
  then let '(media, st) := demoteParent media st in (didDeleteSeasons, media, st)
  else (didDeleteSeasons, media, st).

(** Lines 52-150: what run does with one record. *)
Definition processMedia (w : World) (media : Media) (st : Sys)
  : Outcome unit * Media * Sys :=
  let '(mediaExists, media, st) := mediaExists w media st in
  let '(media, st) :=
    if negb mediaExists then markMissing media st else (media, st) in
  let '(didDeleteSeasons, media, st) :=
    match mediaType media with
    | TV => foldl (seasonTurn w mediaExists) (false, media, st) (seasons media)
    | MOVIE => (false, media, st)
    end in
  if negb mediaExists || didDeleteSeasons
  then
    match save w media st with
    | (Returned _, st) => (Returned tt, media, st)
    | (Threw e, st) => (Threw e, media, st)
    end
  else (Returned tt, media, st).

(** *** run, cancel, the paginated loader *)

Inductive Completion : Type :=
| Normal
| Thrown (message : string)
| OutOfFuel.

Definition cancel (st : Sys) : Sys := set_running false st.

Definition initPlexClient (w : World) (st : Sys) : Outcome unit * Sys :=
  match admin w with
  | Threw e => (Threw e, st)
  | Returned None =>
      match loggerWarning w with
      | Threw e => (Threw e, st)
      | Returned _ => (Returned tt, logger LWarning MsgNoAdmin st)
      end
  | Returned (Some a) =>
      (Returned tt, set_plexClient (Some (mkPlexAPI (user_plexToken a))) st)
  end.

(** The records of one page, as the [for await] loop consumes them.
    [seen] lists the ids of the records that the loop has started to
    process so far in this run; [cancelled n] tells whether [cancel()] has
    been called by the time the loop tests [this.running] before its
    [n]-th record (counted from 0 over the run). *)
Fixpoint consumePage (w : World) (cancelled : nat → bool) (seen : list Z)
    (page : list Media) (st : Sys) : Completion * list Z * Sys :=
  match page with
  | [] => (Normal, seen, st)
  | media :: rest =>
      let st := if cancelled (length seen) then cancel st else st in
      if negb (running st)
      then (Thrown "Job aborted", seen, st)
      else
        let seen := seen ++ [mid media] in
        match processMedia w media st with
        | (Returned _, _, st) => consumePage w cancelled seen rest st
        | (Threw e, _, st) => (Thrown e, seen, st)
        end
  end.

(** [for await (const media of this.loadAvailableMediaPaginated(pageSize))]:
    the loader fetches a page, the loop consumes it, and the loader goes
    on while the page was not empty.  The recursion is bounded by [fuel]. *)
Fixpoint forAwait (w : World) (cancelled : nat → bool) (pageSize : nat)
    (fuel : nat) (offset : nat) (seen : list Z) (st : Sys)
  : Completion * list Z * Sys :=
  match fuel with
  | O => (OutOfFuel, seen, st)
  | S fuel =>
      let mediaPage := find (db st) offset pageSize in
      match consumePage w cancelled seen mediaPage st with
      | (Normal, seen, st) =>
          match mediaPage with
          | [] => (Normal, seen, st)
          | _ :: _ => forAwait w cancelled pageSize fuel (offset + pageSize) seen st
          end
      | r => r
      end
  end.

Definition pageSize : nat := 50.

(** The [try] block of run together with its [catch]; the list holds the
    ids of the records that the loop started to process. *)
Definition runTry (w : World) (cancelled : nat → bool) (st : Sys)
  : Completion * list Z * Sys :=
  match initPlexClient w st with
  | (Threw e, st) => (Thrown e, [], logger LError (MsgFailedToComplete e) st)
  | (Returned _, st) =>
      match plexClient st with
      | None => (Normal, [], st)
      | Some _ =>
          let st := logger LInfo MsgStarting st in
          match forAwait w cancelled pageSize (S (length (db st))) 0 [] st with
          | (Thrown e, seen, st) =>
              (Thrown e, seen, logger LError (MsgFailedToComplete e) st)
          | r => r
          end
      end
  end.

Definition run (w : World) (cancelled : nat → bool) (st : Sys)
  : Completion * list Z * Sys :=
  let st := set_running true st in
  let st := set_plexSeasonsCache ∅ st in
  let st := set_sonarrSeasonsCache ∅ st in
  let st := set_radarrServers (List.filter syncEnabled (settings_radarr w)) st in
  let st := set_sonarrServers (List.filter syncEnabled (settings_sonarr w)) st in
  let '(c, seen, st) := runTry w cancelled st in
  (c, seen, set_running false (logger LInfo MsgComplete st)).

End Sync.

(** ** The revision with findMediaStatus (src/unnamed/part_001) *)

Module Part001.

(** Modelled from the spec: [MediaRequestStatus] of
    [@server/constants/media]; these are the values that the sources
    under src/ name. *)
Inductive MediaRequestStatus : Type :=
| REQUEST_PENDING
| REQUEST_APPROVED
| REQUEST_DECLINED
| REQUEST_COMPLETED.

#[global] Instance MediaRequestStatus_eq_dec : EqDecision MediaRequestStatus.
Proof. solve_decision. Defined.

(** Modelled from the spec: the columns of [MediaRequest] that
    [findMediaStatus] selects on. *)
Record MediaRequest : Type := mkRequest {
  request_id : Z;
  request_status : MediaRequestStatus;
  request_media : Z;
  request_is4k : bool
}.

(** The query of [findMediaStatus]: a request of this media, APPROVED,
    for the given variant. *)
Definition matchesRequest (media : Media) (is4k : bool) (request : MediaRequest) : bool :=
  (request_media request =? mid media)
  && bool_decide (request_status request = REQUEST_APPROVED)
  && bool_decide (request_is4k request = is4k).

Definition findMediaStatus (requests : list MediaRequest) (media : Media)
    (is4k : bool) : bool :=
  match List.find (matchesRequest media is4k) requests with
  | Some _ => true
  | None => false
  end.

Definition mediaUpdater (w : World) (requests : list MediaRequest)
    (media : Media) (is4k : bool) (st : Sys) : Media * Sys :=
  let isMediaProcessing :=
    if bool_decide (mediaType media = TV)
    then findMediaStatus requests media is4k
    else false in
  let media := setStatusOf is4k DELETED media in
  let media :=
    setServiceIdOf is4k
      (if isMediaProcessing then serviceIdOf is4k media else None) media in
  let media :=
    setExternalServiceIdOf is4k
      (if isMediaProcessing then externalServiceIdOf is4k media else None) media in
  let media :=
    setExternalServiceSlugOf is4k
      (if isMediaProcessing then externalServiceSlugOf is4k media else None) media in
  let media :=
    setRatingKeyOf is4k
      (if isMediaProcessing then ratingKeyOf is4k media else None) media in
  match save w media st with
  | (Returned _, st) =>
      (media,
       logger LInfo
         (MsgVariantMissing (tmdbId media) is4k (bool_decide (mediaType media = TV))) st)
  | (Threw e, st) =>
      (media, logger LDebug (MsgFailureUpdating (tmdbId media) e) st)
  end.

(** The functions below complete the class of this revision.  Its log
    messages are recorded with the constructors of [LogMessage] that
    stand for the message of the same role in availabilitySync.ts; the
    two messages "Marking non-4k media ..." and "Marking 4k media ..."
    are both [MsgMarkingPartial].  The calls of [mediaUpdater] that this
    revision does not await are taken to their end where they are made. *)

(** *** mediaExistsInRadarr *)

(** One turn of [for (const server of this.radarrServers)]: the
    variables [radarr] and [radarr4k] are declared outside of the loop
    and keep the answer of an earlier server. *)
Definition radarrServerStep (w : World) (media : Media)
    (acc : option RadarrMovie * option RadarrMovie * Sys) (server : DVRSettings)
  : option RadarrMovie * option RadarrMovie * Sys :=
  let '(radarr, radarr4k, st) := acc in
  let failed (e : string) (st : Sys) : Sys :=
    logger LDebug (MsgFailureRadarr (tmdbId media) (is4k server) e) st in
  match
    (if negb (is4k server) && truthyZ (externalServiceId media)
     then
       match getMovie w (server_id server) (default 0 (externalServiceId media)) with
       | Returned r => Returned (Some r)
       | Threw e => Threw e
       end
     else Returned radarr)
  with
  | Threw e => (radarr, radarr4k, failed e st)
  | Returned radarr =>
      if is4k server && truthyZ (externalServiceId4k media)
      then
        match getMovie w (server_id server) (default 0 (externalServiceId4k media)) with
        | Returned r => (radarr, Some r, st)
        | Threw e => (radarr, radarr4k, failed e st)
        end
      else (radarr, radarr4k, st)
  end.

(** [!radarr || !radarr.hasFile] *)
Definition noFile (radarr : option RadarrMovie) : bool :=
  match radarr with Some r => negb (hasFile r) | None => true end.

Definition mediaExistsInRadarr (w : World) (requests : list MediaRequest)
    (media : Media) (existsInPlex existsInPlex4k : bool) (st : Sys)
  : bool * Media * Sys :=
  let '(radarr, radarr4k, st) :=
    foldl (radarrServerStep w media) (None, None, st) (radarrServers st) in
  let movieExists := negb (noFile radarr && negb existsInPlex) in
  let movieExists4k := negb (noFile radarr4k && negb existsInPlex4k) in
  let '(media, st) :=
    if negb movieExists && movieExists4k
    then
      if status_eqb (status media) AVAILABLE
      then mediaUpdater w requests media false st
      else (media, st)
    else (media, st) in
  let '(media, st) :=
    if movieExists && negb movieExists4k
    then
      if status_eqb (status4k media) AVAILABLE
      then mediaUpdater w requests media true st
      else (media, st)
    else (media, st) in
  (movieExists || movieExists4k, media, st).

(** *** seasonExistsInSonarr *)

(** One turn of [for (const server of this.sonarrServers)] in
    [seasonExistsInSonarr]; [sonarrSeasons] and [sonarrSeasons4k] are
    declared outside of the loop. *)
Definition sonarrSeasonStep (w : World) (media : Media)
    (showExists showExists4k : bool)
    (acc : option (list SonarrSeason) * option (list SonarrSeason) * Sys)
    (server : DVRSettings)
  : option (list SonarrSeason) * option (list SonarrSeason) * Sys :=
  let '(sonarrSeasons, sonarrSeasons4k, st) := acc in
  let failed (e : string) (st : Sys) : Sys :=
    logger LDebug (MsgFailureSonarr (tmdbId media) (is4k server) e) st in
  match
    (if negb (is4k server) && truthyZ (externalServiceId media) && showExists
     then Sync.cachedSeasons w server (externalServiceId media) st
     else (Returned sonarrSeasons, st))
  with
  | (Threw e, st) => (sonarrSeasons, sonarrSeasons4k, failed e st)
  | (Returned sonarrSeasons, st) =>
      if is4k server && truthyZ (externalServiceId4k media) && showExists4k
      then
        match Sync.cachedSeasons w server (externalServiceId4k media) st with
        | (Returned seasons4k, st) => (sonarrSeasons, seasons4k, st)
        | (Threw e, st) => (sonarrSeasons, sonarrSeasons4k, failed e st)
        end
      else (sonarrSeasons, sonarrSeasons4k, st)
  end.

(** [(!sonarrSeasons || seasonIsUnavailable)] *)
Definition notListed (season : Season) (sonarrSeasons : option (list SonarrSeason))
  : bool :=
  match sonarrSeasons with
  | Some l => existsb (Sync.isUnavailableEntry season) l
  | None => true
  end.

(** [status === AVAILABLE || status === PARTIALLY_AVAILABLE] *)
Definition isAvailable (s : MediaStatus) : bool :=
  status_eqb s AVAILABLE || status_eqb s PARTIALLY_AVAILABLE.

(** Lines 454-499: the season loses the variants that do not exist. *)
Definition unsetSeason (media : Media) (r : nat) (seasonExists seasonExists4k : bool)
    (st : Sys) : bool * Media * Sys :=
  let number := seasonNumber (Sync.seasonAt media r) in
  let '(deletedSeason, media, st) :=
    if negb seasonExists && seasonExists4k
    then
      if isAvailable (season_status (Sync.seasonAt media r))
      then (true, updSeason r (set_season_status UNKNOWN) media,
            logger LInfo (MsgSeasonVariantMissing number (tmdbId media) false) st)
      else (false, media, st)
    else (false, media, st) in
  let '(deletedSeason, media, st) :=
    if seasonExists && negb seasonExists4k
    then
      if isAvailable (season_status4k (Sync.seasonAt media r))
      then (true, updSeason r (set_season_status4k UNKNOWN) media,
            logger LInfo (MsgSeasonVariantMissing number (tmdbId media) true) st)
      else (deletedSeason, media, st)
    else (deletedSeason, media, st) in
  if negb seasonExists && negb seasonExists4k
  then
    let '(deletedSeason, media) :=
      if isAvailable (season_status (Sync.seasonAt media r))
      then (true, updSeason r (set_season_status UNKNOWN) media)
      else (deletedSeason, media) in
    let '(deletedSeason, media) :=
      if isAvailable (season_status4k (Sync.seasonAt media r))
      then (true, updSeason r (set_season_status4k UNKNOWN) media)
      else (deletedSeason, media) in
    (deletedSeason, media, st)
  else (deletedSeason, media, st).

(** Lines 501-537: the save of the record and, after it and inside the
    same [try], the demotion of the parent. *)
Definition saveSeasons (w : World) (media : Media) (r : nat)
    (seasonExists seasonExists4k : bool) (st : Sys) : Media * Sys :=
  let media := set_seasons (seasons media ++ [r]) media in
  match save w media st with
  | (Returned _, st) =>
      let st :=
        if negb seasonExists && negb seasonExists4k
        then logger LInfo
               (MsgRemovingSeason (seasonNumber (Sync.seasonAt media r)) (tmdbId media)) st
        else st in
      let '(media, st) :=
        if status_eqb (status media) AVAILABLE
        then (set_status PARTIALLY_AVAILABLE media,
              logger LInfo (MsgMarkingPartial (tmdbId media)) st)
        else (media, st) in
      if status_eqb (status4k media) AVAILABLE
      then (set_status4k PARTIALLY_AVAILABLE media,
            logger LInfo (MsgMarkingPartial (tmdbId media)) st)
      else (media, st)
  | (Threw e, st) =>
      (media, logger LDebug (MsgFailureUpdating (tmdbId media) e) st)
  end.

Definition seasonExistsInSonarr (w : World) (media : Media) (r : nat)
    (seasonExistsInPlex seasonExistsInPlex4k showExists showExists4k : bool)
    (st : Sys) : Media * Sys :=
  let season := Sync.seasonAt media r in
  let '(sonarrSeasons, sonarrSeasons4k, st) :=
    foldl (sonarrSeasonStep w media showExists showExists4k) (None, None, st)
      (sonarrServers st) in
  let seasonExists :=
    negb (notListed season sonarrSeasons && negb seasonExistsInPlex) in
  let seasonExists4k :=
    negb (notListed season sonarrSeasons4k && negb seasonExistsInPlex4k) in
  let '(deletedSeason, media, st) :=
    unsetSeason media r seasonExists seasonExists4k st in
  if deletedSeason
  then saveSeasons w media r seasonExists seasonExists4k st
  else (media, st).

(** *** seasonExists *)

(** One of the two [try] blocks of [seasonExists]; the probe is the one
    of availabilitySync.ts, the [catch] logs every failure. *)
Definition plexSeason (w : World) (key : option string) (showExists : bool)
    (season : Season) (st : Sys) : bool * Sys :=
  if truthyS key && showExists
  then
    match Sync.plexSeasonProbe w (default EmptyString key) season st with
    | (Returned found, st) => (found, st)
    | (Threw e, st) => (false, logger LDebug (MsgPlexChildrenFailed e) st)
    end
  else (false, st).

Definition seasonExists (w : World) (media : Media) (r : nat)
    (showExists showExists4k : bool) (st : Sys) : Media * Sys :=
  let season := Sync.seasonAt media r in
  let '(seasonExistsInPlex, st) :=
    plexSeason w (ratingKey media) showExists season st in
  let '(seasonExistsInPlex4k, st) :=
    plexSeason w (ratingKey4k media) showExists4k season st in
  if seasonExistsInPlex && seasonExistsInPlex4k
  then (media, st)
  else
    seasonExistsInSonarr w media r seasonExistsInPlex seasonExistsInPlex4k
      showExists showExists4k st.

(** *** mediaExistsInSonarr *)

(** One turn of [for (const server of this.sonarrServers)] in
    [mediaExistsInSonarr]. *)
Definition sonarrServerStep (w : World) (media : Media)
    (acc : option SonarrSeries * option SonarrSeries * Sys) (server : DVRSettings)
  : option SonarrSeries * option SonarrSeries * Sys :=
  let '(sonarr, sonarr4k, st) := acc in
  let failed (e : string) (st : Sys) : Sys :=
    logger LDebug (MsgFailureSonarr (tmdbId media) (is4k server) e) st in
  match
    (if negb (is4k server) && truthyZ (externalServiceId media)
     then Sync.fetchSeries w server (externalServiceId media) st
     else (Returned sonarr, st))
  with
  | (Threw e, st) => (sonarr, sonarr4k, failed e st)
  | (Returned sonarr, st) =>
      if is4k server && truthyZ (externalServiceId4k media)
      then
        match Sync.fetchSeries w server (externalServiceId4k media) st with
        | (Returned series4k, st) => (sonarr, series4k, st)
        | (Threw e, st) => (sonarr, sonarr4k, failed e st)
        end
      else (sonarr, sonarr4k, st)
  end.

(** [!sonarr || sonarr.statistics.episodeFileCount === 0] *)
Definition noFiles (sonarr : option SonarrSeries) : bool :=
  match sonarr with Some s => series_episodeFileCount s =? 0 | None => true end.

Definition mediaExistsInSonarr (w : World) (requests : list MediaRequest)
    (media : Media) (existsInPlex existsInPlex4k : bool) (st : Sys)
  : bool * Media * Sys :=
  let '(sonarr, sonarr4k, st) :=
    foldl (sonarrServerStep w media) (None, None, st) (sonarrServers st) in
  let showExists := negb (noFiles sonarr && negb existsInPlex) in
  let showExists4k := negb (noFiles sonarr4k && negb existsInPlex4k) in
  let '(media, st) :=
    foldl (λ '(media, st) r, seasonExists w media r showExists showExists4k st)
      (media, st) (seasons media) in
  let '(media, st) :=
    if negb showExists && showExists4k
    then
      if isAvailable (status media)
      then mediaUpdater w requests media false st
      else (media, st)
    else (media, st) in
  let '(media, st) :=
    if showExists && negb showExists4k
    then
      if isAvailable (status4k media)
      then mediaUpdater w requests media true st
      else (media, st)
    else (media, st) in
  (showExists || showExists4k, media, st).

(** *** mediaExists *)

(** One of the two [try] blocks of [mediaExists]. *)
Definition plexItem (w : World) (key : option string) (st : Sys) : bool * Sys :=
  if truthyS key
  then
    match Sync.plexMediaProbe w (default EmptyString key) st with
    | Returned found => (found, st)
    | Threw e => (false, logger LDebug (MsgPlexMetadataFailed e) st)
    end
  else (false, st).

Definition mediaExists (w : World) (requests : list MediaRequest)
    (media : Media) (st : Sys) : bool * Media * Sys :=
  let '(existsInPlex, st) := plexItem w (ratingKey media) st in
  let '(existsInPlex4k, st) := plexItem w (ratingKey4k media) st in
  match mediaType media with
  | MOVIE =>
      if existsInPlex && existsInPlex4k
      then (true, media, st)
      else
        let '(existsInRadarr, media, st) :=
          mediaExistsInRadarr w requests media existsInPlex existsInPlex4k st in
        if existsInRadarr
        then (true, media, logger LWarn (MsgExistsRadarr (tmdbId media)) st)
        else (false, media, st)
  | TV =>
      let '(existsInSonarr, media, st) :=
        mediaExistsInSonarr w requests media existsInPlex existsInPlex4k st in
      if existsInSonarr
      then (true, media, logger LWarn (MsgExistsSonarr (tmdbId media)) st)
      else (false, media, st)
  end.

(** *** The body of the loop of run *)

(** Lines 70-83 and 84-101: one variant of a record that is missing
    everywhere. *)
Definition deleteVariant (is4k isMediaProcessing : bool) (media : Media) : Media :=
  if isAvailable (statusOf is4k media)
  then
    let media := setStatusOf is4k DELETED media in
    let media :=
      setServiceIdOf is4k
        (if isMediaProcessing then serviceIdOf is4k media else None) media in
    let media :=
      setExternalServiceIdOf is4k
        (if isMediaProcessing then externalServiceIdOf is4k media else None) media in
    let media :=
      setExternalServiceSlugOf is4k
        (if isMediaProcessing then externalServiceSlugOf is4k media else None) media in
    setRatingKeyOf is4k
      (if isMediaProcessing then ratingKeyOf is4k media else None) media
  else media.

(** Lines 56-109: what run does with one record. *)
Definition processMedia (w : World) (requests : list MediaRequest)
    (media : Media) (st : Sys) : Outcome unit * Media * Sys :=
  let '(mediaExists, media, st) := mediaExists w requests media st in
  if negb mediaExists
  then
    let isTV := bool_decide (mediaType media = TV) in
    let isMediaProcessing := isTV && findMediaStatus requests media false in
    let isMediaProcessing4k := isTV && findMediaStatus requests media true in
    let media := deleteVariant false isMediaProcessing media in
    let media := deleteVariant true isMediaProcessing4k media in
    let st := logger LInfo (MsgMediaMissing (tmdbId media)) st in
    match save w media st with
    | (Returned _, st) => (Returned tt, media, st)
    | (Threw e, st) => (Threw e, media, st)
    end
  else (Returned tt, media, st).

End Part001.

(** ** server/entity/SeasonRequest.ts *)

Module SeasonRequestEntity.

(** The columns of [SeasonRequest]; [sr_request] is [this.request.id]. *)
Record SeasonRequest : Type := mkSeasonRequest {
  sr_id : Z;
  sr_seasonNumber : Z;
  sr_status : Part001.MediaRequestStatus;
  sr_request : Z
}.

(** The entity [MediaRequest] is not among the sources; a row carries what
    the hook uses of it: its id, its status, and the season requests that
    are loaded with it ([requestToBeDeleted.seasons]). *)
Record RequestRow : Type := mkRequestRow {
  row_id : Z;
  row_status : Part001.MediaRequestStatus;
  row_seasons : list SeasonRequest
}.

(** [mediaRequestRepository.update(id, { status })] *)
Definition update (id : Z) (status : Part001.MediaRequestStatus)
    (rows : list RequestRow) : list RequestRow :=
  map (λ row, if row_id row =? id
              then mkRequestRow (row_id row) status (row_seasons row)
              else row)
    rows.

(** The hook that runs after the update of a season request.  [None]
    stands for the rejection of [findOneOrFail]. *)
Definition handleRemoveParent (this : SeasonRequest) (rows : list RequestRow)
  : option (list RequestRow) :=
  match List.find (λ row, row_id row =? sr_request this) rows with
  | None => None
  | Some requestToBeDeleted =>
      let allSeasonsAreCompleted :=
        List.filter
          (λ season, bool_decide (sr_status season = Part001.REQUEST_COMPLETED))
          (row_seasons requestToBeDeleted) in
      if (length (row_seasons requestToBeDeleted)
          =? length allSeasonsAreCompleted)%nat
      then Some (update (sr_request this) Part001.REQUEST_COMPLETED rows)
      else Some rows
  end.

End SeasonRequestEntity.

(** ** Notions used by the statements *)

(** The linkage fields of one variant. *)
Definition linkageOf (is4k : bool) (m : Media)
  : option Z * option Z * option string * option string :=
  (serviceIdOf is4k m, externalServiceIdOf is4k m,
   externalServiceSlugOf is4k m, ratingKeyOf is4k m).

Definition noLinkage : option Z * option Z * option string * option string :=
  (None, None, None, None).

(** A status is terminal when it is DELETED or UNKNOWN. *)
Definition terminal (s : MediaStatus) : Prop := s = DELETED ∨ s = UNKNOWN.

(** What a status may become: it stays, or becomes DELETED or UNKNOWN, or,
    for the status of a parent record only, goes from AVAILABLE to
    PARTIALLY_AVAILABLE. *)
Definition statusStep (parent : bool) (old new : MediaStatus) : Prop :=
  new = old ∨ new = DELETED ∨ new = UNKNOWN
  ∨ (parent = true ∧ old = AVAILABLE ∧ new = PARTIALLY_AVAILABLE).

Definition seasonRel (s s' : Season) : Prop :=
  seasonNumber s' = seasonNumber s
  ∧ statusStep false (season_status s) (season_status s')
  ∧ statusStep false (season_status4k s) (season_status4k s').

(** The same record before and after: same id, the statuses of both
    variants and of every season evolved by [statusStep]. *)
Definition mediaRel (m m' : Media) : Prop :=
  mid m' = mid m
  ∧ statusStep true (status m) (status m')
  ∧ statusStep true (status4k m) (status4k m')
  ∧ Forall2 seasonRel (seasonObjs m) (seasonObjs m').

(** The rows written between two states all evolve the record [m]. *)
Definition writesOf (m : Media) (st st' : Sys) : Prop :=
  ∃ l l',
    saved st' = saved st ++ l ∧ Forall (mediaRel m) l
    ∧ db st' = foldl (λ rows x, upsert (loaded x) rows) (db st) l'
    ∧ Forall (mediaRel m) l'.

(** The schedule in which [cancel()] is never called. *)
Definition never : nat → bool := λ _, false.

(** ** Writes *)

Definition storeEq (st st' : Sys) : Prop :=
  db st' = db st ∧ saved st' = saved st.

Definition Step (m : Media) (st : Sys) (m' : Media) (st' : Sys) : Prop :=
  mediaRel m m' ∧ writesOf m st st'.

(** ** From one record to a run *)

Definition evolved (rows : list Media) (x : Media) : Prop :=
  ∃ row, row ∈ rows ∧ mediaRel row x.

Definition tableInv (rows : list Media) (st0 st : Sys) : Prop :=
  Forall (evolved rows) (db st)
  ∧ ∃ l, saved st = saved st0 ++ l ∧ Forall (evolved rows) l.

(** Two records with the same statuses and the same Season objects. *)
Definition sameStatuses (m m' : Media) : Prop :=
  status m' = status m ∧ status4k m' = status4k m ∧ seasonObjs m' = seasonObjs m.

Definition guarded (e d : bool) (m : Media) : Prop :=
  (e = false ∨ d = true) → status m ≠ AVAILABLE ∧ status4k m ≠ AVAILABLE.

(** The four existence flags that [seasonExists] and
    [seasonExistsInSonarr] compute for a season, with the state after the
    probes. *)
Definition seasonFacts (w : World) (media : Media) (r : nat) (st : Sys)
  : bool * bool * bool * bool * Sys :=
  let season := Sync.seasonAt media r in
  let '(p, p4, st) := Sync.seasonExistsInPlex w media season st in
  let '(s, s4, st) :=
    foldl (Sync.sonarrSeasonStep w media season) (true, true, st) (sonarrServers st) in
  (p, p4, s, s4, st).

(** A variant of a season is treated as lost when neither its Sonarr flag
    nor its Plex flag is set (lines 505-509 and 530-534). *)
Definition judgedExistent (is4k : bool) (facts : bool * bool * bool * bool) : bool :=
  let '(p, p4, s, s4) := facts in
  if is4k then s4 || p4 else s || p.

(** The cached child listing of a rating key has a child with index [n]. *)
Definition plexLists (cache : gmap string (list PlexMetadata))
    (key : option string) (n : Z) : Prop :=
  truthyS key = true
  ∧ ∃ children child,
      cache !! default EmptyString key = Some children
      ∧ child ∈ children ∧ index child = n.

(** The cached season statistics of some server of the variant report
    files for season [n]. *)
Definition statsPositive (cache : gmap (Z * option Z) (list SonarrSeason))
    (servers : list DVRSettings) (v : bool) (ext : option Z) (n : Z) : Prop :=
  ∃ server l entry c,
    server ∈ servers ∧ is4k server = v
    ∧ cache !! Sync.sonarrKey server ext = Some l
    ∧ entry ∈ l ∧ sonarr_seasonNumber entry = n
    ∧ statistics entry = Some c ∧ 0 < c.

(** The statistics [l] hold an entry of season [n] without files. *)
Definition zeroEntry (n : Z) (l : list SonarrSeason) : Prop :=
  ∃ entry, entry ∈ l ∧ sonarr_seasonNumber entry = n ∧ statistics entry = Some 0.

(** Server [server] reports no loss of season [n]: its statistics were
    obtained (when the record has an external id) and hold no entry of
    that season without files. *)
Definition noLoss (cache : gmap (Z * option Z) (list SonarrSeason))
    (server : DVRSettings) (ext : option Z) (n : Z) : Prop :=
  if truthyZ ext
  then ∃ l, cache !! Sync.sonarrKey server ext = Some l ∧ ¬ zeroEntry n l
  else ∀ l, cache !! Sync.sonarrKey server ext = Some l → ¬ zeroEntry n l.

(** The cache only grows, by listings that Sonarr returned. *)
Definition grows (w : World) (c c' : gmap (Z * option Z) (list SonarrSeason)) : Prop :=
  ∀ k, c' !! k = c !! k
       ∨ (c !! k = None ∧ truthyZ k.2 = true
          ∧ ∃ series, getSeriesById w k.1 (default 0 k.2) = Returned series
                      ∧ c' !! k = Some (series_seasons series)).

(** The listing of a server is settled once it is cached or Sonarr has
    refused it: later turns cannot change what the server reports. *)
Definition settled (w : World) (c : gmap (Z * option Z) (list SonarrSeason))
    (server : DVRSettings) (ext : option Z) : Prop :=
  truthyZ ext = true →
  is_Some (c !! Sync.sonarrKey server ext)
  ∨ ∃ e, getSeriesById w (server_id server) (default 0 ext) = Threw e.

Definition variantExt (media : Media) (server : DVRSettings) : option Z :=
  if is4k server then externalServiceId4k media else externalServiceId media.

(** Between two states saves were issued, or else nothing happened to the
    record and to the table. *)
Definition savedOrSame (m : Media) (st : Sys) (m' : Media) (st' : Sys) : Prop :=
  ∃ l, saved st' = saved st ++ l ∧ (l = [] → m' = m ∧ db st' = db st).

(** ** The terminal guard of the record itself *)

(** A status of the record that is not AVAILABLE is kept. *)
Definition keepsParent (m m' : Media) : Prop :=
  ∀ v, statusOf v m ≠ AVAILABLE → statusOf v m' = statusOf v m.

(** A status of the record that is DELETED or UNKNOWN is kept. *)
Definition keepsTerminal (m m' : Media) : Prop :=
  ∀ v, terminal (statusOf v m) → statusOf v m' = statusOf v m.



(** ** Concrete installations used by the examples *)

Definition srvStd : DVRSettings := mkServer 1 false true.
Definition srv4k : DVRSettings := mkServer 2 true true.
Definition owner : User := mkUser (Some "token").

(** The logger has no method [warning]: calling it throws a TypeError. *)
Definition noWarning : Outcome unit := Threw "logger.warning is not a function".

(** Nothing answers: Plex says 404, Radarr and Sonarr refuse. *)
Definition offline : World :=
  mkWorld [srvStd; srv4k] [srvStd; srv4k] (Returned (Some owner)) noWarning
    (λ _ _, Threw "response code: 404")
    (λ _ _, Threw "response code: 404")
    (λ _ _, Threw "ECONNREFUSED")
    (λ _ _, Threw "ECONNREFUSED")
    (λ _, None).

(** Plex holds every title. *)
Definition online : World :=
  mkWorld [srvStd; srv4k] [srvStd; srv4k] (Returned (Some owner)) noWarning
    (λ _ key, Returned (Some (mkPlexItem key)))
    (λ _ _, Returned (Some []))
    (λ _ _, Threw "ECONNREFUSED")
    (λ _ _, Threw "ECONNREFUSED")
    (λ _, None).

(** [offline] after the user with id 1 is gone. *)
Definition ownerless : World :=
  mkWorld [srvStd; srv4k] [srvStd; srv4k] (Returned None) noWarning
    (getMetadata offline) (getChildrenMetadata offline)
    (getMovie offline) (getSeriesById offline) (saveError offline).

(** [ownerless] with a logger that has a method [warning]. *)
Definition ownerlessLenient : World :=
  mkWorld [srvStd; srv4k] [srvStd; srv4k] (Returned None) (Returned tt)
    (getMetadata offline) (getChildrenMetadata offline)
    (getMovie offline) (getSeriesById offline) (saveError offline).

(** [offline] with a table that refuses to save the record with id 1. *)
Definition readOnly : World :=
  mkWorld [srvStd; srv4k] [srvStd; srv4k] (Returned (Some owner)) noWarning
    (getMetadata offline) (getChildrenMetadata offline)
    (getMovie offline) (getSeriesById offline)
    (λ m, if mid m =? 1 then Some "SQLITE_BUSY" else None).

(** Plex has the show but none of its seasons; both Sonarr instances have
    season 1 with files and season 2 without. *)
Definition seasonLost : World :=
  mkWorld [] [srvStd; srv4k] (Returned (Some owner)) noWarning
    (λ _ key, if String.eqb key "show" then Returned (Some (mkPlexItem key))
              else Threw "response code: 404")
    (λ _ _, Returned (Some []))
    (λ _ _, Threw "ECONNREFUSED")
    (λ _ _, Returned (mkSonarrSeries
                        [mkSonarrSeason 1 (Some 5); mkSonarrSeason 2 (Some 0)] 5))
    (λ _, None).

(** One standard Sonarr instance whose statistics know season 2 only. *)
Definition seasonUnlisted : World :=
  mkWorld [] [srvStd] (Returned (Some owner)) noWarning
    (λ _ _, Threw "response code: 404")
    (λ _ _, Returned (Some []))
    (λ _ _, Threw "ECONNREFUSED")
    (λ _ _, Returned (mkSonarrSeries [mkSonarrSeason 2 (Some 3)] 3))
    (λ _, None).

Definition movieA : Media :=
  mkMedia 1 101 MOVIE AVAILABLE UNKNOWN (Some 1) None (Some 11) None
    (Some "movie-a") None (Some "a") None [] [].

Definition movieB : Media :=
  mkMedia 2 102 MOVIE AVAILABLE UNKNOWN (Some 1) None (Some 12) None
    (Some "movie-b") None (Some "b") None [] [].

Definition movieBoth : Media :=
  mkMedia 3 103 MOVIE AVAILABLE AVAILABLE (Some 1) (Some 2) (Some 13) (Some 23)
    (Some "movie-c") (Some "movie-c") (Some "c") (Some "c4") [] [].

(** A show whose only season is available in 4K and unknown in standard. *)
Definition show4kOnly : Media :=
  mkMedia 10 110 TV UNKNOWN AVAILABLE None (Some 2) None (Some 8)
    None (Some "show") None (Some "show4") [mkSeason 1 UNKNOWN AVAILABLE] [0%nat].

(** A show with two seasons; the 4K copy of season 2 was removed earlier. *)
Definition showTwo : Media :=
  mkMedia 11 111 TV AVAILABLE AVAILABLE (Some 1) (Some 2) (Some 7) (Some 8)
    (Some "show") (Some "show") (Some "show") (Some "show4")
    [mkSeason 1 AVAILABLE AVAILABLE; mkSeason 2 AVAILABLE DELETED] [0%nat; 1%nat].

(** A show known to one Sonarr instance, without rating keys. *)
Definition showBare : Media :=
  mkMedia 12 112 TV AVAILABLE UNKNOWN (Some 1) None (Some 7) None
    (Some "show") None None None [mkSeason 1 AVAILABLE UNKNOWN] [0%nat].

(** The instance after a run that found nothing to process: the Plex
    client and the lists of servers are set. *)
Definition ready (w : World) : Sys := (Sync.run w never (newSync [])).2.




(** A library of [n] movies, all of them eligible. *)
Definition movieN (n : nat) : Media :=
  mkMedia (Z.of_nat n) (100 + Z.of_nat n) MOVIE AVAILABLE UNKNOWN (Some 1) None
    (Some (Z.of_nat n)) None None None None None [] [].

Definition library (n : nat) : list Media := movieN <$> seq 1 n.

(** ** What mediaExists decides for a record *)

(** Plex answers the lookup of the rating key [key] with an item. *)
Definition plexFinds (w : World) (st : Sys) (key : option string) : Prop :=
  truthyS key = true
  ∧ ∃ api item,
      plexClient st = Some api
      ∧ getMetadata w api (default EmptyString key) = Returned (Some item).

(** The lookup of the rating key [key] is made and throws. *)
Definition plexFails (w : World) (st : Sys) (key : option string) : Prop :=
  truthyS key = true
  ∧ ∃ api e,
      plexClient st = Some api
      ∧ getMetadata w api (default EmptyString key) = Threw e.

(** The variant is found in Plex.  The two lookups share one [try]
    block: the one of the 4K key is only made when the one of the standard
    key has not thrown. *)
Definition inPlex (w : World) (st : Sys) (media : Media) (v : bool) : Prop :=
  plexFinds w st (ratingKeyOf v media)
  ∧ (v = true → ¬ plexFails w st (ratingKey media)).

(** Server [server] of Radarr returns the movie of the variant, with a
    file. *)
Definition radarrHolds (w : World) (media : Media) (v : bool)
    (server : DVRSettings) : Prop :=
  truthyZ (externalServiceIdOf v media) = true
  ∧ ∃ movie,
      getMovie w (server_id server) (default 0 (externalServiceIdOf v media))
      = Returned movie
      ∧ hasFile movie = true.

(** Server [server] of Sonarr returns the series of the variant, with at
    least one episode file. *)
Definition sonarrHolds (w : World) (media : Media) (v : bool)
    (server : DVRSettings) : Prop :=
  truthyZ (externalServiceIdOf v media) = true
  ∧ ∃ series,
      getSeriesById w (server_id server) (default 0 (externalServiceIdOf v media))
      = Returned series
      ∧ series_episodeFileCount series ≠ 0.

(** Every sync-enabled server of the variant, of the kind that serves the
    type of the record, holds it. *)
Definition inArr (w : World) (st : Sys) (media : Media) (v : bool) : Prop :=
  match mediaType media with
  | MOVIE =>
      ∀ server, server ∈ radarrServers st → is4k server = v →
                radarrHolds w media v server
  | TV =>
      ∀ server, server ∈ sonarrServers st → is4k server = v →
                sonarrHolds w media v server
  end.

(** The variant is found somewhere. *)
Definition found (w : World) (st : Sys) (media : Media) (v : bool) : Prop :=
  inPlex w st media v ∨ inArr w st media v.

(** The two tests on one server, as booleans. *)
Definition radarrOk (w : World) (media : Media) (v : bool)
    (server : DVRSettings) : bool :=
  negb (bool_decide (is4k server = v))
  || (truthyZ (externalServiceIdOf v media)
      && match getMovie w (server_id server)
                 (default 0 (externalServiceIdOf v media)) with
         | Returned movie => hasFile movie
         | Threw _ => false
         end).

Definition sonarrOk (w : World) (media : Media) (v : bool)
    (server : DVRSettings) : bool :=
  negb (bool_decide (is4k server = v))
  || (truthyZ (externalServiceIdOf v media)
      && match getSeriesById w (server_id server)
                 (default 0 (externalServiceIdOf v media)) with
         | Returned series => negb (series_episodeFileCount series =? 0)
         | Threw _ => false
         end).

(** The variant [v] is found by the flags of [updateSingleVariant]. *)
Definition flagged (v a a4 p p4 : bool) : bool :=
  if v then a4 || p4 else a || p.

(** [found], computed. *)
Definition foundb (w : World) (st : Sys) (media : Media) (v : bool) : bool :=
  (if v then (Sync.existsInPlex w media st).1.2
   else (Sync.existsInPlex w media st).1.1)
  || match mediaType media with
     | MOVIE => forallb (radarrOk w media v) (radarrServers st)
     | TV => forallb (sonarrOk w media v) (sonarrServers st)
     end.

(** Plex has nothing; the standard Radarr has lost the file of every
    movie, the 4K Radarr still has it. *)
Definition standardLost : World :=
  mkWorld [srvStd; srv4k] [srvStd; srv4k] (Returned (Some owner)) noWarning
    (λ _ _, Threw "response code: 404")
    (λ _ _, Threw "response code: 404")
    (λ server _, Returned (mkRadarrMovie (server =? 2)))
    (λ _ _, Threw "ECONNREFUSED")
    (λ _, None).

(** ** The order in which the loader hands out the records *)

(** The ids of the rows that match the [where] clause of the loader, in
    the order of the table. *)
Definition eligibleIds (rows : list Media) : list Z :=
  map mid (List.filter eligible rows).

(** The table [rows] has the rows of [rows0], by id and position, and no
    row of it matches the [where] clause unless it did in [rows0]. *)
Definition shrinks (rows0 rows : list Media) : Prop :=
  Forall2
    (λ row0 row, mid row = mid row0 ∧ (eligible row = true → eligible row0 = true))
    rows0 rows.

(** A page: every record of it has the id of a row of [rows0] that
    matches the [where] clause. *)
Definition pageOf (rows0 page : list Media) : Prop :=
  Forall (λ m, ∃ row0, row0 ∈ rows0 ∧ eligible row0 = true ∧ mid m = mid row0) page.

(** ** What the processing of a record leaves alone *)

(** The flag, the Plex client and the two lists of servers of the
    instance are the same in both states. *)
Definition sameConfig (st st' : Sys) : Prop :=
  running st' = running st
  ∧ plexClient st' = plexClient st
  ∧ radarrServers st' = radarrServers st
  ∧ sonarrServers st' = sonarrServers st.

(** ** An installation without sync-enabled servers *)

(** No Radarr and no Sonarr server is in the lists of the instance. *)
Definition serverless (st : Sys) : Prop :=
  radarrServers st = [] ∧ sonarrServers st = [].

(** Servers are configured, none of them with sync enabled; Plex has
    nothing. *)
Definition unsynced : World :=
  mkWorld [mkServer 1 false false] [mkServer 2 true false] (Returned (Some owner)) noWarning
    (λ _ _, Threw "response code: 404")
    (λ _ _, Threw "response code: 404")
    (λ _ _, Threw "ECONNREFUSED")
    (λ _ _, Threw "ECONNREFUSED")
    (λ _, None).

(** ** Servers without sync are never consulted *)

(** Two installations that answer alike wherever the instance in state
    [st] can ask: Plex, the table, and the servers in the two lists of
    the instance. *)
Definition alike (w w' : World) (st : Sys) : Prop :=
  (∀ api key, getMetadata w api key = getMetadata w' api key)
  ∧ (∀ api key, getChildrenMetadata w api key = getChildrenMetadata w' api key)
  ∧ (∀ m, saveError w m = saveError w' m)
  ∧ (∀ server id, server ∈ radarrServers st →
                  getMovie w (server_id server) id = getMovie w' (server_id server) id)
  ∧ (∀ server id, server ∈ sonarrServers st →
                  getSeriesById w (server_id server) id
                  = getSeriesById w' (server_id server) id).

(** Two installations with the same settings, the same first user and
    the same logger that answer alike on Plex, on saves, and on every
    Radarr and Sonarr server that has sync enabled. *)
Definition sameButUnsynced (w w' : World) : Prop :=
  settings_radarr w' = settings_radarr w
  ∧ settings_sonarr w' = settings_sonarr w
  ∧ admin w' = admin w
  ∧ loggerWarning w' = loggerWarning w
  ∧ (∀ api key, getMetadata w api key = getMetadata w' api key)
  ∧ (∀ api key, getChildrenMetadata w api key = getChildrenMetadata w' api key)
  ∧ (∀ m, saveError w m = saveError w' m)
  ∧ (∀ server id, server ∈ settings_radarr w → syncEnabled server = true →
                  getMovie w (server_id server) id = getMovie w' (server_id server) id)
  ∧ (∀ server id, server ∈ settings_sonarr w → syncEnabled server = true →
                  getSeriesById w (server_id server) id
                  = getSeriesById w' (server_id server) id).

(** One Radarr and one Sonarr server with sync, one 4K server of each
    kind without; the 4K servers are unreachable. *)
Definition halfSynced : World :=
  mkWorld [srvStd; mkServer 2 true false] [srvStd; mkServer 2 true false]
    (Returned (Some owner)) noWarning
    (λ _ _, Threw "response code: 404")
    (λ _ _, Threw "response code: 404")
    (λ server _, if server =? 2 then Threw "ECONNREFUSED"
                 else Returned (mkRadarrMovie true))
    (λ server _, if server =? 2 then Threw "ECONNREFUSED"
                 else Returned (mkSonarrSeries [mkSonarrSeason 1 (Some 4)] 4))
    (λ _, None).

(** The same installation, the 4K servers answering that they have no
    file. *)
Definition halfSyncedEmpty : World :=
  mkWorld [srvStd; mkServer 2 true false] [srvStd; mkServer 2 true false]
    (Returned (Some owner)) noWarning
    (λ _ _, Threw "response code: 404")
    (λ _ _, Threw "response code: 404")
    (λ server _, if server =? 2 then Returned (mkRadarrMovie false)
                 else Returned (mkRadarrMovie true))
    (λ server _, if server =? 2 then Returned (mkSonarrSeries [] 0)
                 else Returned (mkSonarrSeries [mkSonarrSeason 1 (Some 4)] 4))
    (λ _, None).

(** ** What the revision with findMediaStatus does to a record *)

(** What may happen to variant [v] of a record between two moments: it
    is kept (same linkage, same status or the demotion from AVAILABLE to
    PARTIALLY_AVAILABLE), or it is removed (it was AVAILABLE or
    PARTIALLY_AVAILABLE, its status is now DELETED, and its linkage is
    cleared unless the record is a series with an APPROVED request of
    that variant). *)
Definition variantMove (requests : list Part001.MediaRequest) (v : bool)
    (m m' : Media) : Prop :=
  (linkageOf v m' = linkageOf v m
   ∧ (statusOf v m' = statusOf v m
      ∨ (statusOf v m = AVAILABLE ∧ statusOf v m' = PARTIALLY_AVAILABLE)))
  ∨ (Part001.isAvailable (statusOf v m) = true
     ∧ statusOf v m' = DELETED
     ∧ linkageOf v m'
       = if bool_decide (mediaType m = TV) && Part001.findMediaStatus requests m v
         then linkageOf v m else noLinkage).

(** What may happen to a status of a season: it stays, or it was
    AVAILABLE or PARTIALLY_AVAILABLE and is now UNKNOWN. *)
Definition seasonMove (s s' : Season) : Prop :=
  seasonNumber s' = seasonNumber s
  ∧ ∀ v, seasonStatusOf v s' = seasonStatusOf v s
         ∨ (Part001.isAvailable (seasonStatusOf v s) = true
            ∧ seasonStatusOf v s' = UNKNOWN).

(** The same record at two moments of its processing by part_001. *)
Definition moved (requests : list Part001.MediaRequest) (m m' : Media) : Prop :=
  mid m' = mid m ∧ mediaType m' = mediaType m
  ∧ (∀ v, variantMove requests v m m')
  ∧ Forall2 seasonMove (seasonObjs m) (seasonObjs m').

(** Between two states every save issued was of a record that [m] has
    moved to. *)
Definition savesOf (requests : list Part001.MediaRequest) (m : Media)
    (st st' : Sys) : Prop :=
  ∃ l, saved st' = saved st ++ l ∧ Forall (moved requests m) l.

Definition Move (requests : list Part001.MediaRequest) (m : Media) (st : Sys)
    (m' : Media) (st' : Sys) : Prop :=
  moved requests m m' ∧ savesOf requests m st st'.

(** ** Which Radarr server decides in the revision with findMediaStatus *)

(** Server [server] is asked for the movie of variant [v] and throws. *)
Definition radarrThrows (w : World) (media : Media) (v : bool)
    (server : DVRSettings) : Prop :=
  ∃ e, getMovie w (server_id server) (default 0 (externalServiceIdOf v media))
       = Threw e.

(** The last server of variant [v] that answers has the movie with a
    file: every server of the variant after it in the list throws. *)
Definition lastHolds (w : World) (media : Media) (v : bool)
    (servers : list DVRSettings) : Prop :=
  ∃ l1 server l2,
    servers = l1 ++ server :: l2
    ∧ is4k server = v
    ∧ radarrHolds w media v server
    ∧ ∀ s, s ∈ l2 → is4k s = v → radarrThrows w media v s.

(** The value of [radarr] (or [radarr4k]) after the loop has gone through
    [servers], when it held [cur] before. *)
Fixpoint kept (w : World) (media : Media) (v : bool) (cur : option RadarrMovie)
    (servers : list DVRSettings) : option RadarrMovie :=
  match servers with
  | [] => cur
  | server :: rest =>
      kept w media v
        (if bool_decide (is4k server = v) && truthyZ (externalServiceIdOf v media)
         then
           match getMovie w (server_id server)
                   (default 0 (externalServiceIdOf v media)) with
           | Returned movie => Some movie
           | Threw _ => cur
           end
         else cur)
        rest
  end.

(** No server of variant [v] in the list gives an answer. *)
Definition silent (w : World) (media : Media) (v : bool)
    (servers : list DVRSettings) : Prop :=
  truthyZ (externalServiceIdOf v media) = true →
  ∀ s, s ∈ servers → is4k s = v → radarrThrows w media v s.

(** Two standard Radarr servers: the first has the file of every movie,
    the second is unreachable; Plex has nothing. *)
Definition failover : World :=
  mkWorld [srvStd; mkServer 3 false true] [] (Returned (Some owner)) noWarning
    (λ _ _, Threw "response code: 404")
    (λ _ _, Threw "response code: 404")
    (λ server _, if server =? 1 then Returned (mkRadarrMovie true)
                 else Threw "ECONNREFUSED")
    (λ _ _, Threw "ECONNREFUSED")
    (λ _, None).

(** ** A series that has lost a variant, in the revision with findMediaStatus *)

(** Variant [v] of the series is found nowhere: Plex returns no item for
    its rating key, and no sync-enabled Sonarr server of the variant
    returns the series with an episode file. *)
Definition gone (w : World) (st : Sys) (media : Media) (v : bool) : Prop :=
  ¬ plexFinds w st (ratingKeyOf v media)
  ∧ ∀ server, server ∈ sonarrServers st → is4k server = v →
              ¬ sonarrHolds w media v server.

(** ** The hook of a season request *)

(** Every season request of the list is COMPLETED. *)
Definition allCompleted (seasons : list SeasonRequestEntity.SeasonRequest) : Prop :=
  Forall (λ season,
            SeasonRequestEntity.sr_status season = Part001.REQUEST_COMPLETED)
         seasons.

(** What the hook of [this] makes of one row of the request table: the id
    and the season requests stay, the status becomes COMPLETED when the
    row is the parent of [this] and all its season requests are
    COMPLETED, and stays otherwise. *)
Definition hookOutcome (this : SeasonRequestEntity.SeasonRequest)
    (row row' : SeasonRequestEntity.RequestRow) : Prop :=
  SeasonRequestEntity.row_id row' = SeasonRequestEntity.row_id row
  ∧ SeasonRequestEntity.row_seasons row' = SeasonRequestEntity.row_seasons row
  ∧ SeasonRequestEntity.row_status row'
    = if bool_decide
           (SeasonRequestEntity.row_id row = SeasonRequestEntity.sr_request this
            ∧ allCompleted (SeasonRequestEntity.row_seasons row))
      then Part001.REQUEST_COMPLETED
      else SeasonRequestEntity.row_status row.

(** A request for two seasons, both completed, and one with a pending
    season. *)
Definition requestRows : list SeasonRequestEntity.RequestRow :=
  [ SeasonRequestEntity.mkRequestRow 7 Part001.REQUEST_APPROVED
      [ SeasonRequestEntity.mkSeasonRequest 1 1 Part001.REQUEST_COMPLETED 7
      ; SeasonRequestEntity.mkSeasonRequest 2 2 Part001.REQUEST_COMPLETED 7 ]
  ; SeasonRequestEntity.mkRequestRow 8 Part001.REQUEST_APPROVED
      [ SeasonRequestEntity.mkSeasonRequest 3 1 Part001.REQUEST_PENDING 8 ] ].

(** * Proofs *)

(** ** Status steps *)

Lemma statusStep_refl p a : statusStep p a a.
Proof. by left. Qed.

Lemma statusStep_trans p a b c :
  statusStep p a b → statusStep p b c → statusStep p a c.
Proof.
  unfold statusStep.
  intros [->|[->|[->|(Hp & -> & ->)]]] [->|[->|[->|(Hq & E & ->)]]];
    try discriminate; auto 10.
Qed.

Lemma statusStep_deleted p a : statusStep p a DELETED.
Proof. right; by left. Qed.

Lemma statusStep_unknown p a : statusStep p a UNKNOWN.
Proof. right; right; by left. Qed.

Lemma seasonRel_refl s : seasonRel s s.
Proof. repeat split; apply statusStep_refl. Qed.

Lemma seasonRel_trans a b c : seasonRel a b → seasonRel b c → seasonRel a c.
Proof.
  intros (N1 & S1 & T1) (N2 & S2 & T2). repeat split.
  - congruence.
  - eapply statusStep_trans; eauto.
  - eapply statusStep_trans; eauto.
Qed.

Lemma seasonsRel_refl l : Forall2 seasonRel l l.
Proof. induction l; constructor; auto using seasonRel_refl. Qed.

Lemma mediaRel_refl m : mediaRel m m.
Proof.
  repeat split; auto using statusStep_refl, seasonsRel_refl.
Qed.

Lemma mediaRel_trans a b c : mediaRel a b → mediaRel b c → mediaRel a c.
Proof.
  intros (I1 & S1 & T1 & F1) (I2 & S2 & T2 & F2). repeat split.
  - congruence.
  - eapply statusStep_trans; eauto.
  - eapply statusStep_trans; eauto.
  - eapply Forall2_trans; [|eauto..]. apply seasonRel_trans.
Qed.

Lemma mediaRel_loaded m : mediaRel m (loaded m).
Proof. repeat split; simpl; auto using statusStep_refl, seasonsRel_refl. Qed.

Lemma mediaRel_of_loaded m x : mediaRel (loaded m) x → mediaRel m x.
Proof. intros; eapply mediaRel_trans; [apply mediaRel_loaded|done]. Qed.

Lemma mediaRel_updSeason f r m :
  (∀ s, seasonRel s (f s)) → mediaRel m (updSeason r f m).
Proof.
  intros Hf. unfold updSeason.
  destruct (seasonObjs m !! r) as [s|] eqn:E; [|apply mediaRel_refl].
  repeat split; simpl; auto using statusStep_refl.
  rewrite <- (list_insert_id (seasonObjs m) r s) at 1 by done.
  apply Forall2_insert; auto using seasonsRel_refl.
Qed.

Lemma seasonRel_setDeleted v s : seasonRel s (setSeasonStatusOf v DELETED s).
Proof.
  destruct v; repeat split; simpl; auto using statusStep_refl, statusStep_deleted.
Qed.

Lemma seasonRel_deleteSeason s : seasonRel s (Sync.deleteSeason s).
Proof. repeat split; simpl; auto using statusStep_deleted. Qed.

Lemma storeEq_refl st : storeEq st st.
Proof. by split. Qed.

Lemma storeEq_trans a b c : storeEq a b → storeEq b c → storeEq a c.
Proof. intros [? ?] [? ?]; split; congruence. Qed.

Lemma storeEq_logger l x st : storeEq st (logger l x st).
Proof. by split. Qed.

Lemma writesOf_store m st st' : storeEq st st' → writesOf m st st'.
Proof.
  intros [D S]. exists [], []. rewrite app_nil_r. simpl. auto.
Qed.

Lemma writesOf_trans m m1 st st1 st2 :
  mediaRel m m1 → writesOf m st st1 → writesOf m1 st1 st2 → writesOf m st st2.
Proof.
  intros R (l & l' & S & F & D & F') (k & k' & S2 & G & D2 & G').
  exists (l ++ k), (l' ++ k'). repeat split.
  - rewrite S2, S. by rewrite app_assoc.
  - apply Forall_app; split; [done|].
    eapply Forall_impl; [exact G|]. intros; eapply mediaRel_trans; eauto.
  - rewrite D2, D. by rewrite foldl_app.
  - apply Forall_app; split; [done|].
    eapply Forall_impl; [exact G'|]. intros; eapply mediaRel_trans; eauto.
Qed.

Lemma Step_store m st st' : storeEq st st' → Step m st m st'.
Proof. split; [apply mediaRel_refl | by apply writesOf_store]. Qed.

Lemma Step_media m m' st : mediaRel m m' → Step m st m' st.
Proof. split; [done | apply writesOf_store, storeEq_refl]. Qed.

Lemma Step_trans m st m1 st1 m2 st2 :
  Step m st m1 st1 → Step m1 st1 m2 st2 → Step m st m2 st2.
Proof.
  intros [R W] [R2 W2]. split.
  - eapply mediaRel_trans; eauto.
  - eapply writesOf_trans; eauto.
Qed.

Lemma save_writes w m x st o st' :
  mediaRel m x → save w x st = (o, st') → writesOf m st st'.
Proof.
  intros R. unfold save. destruct (saveError w x); intros [= <- <-].
  - exists [x], []. simpl. auto.
  - exists [x], [x]. simpl. auto.
Qed.

Lemma Step_save w m x st o st' :
  mediaRel m x → save w x st = (o, st') → Step m st x st'.
Proof. intros R E. split; [done | eapply save_writes; eauto]. Qed.

Lemma Step_logger_r m st m' st' l x :
  Step m st m' st' → Step m st m' (logger l x st').
Proof.
  intros H. eapply Step_trans; [exact H|]. apply Step_store, storeEq_logger.
Qed.

(** ** mediaUpdater *)

Lemma mediaRel_deleteAvailableSeasons v m :
  mediaRel m (Sync.deleteAvailableSeasons v m).
Proof.
  unfold Sync.deleteAvailableSeasons.
  generalize (seasons m). intros refs.
  assert (G : ∀ m0, mediaRel m m0 → mediaRel m
    (foldl (λ m1 r, updSeason r
       (λ season, if status_eqb (seasonStatusOf v season) AVAILABLE
                  then setSeasonStatusOf v DELETED season else season) m1) m0 refs)).
  { induction refs as [|r refs IH]; intros m0 R; simpl; [done|].
    apply IH. eapply mediaRel_trans; [exact R|].
    apply mediaRel_updSeason. intros s.
    destruct (status_eqb _ _); auto using seasonRel_refl, seasonRel_setDeleted. }
  apply G, mediaRel_refl.
Qed.

Lemma mediaRel_variantDeleted v m :
  mediaRel m
    (setRatingKeyOf v None
       (setExternalServiceSlugOf v None
          (setExternalServiceIdOf v None
             (setServiceIdOf v None (setStatusOf v DELETED m))))).
Proof.
  destruct v; repeat split; simpl;
    auto using statusStep_refl, statusStep_deleted, seasonsRel_refl.
Qed.

Lemma mediaUpdater_Step w m v st m' st' :
  Sync.mediaUpdater w m v st = (m', st') → Step m st m' st'.
Proof.
  unfold Sync.mediaUpdater.
  set (m1 := setRatingKeyOf v None _).
  set (m2 := if bool_decide (mediaType m = TV) then _ else _).
  assert (R : mediaRel m m2).
  { subst m2. destruct (bool_decide _).
    - eapply mediaRel_trans; [apply mediaRel_variantDeleted|].
      apply mediaRel_deleteAvailableSeasons.
    - apply mediaRel_variantDeleted. }
  destruct (save w m2 _) as [[u|e] st1] eqn:E; intros [= <- <-].
  - eapply Step_trans; [apply Step_store, (storeEq_logger LInfo)|].
    eapply Step_save; eauto.
  - apply Step_logger_r.
    eapply Step_trans; [apply Step_store, (storeEq_logger LInfo)|].
    eapply Step_save; eauto.
Qed.

Lemma updateSingleVariant_Step w m a a4 p p4 st m' st' :
  Sync.updateSingleVariant w m a a4 p p4 st = (m', st') → Step m st m' st'.
Proof.
  unfold Sync.updateSingleVariant.
  destruct (if negb a && (a4 || p4) && negb p then _ else _) as [m1 st1] eqn:E1.
  intros E2.
  assert (S1 : Step m st m1 st1).
  { destruct (negb a && (a4 || p4) && negb p).
    - destruct (_ && _) in E1.
      + by apply mediaUpdater_Step in E1.
      + injection E1 as <- <-. apply Step_store, storeEq_refl.
    - injection E1 as <- <-. apply Step_store, storeEq_refl. }
  eapply Step_trans; [exact S1|].
  destruct ((a || p) && negb a4 && negb p4).
  - destruct (_ && _) in E2.
    + by apply mediaUpdater_Step in E2.
    + injection E2 as <- <-. apply Step_store, storeEq_refl.
  - injection E2 as <- <-. apply Step_store, storeEq_refl.
Qed.

(** ** The loops over the servers leave the table alone *)

Lemma foldl_store {A} (step : bool * bool * Sys → A → bool * bool * Sys) l :
  (∀ acc x, storeEq acc.2 (step acc x).2) →
  ∀ acc, storeEq acc.2 (foldl step acc l).2.
Proof.
  intros H. induction l as [|x l IH]; intros acc; simpl.
  - apply storeEq_refl.
  - eapply storeEq_trans; [apply H | apply IH].
Qed.

Ltac store_crush :=
  repeat first
    [ progress simplify_eq/=
    | apply storeEq_refl
    | apply storeEq_logger
    | case_match ];
  try (split; reflexivity).

Lemma radarrServerStep_store w m acc server :
  storeEq acc.2 (Sync.radarrServerStep w m acc server).2.
Proof.
  destruct acc as [[a b] st]. unfold Sync.radarrServerStep. store_crush.
Qed.

Lemma fetchSeries_store w server ext st :
  storeEq st (Sync.fetchSeries w server ext st).2.
Proof. unfold Sync.fetchSeries. store_crush. Qed.

Lemma sonarrServerStep_store w m acc server :
  storeEq acc.2 (Sync.sonarrServerStep w m acc server).2.
Proof.
  destruct acc as [[a b] st]. unfold Sync.sonarrServerStep, Sync.fetchSeries.
  store_crush.
Qed.

Lemma sonarrSeasonStep_store w m s acc server :
  storeEq acc.2 (Sync.sonarrSeasonStep w m s acc server).2.
Proof.
  destruct acc as [[a b] st]. unfold Sync.sonarrSeasonStep, Sync.cachedSeasons.
  store_crush.
Qed.

Lemma mediaExistsInRadarr_Step w m p p4 st r m' st' :
  Sync.mediaExistsInRadarr w m p p4 st = (r, m', st') → Step m st m' st'.
Proof.
  unfold Sync.mediaExistsInRadarr.
  pose proof (foldl_store (Sync.radarrServerStep w m) (radarrServers st)
                (radarrServerStep_store w m) (true, true, st)) as H.
  destruct (foldl _ _ _) as [[a b] st1]. simpl in H.
  destruct (Sync.updateSingleVariant _ _ _ _ _ _ _) as [m1 st2] eqn:E.
  intros [= <- <- <-].
  eapply Step_trans; [apply Step_store, H|].
  by apply updateSingleVariant_Step in E.
Qed.

Lemma mediaExistsInSonarr_Step w m p p4 st r m' st' :
  Sync.mediaExistsInSonarr w m p p4 st = (r, m', st') → Step m st m' st'.
Proof.
  unfold Sync.mediaExistsInSonarr.
  pose proof (foldl_store (Sync.sonarrServerStep w m) (sonarrServers st)
                (sonarrServerStep_store w m) (true, true, st)) as H.
  destruct (foldl _ _ _) as [[a b] st1]. simpl in H.
  destruct (Sync.updateSingleVariant _ _ _ _ _ _ _) as [m1 st2] eqn:E.
  intros [= <- <- <-].
  eapply Step_trans; [apply Step_store, H|].
  by apply updateSingleVariant_Step in E.
Qed.

Lemma existsInPlex_store w m st :
  storeEq st (Sync.existsInPlex w m st).2.
Proof. unfold Sync.existsInPlex. store_crush. Qed.

Lemma mediaExists_Step w m st r m' st' :
  Sync.mediaExists w m st = (r, m', st') → Step m st m' st'.
Proof.
  unfold Sync.mediaExists.
  pose proof (existsInPlex_store w m st) as H.
  destruct (Sync.existsInPlex w m st) as [[p p4] st1]. simpl in H.
  destruct (p && p4).
  { intros [= <- <- <-]. by apply Step_store. }
  destruct (mediaType m).
  - destruct (Sync.mediaExistsInRadarr _ _ _ _ _) as [[e m1] st2] eqn:E.
    apply mediaExistsInRadarr_Step in E.
    destruct e; intros [= <- <- <-];
      (eapply Step_trans; [apply Step_store, H|]); [by apply Step_logger_r|done].
  - destruct (Sync.mediaExistsInSonarr _ _ _ _ _) as [[e m1] st2] eqn:E.
    apply mediaExistsInSonarr_Step in E.
    destruct e; intros [= <- <- <-];
      (eapply Step_trans; [apply Step_store, H|]); [by apply Step_logger_r|done].
Qed.

(** ** The seasons *)

Lemma seasonExistsInPlex_store w m s st :
  storeEq st (Sync.seasonExistsInPlex w m s st).2.
Proof.
  unfold Sync.seasonExistsInPlex, Sync.plexSeasonProbe. store_crush.
Qed.

Lemma removeSeasonVariant_Step m r v st m' st' :
  Sync.removeSeasonVariant m r v st = (m', st') → Step m st m' st'.
Proof.
  unfold Sync.removeSeasonVariant.
  destruct (_ && _); [|intros [= <- <-]; apply Step_store, storeEq_refl].
  set (m1 := updSeason r _ m).
  assert (R : mediaRel m m1) by (apply mediaRel_updSeason, seasonRel_setDeleted).
  destruct (status_eqb (statusOf v m1) AVAILABLE) eqn:E; intros [= <- <-].
  - split; [|apply writesOf_store; split; reflexivity].
    eapply mediaRel_trans; [exact R|].
    apply bool_decide_eq_true in E.
    destruct v; simpl in E; repeat split; simpl;
      auto using statusStep_refl, seasonsRel_refl; rewrite E; unfold statusStep; auto 10.
  - split; [done|apply writesOf_store; split; reflexivity].
Qed.

Lemma mediaRel_set_seasons l m : mediaRel m (set_seasons l m).
Proof. repeat split; simpl; auto using statusStep_refl, seasonsRel_refl. Qed.

Lemma seasonExistsInSonarr_Step w m r p p4 st e m' st' :
  Sync.seasonExistsInSonarr w m r p p4 st = (e, m', st') → Step m st m' st'.
Proof.
  unfold Sync.seasonExistsInSonarr.
  pose proof (foldl_store (Sync.sonarrSeasonStep w m (Sync.seasonAt m r))
                (sonarrServers st)
                (sonarrSeasonStep_store w m _) (true, true, st)) as H.
  destruct (foldl _ _ _) as [[a b] st1]. simpl in H.
  destruct (if negb a && (b || p4) && negb p then _ else _) as [m1 st2] eqn:E1.
  destruct (if (a || p) && negb b && negb p4 then _ else _) as [m2 st3] eqn:E2.
  destruct (if negb a || negb b then _ else _) as [m3 st4] eqn:E3.
  intros [= <- <- <-].
  assert (S1 : Step m st1 m1 st2).
  { destruct (negb a && (b || p4) && negb p).
    - by apply removeSeasonVariant_Step in E1.
    - injection E1 as <- <-. apply Step_store, storeEq_refl. }
  assert (S2 : Step m1 st2 m2 st3).
  { destruct ((a || p) && negb b && negb p4).
    - by apply removeSeasonVariant_Step in E2.
    - injection E2 as <- <-. apply Step_store, storeEq_refl. }
  assert (S3 : Step m2 st3 m3 st4).
  { destruct (negb a || negb b).
    - destruct (save w _ st3) as [[u|e] st5] eqn:E; injection E3 as <- <-.
      + eapply Step_save; eauto using mediaRel_set_seasons.
      + apply Step_logger_r. eapply Step_save; eauto using mediaRel_set_seasons.
    - injection E3 as <- <-. apply Step_store, storeEq_refl. }
  eapply Step_trans; [apply Step_store, H|].
  eapply Step_trans; [exact S1|]. eapply Step_trans; eauto.
Qed.

Lemma seasonExists_Step w m r st e m' st' :
  Sync.seasonExists w m r st = (e, m', st') → Step m st m' st'.
Proof.
  unfold Sync.seasonExists.
  pose proof (seasonExistsInPlex_store w m (Sync.seasonAt m r) st) as H.
  destruct (Sync.seasonExistsInPlex _ _ _ _) as [[p p4] st1]. simpl in H.
  destruct (p && p4).
  { intros [= <- <- <-]. by apply Step_store. }
  destruct (Sync.seasonExistsInSonarr _ _ _ _ _ _) as [[x m1] st2] eqn:E.
  apply seasonExistsInSonarr_Step in E.
  destruct x; intros [= <- <- <-];
    (eapply Step_trans; [apply Step_store, H|]); [by apply Step_logger_r|done].
Qed.

Lemma markMissing_Step m st m' st' :
  Sync.markMissing m st = (m', st') → Step m st m' st'.
Proof.
  unfold Sync.markMissing.
  destruct (Sync.notBothTerminal _ _); intros [= <- <-];
    [|apply Step_store, storeEq_refl].
  split; [|apply writesOf_store; split; reflexivity].
  repeat split; simpl; auto using seasonsRel_refl;
    destruct (negb _); auto using statusStep_deleted, statusStep_unknown.
Qed.

Lemma demoteParent_Step m st m' st' :
  Sync.demoteParent m st = (m', st') → Step m st m' st'.
Proof.
  unfold Sync.demoteParent.
  destruct (_ || _); intros [= <- <-]; [|apply Step_store, storeEq_refl].
  split; [|apply writesOf_store; split; reflexivity].
  destruct (status_eqb (status m) AVAILABLE) eqn:E1;
    [apply bool_decide_eq_true in E1|]; simpl;
    (destruct (status_eqb (status4k _) AVAILABLE) eqn:E2;
      [apply bool_decide_eq_true in E2|]); simpl in *;
    repeat split; simpl; auto using statusStep_refl, seasonsRel_refl;
    try rewrite E1; try rewrite E2; unfold statusStep; auto 10.
Qed.

Lemma seasonTurn_Step w e d m st r d' m' st' :
  Sync.seasonTurn w e (d, m, st) r = (d', m', st') → Step m st m' st'.
Proof.
  unfold Sync.seasonTurn.
  destruct (if negb e && _ then _ else _) as [[d1 m1] st1] eqn:E1.
  assert (S1 : Step m st m1 st1).
  { destruct (negb e && _).
    - injection E1 as <- <- <-.
      apply Step_media, mediaRel_updSeason, seasonRel_deleteSeason.
    - destruct (Sync.seasonExists w m r st) as [[x m2] st2] eqn:E.
      apply seasonExists_Step in E.
      destruct x; simpl in E1; injection E1 as <- <- <-; [done|].
      apply Step_logger_r. eapply Step_trans; [exact E|].
      apply Step_media. destruct (Sync.notBothTerminal _ _).
      + apply mediaRel_updSeason, seasonRel_deleteSeason.
      + apply mediaRel_refl. }
  destruct d1.
  - destruct (Sync.demoteParent m1 st1) as [m2 st2] eqn:E.
    intros [= <- <- <-]. apply demoteParent_Step in E.
    eapply Step_trans; eauto.
  - by intros [= <- <- <-].
Qed.

Lemma seasonLoop_Step w e refs :
  ∀ d m st d' m' st',
    foldl (Sync.seasonTurn w e) (d, m, st) refs = (d', m', st') → Step m st m' st'.
Proof.
  induction refs as [|r refs IH]; cbn [foldl]; intros d m st d' m' st'.
  - intros [= <- <- <-]. apply Step_store, storeEq_refl.
  - destruct (Sync.seasonTurn w e (d, m, st) r) as [[d1 m1] st1] eqn:E.
    intros H. apply seasonTurn_Step in E. apply IH in H.
    eapply Step_trans; eauto.
Qed.

Lemma processMedia_Step w m st o m' st' :
  Sync.processMedia w m st = (o, m', st') → Step m st m' st'.
Proof.
  unfold Sync.processMedia.
  destruct (Sync.mediaExists w m st) as [[e m1] st1] eqn:E1.
  apply mediaExists_Step in E1.
  destruct (if negb e then _ else _) as [m2 st2] eqn:E2.
  assert (S2 : Step m1 st1 m2 st2).
  { destruct (negb e).
    - by apply markMissing_Step.
    - injection E2 as <- <-. apply Step_store, storeEq_refl. }
  destruct (match mediaType m2 with TV => _ | MOVIE => _ end)
    as [[d m3] st3] eqn:E3.
  assert (S3 : Step m2 st2 m3 st3).
  { destruct (mediaType m2).
    - injection E3 as <- <- <-. apply Step_store, storeEq_refl.
    - by apply seasonLoop_Step in E3. }
  assert (S : Step m st m3 st3).
  { eapply Step_trans; [exact E1|]. eapply Step_trans; eauto. }
  destruct (negb e || d).
  - destruct (save w m3 st3) as [[u|x] st4] eqn:E4; intros [= <- <- <-];
      (eapply Step_trans; [exact S|]);
      eapply Step_save; eauto using mediaRel_refl.
  - by intros [= <- <- <-].
Qed.

Lemma evolved_step rows m x : evolved rows m → mediaRel m x → evolved rows x.
Proof. intros (row & I & R) R'. exists row; split; [done|]. eapply mediaRel_trans; eauto. Qed.

Lemma Forall_upsert (P : Media → Prop) x rows :
  P x → Forall P rows → Forall P (upsert x rows).
Proof.
  intros Hx H. unfold upsert. destruct (existsb _ rows).
  - induction H; simpl; constructor; auto. by destruct (_ =? _).
  - apply Forall_app; auto.
Qed.

Lemma Forall_upserts (P : Media → Prop) l :
  Forall (λ x, P (loaded x)) l → ∀ rows, Forall P rows →
  Forall P (foldl (λ rows x, upsert (loaded x) rows) rows l).
Proof.
  induction 1 as [|x l Hx Hl IH]; intros rows H; simpl; [done|].
  apply IH. apply Forall_upsert; [|done]. exact Hx.
Qed.

Lemma Forall_find (P : Media → Prop) rows skip n :
  (∀ r, P r → P (loaded r)) → Forall P rows → Forall P (find rows skip n).
Proof.
  intros HP H. unfold find. apply Forall_forall. intros x Hx.
  apply list_elem_of_In, in_map_iff in Hx as (r & <- & Hr).
  apply HP. rewrite Forall_forall in H. apply H.
  apply list_elem_of_In in Hr.
  apply elem_of_take in Hr as (i & Hr & _).
  rewrite lookup_drop in Hr.
  apply list_elem_of_lookup_2 in Hr.
  apply list_elem_of_In, filter_In in Hr as [Hr _].
  by apply list_elem_of_In.
Qed.

Lemma evolved_loaded rows r : evolved rows r → evolved rows (loaded r).
Proof. intros H. eapply evolved_step; [exact H|apply mediaRel_loaded]. Qed.

Lemma tableInv_Step rows st0 m st m' st' :
  evolved rows m → Step m st m' st' → tableInv rows st0 st → tableInv rows st0 st'.
Proof.
  intros Hm [_ (l & l' & S & F & D & F')] [I (k & Sk & Fk)]. split.
  - rewrite D. apply Forall_upserts; [|done].
    eapply Forall_impl; [exact F'|].
    intros x R. apply evolved_loaded. eapply evolved_step; eauto.
  - exists (k ++ l). split; [by rewrite S, Sk, app_assoc|].
    apply Forall_app; split; [done|].
    eapply Forall_impl; [exact F|]. intros x R. eapply evolved_step; eauto.
Qed.

Lemma tableInv_store rows st0 st st' :
  storeEq st st' → tableInv rows st0 st → tableInv rows st0 st'.
Proof. intros [D S] [I (k & Sk & Fk)]. split; [by rewrite D|]. exists k. by rewrite S. Qed.

Lemma consumePage_inv w c rows st0 page :
  ∀ seen st cmp seen' st',
    Sync.consumePage w c seen page st = (cmp, seen', st') →
    Forall (evolved rows) page → tableInv rows st0 st → tableInv rows st0 st'.
Proof.
  induction page as [|m page IH]; intros seen st cmp seen' st'; cbn [Sync.consumePage].
  - by intros [= <- <- <-].
  - intros H Hp I. apply Forall_cons in Hp as [Hm Hp].
    set (st1 := if c (length seen) then Sync.cancel st else st) in H.
    assert (I1 : tableInv rows st0 st1).
    { subst st1. by destruct (c (length seen)). }
    destruct (negb (running st1)).
    { by injection H as <- <- <-. }
    destruct (Sync.processMedia w m _) as [[o m1] st2] eqn:E.
    apply processMedia_Step in E.
    assert (I2 : tableInv rows st0 st2).
    { eapply tableInv_Step; [exact Hm|exact E|exact I1]. }
    destruct o.
    + eapply IH; eauto.
    + by injection H as <- <- <-.
Qed.

Lemma forAwait_inv w c ps rows st0 fuel :
  ∀ offset seen st cmp seen' st',
    Sync.forAwait w c ps fuel offset seen st = (cmp, seen', st') →
    tableInv rows st0 st → tableInv rows st0 st'.
Proof.
  induction fuel as [|fuel IH]; intros offset seen st cmp seen' st'; cbn [Sync.forAwait].
  - by intros [= <- <- <-].
  - intros H I.
    destruct (Sync.consumePage w c seen _ st) as [[c1 seen1] st1] eqn:E.
    apply (consumePage_inv _ _ rows st0) in E; [|
      apply Forall_find; [apply evolved_loaded | apply I] | done].
    destruct c1.
    + destruct (find (db st) offset ps).
      * by injection H as <- <- <-.
      * eapply IH; eauto.
    + by injection H as <- <- <-.
    + by injection H as <- <- <-.
Qed.

(** The three ways [initPlexClient] ends: it throws and leaves the
    instance as it was, it logs that there is no admin, or it sets the
    client. *)
Lemma initPlexClient_cases w st :
  (∃ e, Sync.initPlexClient w st = (Threw e, st))
  ∨ Sync.initPlexClient w st = (Returned tt, logger LWarning MsgNoAdmin st)
  ∨ (∃ a, Sync.initPlexClient w st
          = (Returned tt, set_plexClient (Some (mkPlexAPI (user_plexToken a))) st)).
Proof.
  unfold Sync.initPlexClient.
  destruct (admin w) as [[a|]|e]; [by right; right; exists a| |by left; exists e].
  destruct (loggerWarning w) as [[]|e]; [by right; left|by left; exists e].
Qed.

Lemma runTry_inv w c rows st0 st cmp seen st' :
  Sync.runTry w c st = (cmp, seen, st') → tableInv rows st0 st → tableInv rows st0 st'.
Proof.
  unfold Sync.runTry. intros H I.
  assert (I1 : tableInv rows st0 (Sync.initPlexClient w st).2).
  { by destruct (initPlexClient_cases w st) as [[e ->]|[->|[a ->]]]. }
  destruct (Sync.initPlexClient w st) as [[[]|e] st2]; cbn [snd] in I1;
    [|by injection H as <- <- <-].
  destruct (plexClient st2).
  - destruct (Sync.forAwait _ _ _ _ _ _ _) as [[c1 seen1] st1] eqn:E.
    apply (forAwait_inv _ _ _ rows st0) in E; [|exact I1].
    destruct c1; injection H as <- <- <-; exact E.
  - by injection H as <- <- <-.
Qed.

(** C1.  Whatever the collaborators answer and whenever [cancel()] is
    called, every row of the table after a run, and every record that the
    run saved, is a row of the table before the run (same id) whose
    statuses - of both variants of the record and of both variants of each
    of its seasons - are unchanged, or have become DELETED or UNKNOWN, or,
    for the statuses of the record itself only, have gone from AVAILABLE
    to PARTIALLY_AVAILABLE.  No status is ever set to AVAILABLE, and
    PARTIALLY_AVAILABLE only arises from the demotion of a parent. *)
Theorem no_upgrade w cancelled st :
  Forall (λ row', ∃ row, row ∈ db st ∧ mediaRel row row')
    (db (Sync.run w cancelled st).2)
  ∧ ∃ l, saved (Sync.run w cancelled st).2 = saved st ++ l
         ∧ Forall (λ x, ∃ row, row ∈ db st ∧ mediaRel row x) l.
Proof.
  unfold Sync.run.
  destruct (Sync.runTry _ _ _) as [[c seen] st1] eqn:E.
  apply (runTry_inv _ _ (db st) st) in E.
  - destruct E as [I S]. simpl. split; [exact I|exact S].
  - split; simpl.
    + apply Forall_forall. intros x Hx. exists x. split; [done|apply mediaRel_refl].
    + exists []. by rewrite app_nil_r.
Qed.

Lemma sameStatuses_refl m : sameStatuses m m.
Proof. by repeat split. Qed.

Lemma sameStatuses_trans a b c : sameStatuses a b → sameStatuses b c → sameStatuses a c.
Proof. intros (?&?&?) (?&?&?). repeat split; congruence. Qed.

Lemma seasonAt_updSeason m r f s :
  seasonObjs m !! r = Some s → Sync.seasonAt (updSeason r f m) r = f s.
Proof.
  intros E. unfold Sync.seasonAt, updSeason. rewrite E. simpl.
  rewrite list_lookup_insert_eq; [done|]. by eapply lookup_lt_Some.
Qed.

Lemma seasonAt_lookup m r s : seasonObjs m !! r = Some s → Sync.seasonAt m r = s.
Proof. intros E. unfold Sync.seasonAt. by rewrite E. Qed.

Lemma status_eqb_true a b : status_eqb a b = true ↔ a = b.
Proof. apply bool_decide_eq_true. Qed.

Lemma status_eqb_false a b : status_eqb a b = false ↔ a ≠ b.
Proof. apply bool_decide_eq_false. Qed.

Lemma notBothTerminal_false a b :
  Sync.notBothTerminal a b = false → terminal a ∧ terminal b.
Proof. unfold Sync.notBothTerminal, terminal. destruct a, b; simpl; intros; try discriminate; auto. Qed.

Lemma seasonObjs_setStatusOf u x m : seasonObjs (setStatusOf u x m) = seasonObjs m.
Proof. by destruct u. Qed.

Lemma statusOf_setStatusOf u v x m :
  statusOf v (setStatusOf u x m) = if decide (u = v) then x else statusOf v m.
Proof. by destruct u, v. Qed.

Lemma seasonStatusOf_set u v x s :
  seasonStatusOf v (setSeasonStatusOf u x s)
  = if decide (u = v) then x else seasonStatusOf v s.
Proof. by destruct u, v. Qed.

Lemma statusOf_updSeason v r f m : statusOf v (updSeason r f m) = statusOf v m.
Proof. unfold updSeason. destruct (seasonObjs m !! r); by destruct v. Qed.

Lemma lookup_updSeason m r f s :
  seasonObjs m !! r = Some s → seasonObjs (updSeason r f m) !! r = Some (f s).
Proof.
  intros E. unfold updSeason. rewrite E. simpl.
  rewrite list_lookup_insert_eq; [done|]. by eapply lookup_lt_Some.
Qed.

(** The effect of [removeSeasonVariant] for variant [u], seen from variant [v]. *)
Lemma removeSeasonVariant_effect m r u st m' st' s v :
  Sync.removeSeasonVariant m r u st = (m', st') →
  seasonObjs m !! r = Some s →
  ∃ s', seasonObjs m' !! r = Some s' ∧
    ((statusOf v m' = statusOf v m ∧ seasonStatusOf v s' = seasonStatusOf v s)
     ∨ (u = v ∧ ¬ terminal (seasonStatusOf v s) ∧ seasonStatusOf v s' = DELETED
        ∧ (statusOf v m = AVAILABLE → statusOf v m' = PARTIALLY_AVAILABLE)
        ∧ (statusOf v m ≠ AVAILABLE → statusOf v m' = statusOf v m))).
Proof.
  intros H E. unfold Sync.removeSeasonVariant in H.
  rewrite (seasonAt_lookup _ _ _ E) in H.
  destruct (status_eqb (seasonStatusOf u s) DELETED) eqn:T1; simpl in H.
  { injection H as <- <-. exists s. split; [done|]. by left. }
  destruct (status_eqb (seasonStatusOf u s) UNKNOWN) eqn:T2; simpl in H.
  { injection H as <- <-. exists s. split; [done|]. by left. }
  apply status_eqb_false in T1, T2.
  pose proof (lookup_updSeason m r (setSeasonStatusOf u DELETED) s E) as L.
  rewrite statusOf_updSeason in H.
  exists (setSeasonStatusOf u DELETED s).
  destruct (status_eqb (statusOf u m) AVAILABLE) eqn:A; injection H as <- <-.
  - apply status_eqb_true in A. split.
    { by rewrite seasonObjs_setStatusOf. }
    rewrite statusOf_setStatusOf, statusOf_updSeason, seasonStatusOf_set.
    destruct (decide (u = v)) as [->|N]; [right|by left].
    repeat split; auto; [intros [?|?]|]; congruence.
  - apply status_eqb_false in A. split; [done|].
    rewrite statusOf_updSeason, seasonStatusOf_set.
    destruct (decide (u = v)) as [->|N]; [right|by left].
    repeat split; auto; [intros [?|?]|]; congruence.
Qed.

(** [seasonExists] either leaves the statuses alone or removes one
    variant of the season, and then it answers true. *)
Lemma seasonExistsInSonarr_shape w m r p p4 st x m' st' :
  Sync.seasonExistsInSonarr w m r p p4 st = (x, m', st') →
  sameStatuses m m'
  ∨ (x = true ∧ ∃ u st0 m0 st1,
       Sync.removeSeasonVariant m r u st0 = (m0, st1) ∧ sameStatuses m0 m').
Proof.
  unfold Sync.seasonExistsInSonarr.
  destruct (foldl _ _ _) as [[a b] st1].
  destruct (if negb a && (b || p4) && negb p then _ else _) as [m1 st2] eqn:E1.
  destruct (if (a || p) && negb b && negb p4 then _ else _) as [m2 st3] eqn:E2.
  destruct (if negb a || negb b then _ else _) as [m3 st4] eqn:E3.
  intros [= <- <- <-].
  assert (S3 : sameStatuses m2 m3).
  { destruct (negb a || negb b).
    - destruct (save w _ st3) as [[u|e] st5]; injection E3 as <- <-;
        unfold sameStatuses; simpl; auto.
    - injection E3 as <- <-. apply sameStatuses_refl. }
  destruct (negb a && (b || p4) && negb p) eqn:C1.
  - assert (C2 : (a || p) && negb b && negb p4 = false) by (by destruct a, b, p, p4).
    rewrite C2 in E2. injection E2 as <- <-.
    right. split; [by destruct a, b, p, p4|]. eauto 10.
  - injection E1 as <- <-.
    destruct ((a || p) && negb b && negb p4) eqn:C2.
    + right. split; [by destruct a, b, p, p4|]. eauto 10.
    + injection E2 as <- <-. by left.
Qed.

Lemma seasonExists_shape w m r st x m' st' :
  Sync.seasonExists w m r st = (x, m', st') →
  sameStatuses m m'
  ∨ (x = true ∧ ∃ u st0 m0 st1,
       Sync.removeSeasonVariant m r u st0 = (m0, st1) ∧ sameStatuses m0 m').
Proof.
  unfold Sync.seasonExists.
  destruct (Sync.seasonExistsInPlex _ _ _ _) as [[p p4] st1].
  destruct (p && p4).
  { intros [= <- <- <-]. left. apply sameStatuses_refl. }
  destruct (Sync.seasonExistsInSonarr _ _ _ _ _ _) as [[e m1] st2] eqn:E.
  apply seasonExistsInSonarr_shape in E.
  destruct e; intros [= <- <- <-]; exact E.
Qed.

Lemma guarded_statusOf e d m v :
  guarded e d m → (e = false ∨ d = true) → statusOf v m ≠ AVAILABLE.
Proof. intros G H. destruct (G H). by destruct v. Qed.

Lemma demoteParent_effect m st m' st' :
  Sync.demoteParent m st = (m', st') →
  seasonObjs m' = seasonObjs m
  ∧ ∀ v, (statusOf v m = AVAILABLE → statusOf v m' = PARTIALLY_AVAILABLE)
         ∧ (statusOf v m ≠ AVAILABLE → statusOf v m' = statusOf v m).
Proof.
  unfold Sync.demoteParent.
  destruct (status_eqb (status m) AVAILABLE) eqn:A;
    destruct (status_eqb (status4k m) AVAILABLE) eqn:B; simpl;
    intros [= <- <-]; simpl; rewrite ?B; simpl;
    first [apply status_eqb_true in A | apply status_eqb_false in A];
    first [apply status_eqb_true in B | apply status_eqb_false in B];
    (split; [done|]); intros [|]; simpl; split; congruence.
Qed.

(** What a turn does before it looks at [didDeleteSeasons]. *)
Lemma seasonTurn_first w e d m st r s v d1 m1 st1 :
  (if negb e
      && Sync.notBothTerminal (season_status (Sync.seasonAt m r))
           (season_status4k (Sync.seasonAt m r))
   then (d, updSeason r Sync.deleteSeason m, st)
   else
     let '(seasonExists, media, st) := Sync.seasonExists w m r st in
     if negb seasonExists
     then
       (true,
        if Sync.notBothTerminal (season_status (Sync.seasonAt media r))
             (season_status4k (Sync.seasonAt media r))
        then updSeason r Sync.deleteSeason media
        else media,
        logger LInfo
          (MsgRemovingSeason (seasonNumber (Sync.seasonAt media r)) (tmdbId media)) st)
     else (d, media, st)) = (d1, m1, st1) →
  seasonObjs m !! r = Some s →
  ∃ s1, seasonObjs m1 !! r = Some s1 ∧
    ((e = false ∧ d1 = d ∧ statusOf v m1 = statusOf v m
      ∧ seasonStatusOf v s1 = DELETED)
     ∨ (d1 = d ∧ statusOf v m1 = statusOf v m
        ∧ seasonStatusOf v s1 = seasonStatusOf v s)
     ∨ (d1 = d ∧ ¬ terminal (seasonStatusOf v s) ∧ seasonStatusOf v s1 = DELETED
        ∧ (statusOf v m = AVAILABLE → statusOf v m1 = PARTIALLY_AVAILABLE)
        ∧ (statusOf v m ≠ AVAILABLE → statusOf v m1 = statusOf v m))
     ∨ (d1 = true ∧ statusOf v m1 = statusOf v m
        ∧ (seasonStatusOf v s1 = DELETED
           ∨ (seasonStatusOf v s1 = seasonStatusOf v s
              ∧ terminal (seasonStatusOf v s))))).
Proof.
  intros H E.
  destruct (negb e && _) eqn:C.
  { injection H as <- <- <-. exists (Sync.deleteSeason s).
    split; [by apply lookup_updSeason|]. left.
    apply andb_true_iff in C as [C _]. apply negb_true_iff in C.
    repeat split; auto using statusOf_updSeason. by destruct v. }
  clear C.
  destruct (Sync.seasonExists w m r st) as [[x m2] st2] eqn:X.
  apply seasonExists_shape in X.
  destruct x; simpl in H.
  - injection H as <- <- <-.
    destruct X as [(S1 & S2 & S3)|(_ & u & st0 & m0 & st3 & R & (S1 & S2 & S3))].
    + exists s. rewrite S3. split; [done|]. right; left.
      repeat split. by destruct v; simpl.
    + destruct (removeSeasonVariant_effect _ _ _ _ _ _ _ v R E) as (s' & L & Q).
      exists s'. rewrite S3. split; [done|].
      assert (P : statusOf v m2 = statusOf v m0) by (by destruct v).
      rewrite P.
      destruct Q as [[Q1 Q2]|(_ & Q1 & Q2 & Q3 & Q4)].
      * right; left. auto.
      * right; right; left. auto.
  - destruct X as [(S1 & S2 & S3)|(X & _)]; [|discriminate].
    assert (L : seasonObjs m2 !! r = Some s) by (by rewrite S3).
    assert (P : statusOf v m2 = statusOf v m) by (by destruct v).
    rewrite (seasonAt_lookup _ _ _ L) in H.
    destruct (Sync.notBothTerminal _ _) eqn:G; injection H as <- <- <-.
    + exists (Sync.deleteSeason s). split; [by apply lookup_updSeason|].
      right; right; right. rewrite statusOf_updSeason.
      repeat split; auto. left. by destruct v.
    + exists s. split; [done|]. right; right; right.
      repeat split; auto. right. split; [done|].
      apply notBothTerminal_false in G as [G1 G2]. by destruct v.
Qed.

(** What holds of the demotion of the parent in one turn of the loop over
    the seasons, for the season behind reference [r] and either variant
    [v].  The hypothesis [guarded] is the
    invariant of that loop (see [markMissing_guarded] and
    [seasonLoop_guarded]): once the title was judged missing, or a season
    was judged missing everywhere, no variant of the parent is AVAILABLE.
    - If the turn changes the season's status in variant [v], the new
      status is DELETED or UNKNOWN, and a parent that was AVAILABLE in
      that variant ends the turn PARTIALLY_AVAILABLE in it.
    - A parent that is not AVAILABLE in variant [v] (PARTIALLY_AVAILABLE,
      DELETED, ...) keeps its status in that variant.
    - The parent's status in variant [v] changes only from AVAILABLE to
      PARTIALLY_AVAILABLE, and only if the season ends the turn DELETED
      or UNKNOWN in that same variant, whether it has become so in this
      turn or was so before. *)
Lemma season_demotion w e d m st r s v :
  guarded e d m →
  seasonObjs m !! r = Some s →
  let m' := (Sync.seasonTurn w e (d, m, st) r).1.2 in
  ∃ s', seasonObjs m' !! r = Some s'
    ∧ (seasonStatusOf v s' ≠ seasonStatusOf v s →
         terminal (seasonStatusOf v s')
         ∧ (statusOf v m = AVAILABLE → statusOf v m' = PARTIALLY_AVAILABLE))
    ∧ (statusOf v m ≠ AVAILABLE → statusOf v m' = statusOf v m)
    ∧ (statusOf v m' ≠ statusOf v m →
         statusOf v m = AVAILABLE ∧ statusOf v m' = PARTIALLY_AVAILABLE
         ∧ terminal (seasonStatusOf v s')).
Proof.
  intros G E.
  destruct (Sync.seasonTurn w e (d, m, st) r) as [[d' m'] st'] eqn:H.
  cbn zeta. cbn [fst snd].
  unfold Sync.seasonTurn in H.
  destruct (if negb e && _ then _ else _) as [[d1 m1] st1] eqn:F.
  destruct (seasonTurn_first _ _ _ _ _ _ _ v _ _ _ F E) as (s1 & L & Q).
  assert (D : ∃ m2 st2, (if d1 then Sync.demoteParent m1 st1 else (m1, st1)) = (m2, st2)
                        ∧ m' = m2 ∧ d' = d1).
  { destruct d1.
    - destruct (Sync.demoteParent m1 st1) as [m2 st2]. injection H as <- <- <-. eauto.
    - injection H as <- <- <-. eauto. }
  clear H. destruct D as (m2 & st2 & D & -> & ->).
  assert (K : seasonObjs m2 = seasonObjs m1 ∧
              (d1 = false → statusOf v m2 = statusOf v m1) ∧
              (statusOf v m1 ≠ AVAILABLE → statusOf v m2 = statusOf v m1) ∧
              (d1 = true → statusOf v m1 = AVAILABLE → statusOf v m2 = PARTIALLY_AVAILABLE)).
  { destruct d1.
    - apply demoteParent_effect in D as [D1 D2]. destruct (D2 v) as [D3 D4].
      repeat split; auto; discriminate.
    - injection D as <- <-. repeat split; auto; discriminate. }
  destruct K as (K1 & K2 & K3 & K4).
  exists s1. rewrite K1. split; [done|].
  unfold terminal.
  destruct Q as [(-> & -> & P & S)|[(-> & P & S)|[(-> & T & S & P1 & P2)|(-> & P & S)]]].
  - assert (N : statusOf v m ≠ AVAILABLE) by (apply (guarded_statusOf false d); auto).
    rewrite K3, P by congruence. rewrite S. repeat split; auto; congruence.
  - destruct d.
    + assert (N : statusOf v m ≠ AVAILABLE) by (apply (guarded_statusOf e true); auto).
      rewrite K3, P by congruence. rewrite S. repeat split; auto; congruence.
    + rewrite K2, P by done. rewrite S. repeat split; auto; congruence.
  - destruct d.
    + assert (N : statusOf v m ≠ AVAILABLE) by (apply (guarded_statusOf e true); auto).
      rewrite K3 by (rewrite P2; congruence). rewrite P2 by done. rewrite S.
      repeat split; auto; congruence.
    + rewrite K2 by done. rewrite S.
      destruct (decide (statusOf v m = AVAILABLE)) as [A|A].
      * rewrite (P1 A). repeat split; auto; congruence.
      * rewrite (P2 A). repeat split; auto; congruence.
  - destruct (decide (statusOf v m = AVAILABLE)) as [A|A].
    + rewrite K4 by congruence.
      destruct S as [S|[S T]]; rewrite S; repeat split; auto; congruence.
    + rewrite K3, P by congruence.
      destruct S as [S|[S T]]; rewrite S; repeat split; auto; congruence.
Qed.

(** The guard holds when the loop of [processMedia] starts. *)
Lemma markMissing_guarded m st m' st' d :
  Sync.markMissing m st = (m', st') → guarded false d m'.
Proof.
  unfold Sync.markMissing, guarded. intros H _.
  destruct (Sync.notBothTerminal _ _) eqn:G.
  - injection H as <- <-. simpl. split; by destruct (negb _).
  - injection H as <- <-.
    apply notBothTerminal_false in G as [[G1|G1] [G2|G2]]; rewrite G1, G2; done.
Qed.

Lemma seasonTurn_guarded w e d m st r d' m' st' s :
  Sync.seasonTurn w e (d, m, st) r = (d', m', st') →
  seasonObjs m !! r = Some s →
  guarded e d m → guarded e d' m'.
Proof.
  unfold Sync.seasonTurn. intros H E G C.
  destruct (if negb e && _ then _ else _) as [[d1 m1] st1] eqn:F.
  assert (V : ∀ v, statusOf v m' ≠ AVAILABLE); [|split; [apply (V false)|apply (V true)]].
  intros v.
  destruct (seasonTurn_first _ _ _ _ _ _ _ v _ _ _ F E) as (s1 & L & Q).
  destruct d1.
  - destruct (Sync.demoteParent m1 st1) as [m2 st2] eqn:D. injection H as <- <- <-.
    apply demoteParent_effect in D as [_ D]. destruct (D v) as [D1 D2].
    destruct (decide (statusOf v m1 = AVAILABLE)) as [A|A].
    + rewrite (D1 A). discriminate.
    + by rewrite (D2 A).
  - injection H as <- <- <-.
    destruct C as [->|?]; [|discriminate].
    assert (N : statusOf v m ≠ AVAILABLE) by (apply (guarded_statusOf false d); auto).
    destruct Q as [(_ & _ & P & _)|[(_ & P & _)|[(_ & _ & _ & _ & P)|(? & _)]]];
      [by rewrite P..| |discriminate].
    by rewrite (P N).
Qed.

(** The guard holds at every turn of the loop that [processMedia] runs:
    it holds when the loop starts and each turn keeps it. *)
Lemma seasonLoop_guarded w e refs :
  ∀ d m st d' m' st',
    foldl (Sync.seasonTurn w e) (d, m, st) refs = (d', m', st') →
    Forall (λ r, r < length (seasonObjs m))%nat refs →
    guarded e d m → guarded e d' m'.
Proof.
  induction refs as [|r refs IH]; cbn [foldl]; intros d m st d' m' st' H F G.
  - by injection H as <- <- <-.
  - apply Forall_cons in F as [Fr F].
    destruct (Sync.seasonTurn w e (d, m, st) r) as [[d1 m1] st1] eqn:T.
    apply lookup_lt_is_Some in Fr as [s Es].
    pose proof (seasonTurn_guarded _ _ _ _ _ _ _ _ _ _ T Es G) as G1.
    eapply IH; [exact H| |exact G1].
    apply seasonTurn_Step in T as [(_ & _ & _ & T) _].
    apply Forall2_length in T. by rewrite <- T.
Qed.

(** The cascade of [mediaUpdater] over the seasons touches no column of
    the record. *)
Lemma updSeason_frame r f m :
  status (updSeason r f m) = status m
  ∧ status4k (updSeason r f m) = status4k m
  ∧ serviceId (updSeason r f m) = serviceId m
  ∧ serviceId4k (updSeason r f m) = serviceId4k m
  ∧ externalServiceId (updSeason r f m) = externalServiceId m
  ∧ externalServiceId4k (updSeason r f m) = externalServiceId4k m
  ∧ externalServiceSlug (updSeason r f m) = externalServiceSlug m
  ∧ externalServiceSlug4k (updSeason r f m) = externalServiceSlug4k m
  ∧ ratingKey (updSeason r f m) = ratingKey m
  ∧ ratingKey4k (updSeason r f m) = ratingKey4k m.
Proof. unfold updSeason. by destruct (seasonObjs m !! r). Qed.

Lemma deleteAvailableSeasons_frame v m :
  status (Sync.deleteAvailableSeasons v m) = status m
  ∧ status4k (Sync.deleteAvailableSeasons v m) = status4k m
  ∧ serviceId (Sync.deleteAvailableSeasons v m) = serviceId m
  ∧ serviceId4k (Sync.deleteAvailableSeasons v m) = serviceId4k m
  ∧ externalServiceId (Sync.deleteAvailableSeasons v m) = externalServiceId m
  ∧ externalServiceId4k (Sync.deleteAvailableSeasons v m) = externalServiceId4k m
  ∧ externalServiceSlug (Sync.deleteAvailableSeasons v m) = externalServiceSlug m
  ∧ externalServiceSlug4k (Sync.deleteAvailableSeasons v m) = externalServiceSlug4k m
  ∧ ratingKey (Sync.deleteAvailableSeasons v m) = ratingKey m
  ∧ ratingKey4k (Sync.deleteAvailableSeasons v m) = ratingKey4k m.
Proof.
  unfold Sync.deleteAvailableSeasons. generalize (seasons m). intros refs.
  revert m. induction refs as [|r refs IH]; intros m; cbn [foldl]; [done|].
  destruct (IH (updSeason r
    (λ season, if status_eqb (seasonStatusOf v season) AVAILABLE
               then setSeasonStatusOf v DELETED season else season) m))
    as (-> & -> & -> & -> & -> & -> & -> & -> & -> & ->).
  apply updSeason_frame.
Qed.

Lemma grows_refl w c : grows w c c.
Proof. intros k. by left. Qed.

Lemma grows_trans w a b c : grows w a b → grows w b c → grows w a c.
Proof.
  intros H1 H2 k. destruct (H1 k) as [E1|(N1 & T1 & x & F1 & E1)];
    destruct (H2 k) as [E2|(N2 & T2 & y & F2 & E2)].
  - left. congruence.
  - right. rewrite <- E1. eauto 10.
  - right. rewrite E2. eauto 10.
  - congruence.
Qed.

Lemma seasonIsUnavailable_spec season l :
  existsb (Sync.isUnavailableEntry season) l = true ↔ zeroEntry (seasonNumber season) l.
Proof.
  rewrite existsb_exists. unfold zeroEntry, Sync.isUnavailableEntry.
  split; intros (x & I & H); exists x.
  - apply andb_true_iff in H as [H1 H2]. apply Z.eqb_eq in H1.
    apply bool_decide_eq_true in H2. by rewrite list_elem_of_In.
  - destruct H as [H1 H2]. rewrite <- list_elem_of_In. split; [done|].
    apply andb_true_iff. split; [by apply Z.eqb_eq|by apply bool_decide_eq_true].
Qed.

(** The statistics that one turn of the loop obtains for its server. *)
Lemma cachedSeasons_spec w server ext st o st' :
  truthyZ ext = true →
  Sync.cachedSeasons w server ext st = (o, st') →
  grows w (sonarrSeasonsCache st) (sonarrSeasonsCache st')
  ∧ plexSeasonsCache st' = plexSeasonsCache st
  ∧ sonarrServers st' = sonarrServers st
  ∧ ((∃ l, o = Returned (Some l)
           ∧ sonarrSeasonsCache st' !! Sync.sonarrKey server ext = Some l)
     ∨ (∃ e, o = Threw e
             ∧ sonarrSeasonsCache st' !! Sync.sonarrKey server ext = None
             ∧ getSeriesById w (server_id server) (default 0 ext) = Threw e)).
Proof.
  intros T. unfold Sync.cachedSeasons.
  destruct (sonarrSeasonsCache st !! Sync.sonarrKey server ext) as [l|] eqn:C.
  - intros [= <- <-]. simpl. rewrite insert_id by done.
    repeat split; [apply grows_refl|]. left. eauto.
  - destruct (getSeriesById w _ _) as [series|e] eqn:F; intros [= <- <-]; simpl.
    + repeat split.
      * intros k. destruct (decide (k = Sync.sonarrKey server ext)) as [->|N].
        -- right. rewrite lookup_insert_eq. simpl. eauto 10.
        -- left. by rewrite lookup_insert_ne.
      * left. exists (series_seasons series). by rewrite lookup_insert_eq.
    + repeat split; [apply grows_refl|]. right. eauto.
Qed.

Lemma noLoss_grows w c c' server ext n :
  settled w c server ext → grows w c c' →
  noLoss c server ext n ↔ noLoss c' server ext n.
Proof.
  intros S G. unfold noLoss.
  destruct (G (Sync.sonarrKey server ext)) as [E|(N & T & series & F & E)].
  - by rewrite E.
  - simpl in *. destruct (S T) as [[l L]|[e L]]; congruence.
Qed.

Lemma sonarrSeasonStep_spec w media season s s4 st server s' s4' st' :
  Sync.sonarrSeasonStep w media season (s, s4, st) server = (s', s4', st') →
  grows w (sonarrSeasonsCache st) (sonarrSeasonsCache st')
  ∧ plexSeasonsCache st' = plexSeasonsCache st
  ∧ sonarrServers st' = sonarrServers st
  ∧ settled w (sonarrSeasonsCache st') server (variantExt media server)
  ∧ ∃ ok : bool,
      (if is4k server then s' = s ∧ s4' = s4 && ok else s' = s && ok ∧ s4' = s4)
      ∧ (ok = true ↔
         noLoss (sonarrSeasonsCache st') server (variantExt media server)
           (seasonNumber season)).
Proof.
  unfold Sync.sonarrSeasonStep, variantExt.
  destruct (is4k server) eqn:V; simpl.
  - destruct (truthyZ (externalServiceId4k media)) eqn:T.
    + destruct (Sync.cachedSeasons _ _ _ _) as [o st1] eqn:C.
      apply (cachedSeasons_spec _ _ _ _ _ _ T) in C as (G & P & S & [(l & -> & L)|(e & -> & L & F)]); simpl.
      * intros [= <- <- <-]. repeat split; auto.
        { intros _. left. by rewrite L. }
        exists (negb (existsb (Sync.isUnavailableEntry season) l)). split.
        { by destruct (existsb _ _), s4. }
        unfold noLoss. rewrite T, negb_true_iff, <- not_true_iff_false,
          seasonIsUnavailable_spec.
        split; [eauto|]. intros (l' & L' & Z). congruence.
      * intros [= <- <- <-]. simpl. repeat split; auto.
        { intros _. right. eauto. }
        exists false. split; [by rewrite andb_false_r|].
        unfold noLoss. rewrite T. split; [done|]. intros (l' & L' & _). congruence.
    + intros [= <- <- <-]. repeat split; auto using grows_refl.
      { intros ?. congruence. }
      exists (negb (Sync.seasonIsUnavailable season
                      (sonarrSeasonsCache st
                         !! Sync.sonarrKey server (externalServiceId4k media)))).
      split. { by destruct (Sync.seasonIsUnavailable _ _), s4. }
      unfold noLoss. rewrite T, negb_true_iff, <- not_true_iff_false.
      destruct (sonarrSeasonsCache st !! _) as [l|]; simpl.
      * rewrite seasonIsUnavailable_spec. split; [by intros ? ? [= <-]|eauto].
      * split; [done|discriminate].
  - destruct (truthyZ (externalServiceId media)) eqn:T.
    + destruct (Sync.cachedSeasons _ _ _ _) as [o st1] eqn:C.
      apply (cachedSeasons_spec _ _ _ _ _ _ T) in C as (G & P & S & [(l & -> & L)|(e & -> & L & F)]); simpl.
      * intros [= <- <- <-]. repeat split; auto.
        { intros _. left. by rewrite L. }
        exists (negb (existsb (Sync.isUnavailableEntry season) l)). split.
        { by destruct (existsb _ _), s. }
        unfold noLoss. rewrite T, negb_true_iff, <- not_true_iff_false,
          seasonIsUnavailable_spec.
        split; [eauto|]. intros (l' & L' & Z). congruence.
      * intros [= <- <- <-]. simpl. repeat split; auto.
        { intros _. right. eauto. }
        exists false. split; [by rewrite andb_false_r|].
        unfold noLoss. rewrite T. split; [done|]. intros (l' & L' & _). congruence.
    + intros [= <- <- <-]. repeat split; auto using grows_refl.
      { intros ?. congruence. }
      exists (negb (Sync.seasonIsUnavailable season
                      (sonarrSeasonsCache st
                         !! Sync.sonarrKey server (externalServiceId media)))).
      split. { by destruct (Sync.seasonIsUnavailable _ _), s. }
      unfold noLoss. rewrite T, negb_true_iff, <- not_true_iff_false.
      destruct (sonarrSeasonsCache st !! _) as [l|]; simpl.
      * rewrite seasonIsUnavailable_spec. split; [by intros ? ? [= <-]|eauto].
      * split; [done|discriminate].
Qed.

Lemma sonarrSeasonLoop_spec w media season servers :
  ∀ s s4 st s' s4' st',
    foldl (Sync.sonarrSeasonStep w media season) (s, s4, st) servers = (s', s4', st') →
    grows w (sonarrSeasonsCache st) (sonarrSeasonsCache st')
    ∧ plexSeasonsCache st' = plexSeasonsCache st
    ∧ sonarrServers st' = sonarrServers st
    ∧ (s' = true ↔
       s = true ∧ ∀ server, server ∈ servers → is4k server = false →
         noLoss (sonarrSeasonsCache st') server (externalServiceId media)
           (seasonNumber season))
    ∧ (s4' = true ↔
       s4 = true ∧ ∀ server, server ∈ servers → is4k server = true →
         noLoss (sonarrSeasonsCache st') server (externalServiceId4k media)
           (seasonNumber season)).
Proof.
  induction servers as [|server servers IH]; cbn [foldl]; intros s s4 st s' s4' st' H.
  - injection H as <- <- <-. repeat split; auto using grows_refl; try tauto.
    + intros ? I. by apply elem_of_nil in I.
    + intros ? I. by apply elem_of_nil in I.
  - destruct (Sync.sonarrSeasonStep w media season (s, s4, st) server)
      as [[s1 s41] st1] eqn:E.
    apply sonarrSeasonStep_spec in E as (G1 & P1 & S1 & T1 & ok & F & O).
    apply IH in H as (G2 & P2 & S2 & A & B).
    pose proof (noLoss_grows _ _ _ _ _ (seasonNumber season) T1 G2) as N.
    rewrite N in O. clear N.
    split; [eapply grows_trans; eauto|].
    split; [congruence|]. split; [congruence|].
    rewrite A, B. clear A B.
    unfold variantExt in O.
    setoid_rewrite elem_of_cons.
    destruct (is4k server) eqn:V; destruct F as [-> ->].
    + split.
      * split; intros [X Y]; (split; [done|]).
        -- intros x [->|I] Vx; [congruence|by apply Y].
        -- intros x I. apply Y. by right.
      * rewrite andb_true_iff, O.
        split.
        -- intros [[X Z] Y]. split; [done|]. intros x [->|I] Vx; [done|by apply Y].
        -- intros [X Y]. split; [split; [done|]|].
           ++ apply Y; auto.
           ++ intros x I. apply Y. by right.
    + split.
      * rewrite andb_true_iff, O.
        split.
        -- intros [[X Z] Y]. split; [done|]. intros x [->|I] Vx; [done|by apply Y].
        -- intros [X Y]. split; [split; [done|]|].
           ++ apply Y; auto.
           ++ intros x I. apply Y. by right.
      * split; intros [X Y]; (split; [done|]).
        -- intros x [->|I] Vx; [congruence|by apply Y].
        -- intros x I. apply Y. by right.
Qed.

(** *** The Plex side *)

Lemma existsb_index children n :
  existsb (λ child, index child =? n) children = true
  ↔ ∃ child, child ∈ children ∧ index child = n.
Proof.
  rewrite existsb_exists. split; intros (x & I & H); exists x.
  - apply Z.eqb_eq in H. by rewrite list_elem_of_In.
  - rewrite <- list_elem_of_In. split; [done|by apply Z.eqb_eq].
Qed.

Lemma plexSeasonProbe_spec w key season st o st' :
  Sync.plexSeasonProbe w key season st = (o, st') →
  sonarrSeasonsCache st' = sonarrSeasonsCache st
  ∧ sonarrServers st' = sonarrServers st
  ∧ ((∃ e, o = Threw e ∧ st' = st ∧ plexSeasonsCache st !! key = None)
     ∨ (∃ children,
          o = Returned (existsb (λ child, index child =? seasonNumber season) children)
          ∧ plexSeasonsCache st' = <[key := children]> (plexSeasonsCache st)
          ∧ (plexSeasonsCache st !! key = None
             ∨ plexSeasonsCache st !! key = Some children))).
Proof.
  unfold Sync.plexSeasonProbe.
  destruct (plexSeasonsCache st !! key) as [children|] eqn:C.
  { intros [= <- <-]. simpl. repeat split. right. eauto. }
  destruct (plexClient st) as [api|].
  - destruct (getChildrenMetadata w api key) as [[children|]|e];
      intros [= <- <-]; simpl; repeat split.
    + right. exists children. auto.
    + right. exists []. auto.
    + left. eauto.
  - intros [= <- <-]. simpl. repeat split. right. exists []. auto.
Qed.

Lemma truthyS_default key : truthyS key = true → key = Some (default EmptyString key).
Proof. by destruct key. Qed.

Lemma truthyS_false_default key :
  truthyS key = false → default EmptyString key = EmptyString.
Proof.
  destruct key as [x|]; simpl; [|done].
  rewrite negb_false_iff. apply String.eqb_eq.
Qed.

Lemma truthyS_true_default key :
  truthyS key = true → default EmptyString key ≠ EmptyString.
Proof.
  destruct key as [x|]; simpl; [|discriminate].
  rewrite negb_true_iff. apply String.eqb_neq.
Qed.

Lemma seasonExistsInPlex_spec w media season st p p4 st' :
  Sync.seasonExistsInPlex w media season st = (p, p4, st') →
  sonarrSeasonsCache st' = sonarrSeasonsCache st
  ∧ sonarrServers st' = sonarrServers st
  ∧ (p = true ↔
     plexLists (plexSeasonsCache st') (ratingKey media) (seasonNumber season))
  ∧ (p4 = true ↔
     plexLists (plexSeasonsCache st') (ratingKey4k media) (seasonNumber season)
     ∧ (truthyS (ratingKey media) = true →
        is_Some (plexSeasonsCache st' !! default EmptyString (ratingKey media)))).
Proof.
  unfold Sync.seasonExistsInPlex, plexLists.
  set (n := seasonNumber season).
  set (k := default EmptyString (ratingKey media)).
  set (k4 := default EmptyString (ratingKey4k media)).
  (* the first probe *)
  assert (F : ∀ o st1,
    (if truthyS (ratingKey media)
     then Sync.plexSeasonProbe w k season st else (Returned false, st)) = (o, st1) →
    sonarrSeasonsCache st1 = sonarrSeasonsCache st
    ∧ sonarrServers st1 = sonarrServers st
    ∧ ((∃ e, o = Threw e ∧ st1 = st ∧ truthyS (ratingKey media) = true
             ∧ plexSeasonsCache st !! k = None)
       ∨ (∃ b, o = Returned b
            ∧ (truthyS (ratingKey media) = true → is_Some (plexSeasonsCache st1 !! k))
            ∧ (b = true ↔
               truthyS (ratingKey media) = true
               ∧ ∃ children child, plexSeasonsCache st1 !! k = Some children
                   ∧ child ∈ children ∧ index child = n)))).
  { intros o st1. destruct (truthyS (ratingKey media)) eqn:T.
    - intros H. apply plexSeasonProbe_spec in H
        as (S1 & S2 & [(e & -> & -> & N)|(children & -> & C & _)]).
      + repeat split. left. eauto 10.
      + repeat split; auto. right. eexists. split; [done|].
        rewrite C, lookup_insert_eq. split; [eauto|].
        rewrite existsb_index. split; [intros (child & ? & ?); eauto 10|].
        intros (_ & c' & child & [= <-] & ?). eauto.
    - intros [= <- <-]. split; [done|]. split; [done|]. right. exists false.
      split; [done|]. split; [discriminate|]. split; [discriminate|].
      intros [? _]. discriminate. }
  destruct (if truthyS (ratingKey media) then _ else _) as [o st1] eqn:E1.
  destruct (F o st1 eq_refl) as (S1 & S2 & [(e & -> & -> & T & N)|(b & -> & I & B)]);
    clear F E1.
  - (* the first probe threw: the second is skipped *)
    intros [= <- <- <-].
    assert (X : plexSeasonsCache
                  (if negb (includes "response code: 404" e)
                   then logger LDebug (MsgPlexChildrenFailed e) st else st)
                = plexSeasonsCache st) by (by destruct (negb _)).
    assert (Y : sonarrSeasonsCache
                  (if negb (includes "response code: 404" e)
                   then logger LDebug (MsgPlexChildrenFailed e) st else st)
                = sonarrSeasonsCache st) by (by destruct (negb _)).
    assert (Z : sonarrServers
                  (if negb (includes "response code: 404" e)
                   then logger LDebug (MsgPlexChildrenFailed e) st else st)
                = sonarrServers st) by (by destruct (negb _)).
    rewrite X, Y, Z. repeat split; try discriminate.
    + intros (_ & c & child & L & _). fold k in L. congruence.
    + intros [_ J]. destruct (J T) as [c L]. congruence.
  - destruct (if truthyS (ratingKey4k media) then _ else _) as [o2 st2] eqn:E2.
    destruct (truthyS (ratingKey4k media)) eqn:T4.
    + apply plexSeasonProbe_spec in E2
        as (S3 & S4 & [(e & -> & -> & N)|(children & -> & C & Old)]).
      * intros [= <- <- <-].
        assert (X : plexSeasonsCache
                  (if negb (includes "response code: 404" e)
                   then logger LDebug (MsgPlexChildrenFailed e) st1 else st1)
                = plexSeasonsCache st1) by (by destruct (negb _)).
        assert (Y : sonarrSeasonsCache
                  (if negb (includes "response code: 404" e)
                   then logger LDebug (MsgPlexChildrenFailed e) st1 else st1)
                = sonarrSeasonsCache st1) by (by destruct (negb _)).
        assert (Z : sonarrServers
                  (if negb (includes "response code: 404" e)
                   then logger LDebug (MsgPlexChildrenFailed e) st1 else st1)
                = sonarrServers st1) by (by destruct (negb _)).
        rewrite X, Y, Z. repeat split; try congruence; try tauto.
        -- intros [(_ & c & child & L & _) _]. fold k4 in L. congruence.
      * intros [= <- <- <-].
        assert (K : plexSeasonsCache st2 !! k = plexSeasonsCache st1 !! k).
        { rewrite C. destruct (decide (k4 = k)) as [Q|Q].
          - rewrite Q in *. rewrite lookup_insert_eq.
            destruct Old as [Old|Old]; [|congruence].
            destruct (truthyS (ratingKey media)) eqn:T.
            + destruct (I eq_refl). congruence.
            + exfalso. apply truthyS_false_default in T.
              apply truthyS_true_default in T4. subst k k4. congruence.
          - by rewrite lookup_insert_ne. }
        rewrite K. split; [congruence|]. split; [congruence|]. split; [exact B|].
        rewrite existsb_index, C, lookup_insert_eq. fold n.
        split.
        -- intros (child & ? & ?). split; [|exact I]. split; [done|]. eauto.
        -- intros [(_ & c & child & [= <-] & ? & ?) _]. eauto.
    + injection E2 as <- <-. intros [= <- <- <-].
      repeat split; try congruence; try tauto.
Qed.

(** *** The facts and what seasonExists does with them *)

(** [seasonExists] answers true iff one of the variants is judged
    existent. *)
Lemma seasonExists_answer w media r st :
  (Sync.seasonExists w media r st).1.1
  = judgedExistent false (seasonFacts w media r st).1
    || judgedExistent true (seasonFacts w media r st).1.
Proof.
  unfold Sync.seasonExists, seasonFacts, Sync.seasonExistsInSonarr.
  destruct (Sync.seasonExistsInPlex _ _ _ _) as [[p p4] st1].
  destruct (foldl _ _ _) as [[s s4] st2]. simpl.
  destruct (p && p4) eqn:B.
  { apply andb_true_iff in B as [-> ->]. simpl. by rewrite !orb_true_r. }
  destruct (if negb s && (s4 || p4) && negb p then _ else _) as [m1 st3].
  destruct (if (s || p) && negb s4 && negb p4 then _ else _) as [m2 st4].
  destruct (if negb s || negb s4 then _ else _) as [m3 st5].
  destruct s, s4, p, p4; simpl in *; try discriminate; reflexivity.
Qed.

(** C5, as amended.  The standard variant of a season is judged existent
    iff the cached child listing of the record's rating key holds a child
    whose index is the season number, or no sync-enabled standard Sonarr
    instance reports a loss: each one delivered its season statistics
    (when the record has an external id) and these hold no entry of that
    season with an episode-file-count of zero.  A season that the
    statistics do not mention, or without statistics, counts as existent,
    and so does every season when no instance is configured.  The same
    holds for the 4K variant, whose Plex listing is consulted only if the
    listing of the standard rating key could be obtained (both listings
    are read in one [try] block). *)
Theorem season_variant_existence w media r st :
  let n := seasonNumber (Sync.seasonAt media r) in
  let facts := (seasonFacts w media r st).1 in
  let st' := (seasonFacts w media r st).2 in
  (judgedExistent false facts = true ↔
     plexLists (plexSeasonsCache st') (ratingKey media) n
     ∨ ∀ server, server ∈ sonarrServers st → is4k server = false →
         noLoss (sonarrSeasonsCache st') server (externalServiceId media) n)
  ∧ (judgedExistent true facts = true ↔
     (plexLists (plexSeasonsCache st') (ratingKey4k media) n
      ∧ (truthyS (ratingKey media) = true →
         is_Some (plexSeasonsCache st' !! default EmptyString (ratingKey media))))
     ∨ ∀ server, server ∈ sonarrServers st → is4k server = true →
         noLoss (sonarrSeasonsCache st') server (externalServiceId4k media) n).
Proof.
  unfold seasonFacts.
  destruct (Sync.seasonExistsInPlex _ _ _ _) as [[p p4] st1] eqn:E1.
  destruct (foldl _ _ _) as [[s s4] st2] eqn:E2. simpl.
  apply seasonExistsInPlex_spec in E1 as (C1 & S1 & P & P4).
  apply sonarrSeasonLoop_spec in E2 as (G & C2 & S2 & A & B).
  rewrite C2, <- S1. rewrite orb_true_iff, orb_true_iff, A, B, P, P4.
  split; split; intros [H|H]; auto; try (right; apply H); try (left; tauto).
Qed.

Lemma savedOrSame_store m st st' : storeEq st st' → savedOrSame m st m st'.
Proof. intros [D S]. exists []. rewrite app_nil_r. auto. Qed.

Lemma savedOrSame_refl m st : savedOrSame m st m st.
Proof. apply savedOrSame_store, storeEq_refl. Qed.

Lemma savedOrSame_trans m st m1 st1 m2 st2 :
  savedOrSame m st m1 st1 → savedOrSame m1 st1 m2 st2 → savedOrSame m st m2 st2.
Proof.
  intros (l & S & H) (k & S2 & H2). exists (l ++ k). split.
  - by rewrite S2, S, app_assoc.
  - intros [-> ->]%app_eq_nil. destruct (H eq_refl) as [-> D], (H2 eq_refl) as [-> D2].
    split; congruence.
Qed.

Lemma savedOrSame_save w m x st o m' st' :
  save w x st = (o, st') → savedOrSame m st m' st'.
Proof.
  unfold save. destruct (saveError w x); intros [= <- <-]; exists [x]; by split.
Qed.

Lemma save_saved w x st o st' :
  save w x st = (o, st') → saved st' = saved st ++ [x].
Proof. unfold save. by destruct (saveError w x); intros [= <- <-]. Qed.

Lemma savedOrSame_logger_r m st m' st' l x :
  savedOrSame m st m' st' → savedOrSame m st m' (logger l x st').
Proof. intros H. eapply savedOrSame_trans; [exact H|]. by apply savedOrSame_store. Qed.

Lemma mediaUpdater_savedOrSame w m v st m' st' :
  Sync.mediaUpdater w m v st = (m', st') → savedOrSame m st m' st'.
Proof.
  unfold Sync.mediaUpdater.
  destruct (save w _ _) as [[u|e] st1] eqn:E; intros [= <- <-].
  - eapply savedOrSame_trans; [apply savedOrSame_store, (storeEq_logger LInfo)|].
    eapply savedOrSame_save; eauto.
  - apply savedOrSame_logger_r.
    eapply savedOrSame_trans; [apply savedOrSame_store, (storeEq_logger LInfo)|].
    eapply savedOrSame_save; eauto.
Qed.

Lemma updateSingleVariant_savedOrSame w m a a4 p p4 st m' st' :
  Sync.updateSingleVariant w m a a4 p p4 st = (m', st') → savedOrSame m st m' st'.
Proof.
  unfold Sync.updateSingleVariant.
  destruct (if negb a && (a4 || p4) && negb p then _ else _) as [m1 st1] eqn:E1.
  intros E2.
  assert (S1 : savedOrSame m st m1 st1).
  { destruct (negb a && (a4 || p4) && negb p).
    - destruct (_ && _) in E1.
      + by apply mediaUpdater_savedOrSame in E1.
      + injection E1 as <- <-. apply savedOrSame_refl.
    - injection E1 as <- <-. apply savedOrSame_refl. }
  eapply savedOrSame_trans; [exact S1|].
  destruct ((a || p) && negb a4 && negb p4).
  - destruct (_ && _) in E2.
    + by apply mediaUpdater_savedOrSame in E2.
    + injection E2 as <- <-. apply savedOrSame_refl.
  - injection E2 as <- <-. apply savedOrSame_refl.
Qed.

Lemma mediaExists_savedOrSame w m st r m' st' :
  Sync.mediaExists w m st = (r, m', st') → savedOrSame m st m' st'.
Proof.
  unfold Sync.mediaExists, Sync.mediaExistsInRadarr, Sync.mediaExistsInSonarr.
  pose proof (existsInPlex_store w m st) as H.
  destruct (Sync.existsInPlex w m st) as [[p p4] st1]. simpl in H.
  destruct (p && p4).
  { intros [= <- <- <-]. by apply savedOrSame_store. }
  destruct (mediaType m).
  - pose proof (foldl_store (Sync.radarrServerStep w m) (radarrServers st1)
                  (radarrServerStep_store w m) (true, true, st1)) as F.
    destruct (foldl _ _ _) as [[a b] st2]. simpl in F.
    destruct (Sync.updateSingleVariant _ _ _ _ _ _ _) as [m1 st3] eqn:E.
    apply updateSingleVariant_savedOrSame in E.
    assert (S : savedOrSame m st m1 st3).
    { eapply savedOrSame_trans; [apply savedOrSame_store, H|].
      eapply savedOrSame_trans; [apply savedOrSame_store, F|done]. }
    destruct (_ || _); intros [= <- <- <-]; [by apply savedOrSame_logger_r|done].
  - pose proof (foldl_store (Sync.sonarrServerStep w m) (sonarrServers st1)
                  (sonarrServerStep_store w m) (true, true, st1)) as F.
    destruct (foldl _ _ _) as [[a b] st2]. simpl in F.
    destruct (Sync.updateSingleVariant _ _ _ _ _ _ _) as [m1 st3] eqn:E.
    apply updateSingleVariant_savedOrSame in E.
    assert (S : savedOrSame m st m1 st3).
    { eapply savedOrSame_trans; [apply savedOrSame_store, H|].
      eapply savedOrSame_trans; [apply savedOrSame_store, F|done]. }
    destruct (_ || _); intros [= <- <- <-]; [by apply savedOrSame_logger_r|done].
Qed.

Lemma seasonExistsInSonarr_savedOrSame w m r p p4 st x m' st' :
  Sync.seasonExistsInSonarr w m r p p4 st = (x, m', st') → savedOrSame m st m' st'.
Proof.
  unfold Sync.seasonExistsInSonarr.
  pose proof (foldl_store (Sync.sonarrSeasonStep w m (Sync.seasonAt m r))
                (sonarrServers st)
                (sonarrSeasonStep_store w m _) (true, true, st)) as H.
  destruct (foldl _ _ _) as [[a b] st1]. simpl in H.
  destruct (negb a || negb b) eqn:C.
  - (* a save is issued *)
    destruct (if negb a && (b || p4) && negb p then _ else _) as [m1 st2] eqn:E1.
    destruct (if (a || p) && negb b && negb p4 then _ else _) as [m2 st3] eqn:E2.
    apply (f_equal snd) in E1, E2.
    assert (S1 : storeEq st1 st2).
    { destruct (negb a && (b || p4) && negb p); simpl in E1; subst st2;
        [|apply storeEq_refl].
      unfold Sync.removeSeasonVariant. store_crush. }
    assert (S2 : storeEq st2 st3).
    { destruct ((a || p) && negb b && negb p4); simpl in E2; subst st3;
        [|apply storeEq_refl].
      unfold Sync.removeSeasonVariant. store_crush. }
    destruct S1 as [_ S1], S2 as [_ S2], H as [_ H].
    destruct (save w _ st3) as [[u|e] st4] eqn:E; intros [= <- <- <-];
      apply save_saved in E; eexists [_]; simpl;
      (split; [by rewrite E, S2, S1, H|done]).
  - apply orb_false_iff in C as [Ca Cb].
    apply negb_false_iff in Ca, Cb. subst a b. simpl.
    intros [= <- <- <-]. by apply savedOrSame_store.
Qed.

Lemma seasonExists_savedOrSame w m r st x m' st' :
  Sync.seasonExists w m r st = (x, m', st') → savedOrSame m st m' st'.
Proof.
  unfold Sync.seasonExists.
  pose proof (seasonExistsInPlex_store w m (Sync.seasonAt m r) st) as H.
  destruct (Sync.seasonExistsInPlex _ _ _ _) as [[p p4] st1]. simpl in H.
  destruct (p && p4).
  { intros [= <- <- <-]. by apply savedOrSame_store. }
  destruct (Sync.seasonExistsInSonarr _ _ _ _ _ _) as [[e m1] st2] eqn:E.
  apply seasonExistsInSonarr_savedOrSame in E.
  destruct e; intros [= <- <- <-];
    (eapply savedOrSame_trans; [apply savedOrSame_store, H|]);
    [by apply savedOrSame_logger_r|done].
Qed.

Lemma seasonTurn_sticky w e m st r :
  (Sync.seasonTurn w e (true, m, st) r).1.1 = true.
Proof.
  unfold Sync.seasonTurn.
  destruct (negb e && _).
  - by destruct (Sync.demoteParent _ _).
  - destruct (Sync.seasonExists w m r st) as [[x m1] st1].
    destruct (negb x); by destruct (Sync.demoteParent _ _).
Qed.

Lemma seasonLoop_sticky w e refs :
  ∀ m st, (foldl (Sync.seasonTurn w e) (true, m, st) refs).1.1 = true.
Proof.
  induction refs as [|r refs IH]; cbn [foldl]; intros m st; [done|].
  pose proof (seasonTurn_sticky w e m st r) as H.
  destruct (Sync.seasonTurn w e (true, m, st) r) as [[d m1] st1].
  simpl in H. subst d. apply IH.
Qed.

Lemma seasonTurn_savedOrSame w m st r m' st' :
  Sync.seasonTurn w true (false, m, st) r = (false, m', st') →
  savedOrSame m st m' st'.
Proof.
  unfold Sync.seasonTurn. simpl.
  destruct (Sync.seasonExists w m r st) as [[x m1] st1] eqn:E.
  apply seasonExists_savedOrSame in E.
  destruct x; simpl.
  - by intros [= <- <-].
  - destruct (Sync.demoteParent _ _). discriminate.
Qed.

Lemma seasonLoop_savedOrSame w refs :
  ∀ m st m' st',
    foldl (Sync.seasonTurn w true) (false, m, st) refs = (false, m', st') →
    savedOrSame m st m' st'.
Proof.
  induction refs as [|r refs IH]; cbn [foldl]; intros m st m' st' H.
  - injection H as <- <-. apply savedOrSame_refl.
  - destruct (Sync.seasonTurn w true (false, m, st) r) as [[d m1] st1] eqn:T.
    destruct d.
    + pose proof (seasonLoop_sticky w true refs m1 st1) as K.
      rewrite H in K. discriminate.
    + apply seasonTurn_savedOrSame in T. apply IH in H.
      eapply savedOrSame_trans; eauto.
Qed.

Lemma Step_saved_length m st m' st' :
  Step m st m' st' → (length (saved st) ≤ length (saved st'))%nat.
Proof. intros [_ (l & _ & S & _)]. rewrite S, length_app. lia. Qed.

Lemma savedOrSame_same m st m' st' :
  savedOrSame m st m' st' → saved st' = saved st → m' = m ∧ db st' = db st.
Proof.
  intros (l & S & H) X. apply H. rewrite X in S.
  rewrite <- (app_nil_r (saved st)) in S at 1.
  by apply app_inv_head in S.
Qed.

Lemma processMedia_savedOrSame w m st o m' st' :
  Sync.processMedia w m st = (o, m', st') →
  saved st' = saved st →
  m' = m ∧ db st' = db st ∧ o = Returned tt.
Proof.
  unfold Sync.processMedia.
  destruct (Sync.mediaExists w m st) as [[e m1] st1] eqn:E1.
  pose proof (Step_saved_length _ _ _ _ (mediaExists_Step _ _ _ _ _ _ E1)) as L1.
  apply mediaExists_savedOrSame in E1.
  destruct (if negb e then _ else _) as [m2 st2] eqn:E2.
  assert (L2 : (length (saved st1) ≤ length (saved st2))%nat).
  { destruct (negb e).
    - apply markMissing_Step in E2. by eapply Step_saved_length.
    - by injection E2 as <- <-. }
  destruct (match mediaType m2 with TV => _ | MOVIE => _ end)
    as [[d m3] st3] eqn:E3.
  assert (L3 : (length (saved st2) ≤ length (saved st3))%nat).
  { destruct (mediaType m2).
    - by injection E3 as <- <- <-.
    - apply seasonLoop_Step in E3. by eapply Step_saved_length. }
  destruct (negb e || d) eqn:C.
  { destruct (save w m3 st3) as [[u|x] st4] eqn:E4; intros [= <- <- <-] X;
      apply save_saved in E4; apply (f_equal length) in X;
      rewrite E4, length_app in X; simpl in X; lia. }
  apply orb_false_iff in C as [Ce ->]. apply negb_false_iff in Ce. subst e.
  simpl in E2. injection E2 as <- <-.
  intros [= <- <- <-] X.
  assert (S : savedOrSame m st m3 st3).
  { eapply savedOrSame_trans; [exact E1|].
    destruct (mediaType m1).
    - injection E3 as <- <-. apply savedOrSame_refl.
    - by apply seasonLoop_savedOrSame in E3. }
  destruct (savedOrSame_same _ _ _ _ S X). auto.
Qed.

(** C6, as amended.  The engine never compares the new state of a record
    with the loaded one; what holds is the converse of the claim: a record
    for which no save is issued is left exactly as it was loaded, the
    table is untouched and the turn does not fail. *)
Theorem unsaved_record_unchanged w m st :
  saved (Sync.processMedia w m st).2 = saved st →
  (Sync.processMedia w m st).1.2 = m
  ∧ db (Sync.processMedia w m st).2 = db st
  ∧ (Sync.processMedia w m st).1.1 = Returned tt.
Proof.
  destruct (Sync.processMedia w m st) as [[o m'] st'] eqn:E. simpl.
  by apply (processMedia_savedOrSame w).
Qed.

(** ** The loader terminates *)

Lemma upsert_ids x rows :
  mid x ∈ map mid rows → map mid (upsert x rows) = map mid rows.
Proof.
  intros H. unfold upsert.
  assert (E : existsb (λ r, mid r =? mid x) rows = true).
  { apply existsb_exists. apply list_elem_of_In, in_map_iff in H as (r & Hr & I).
    exists r. split; [done|]. by apply Z.eqb_eq. }
  rewrite E. clear. induction rows as [|r rows IH]; simpl; [done|].
  rewrite IH. f_equal. destruct (mid r =? mid x) eqn:Q; [|done].
  by apply Z.eqb_eq in Q.
Qed.

Lemma upserts_ids m l :
  Forall (mediaRel m) l → ∀ rows, mid m ∈ map mid rows →
  map mid (foldl (λ rows x, upsert (loaded x) rows) rows l) = map mid rows.
Proof.
  induction 1 as [|x l Hx Hl IH]; intros rows H; simpl; [done|].
  destruct Hx as (I & _).
  assert (U : map mid (upsert (loaded x) rows) = map mid rows).
  { apply upsert_ids. simpl. by rewrite I. }
  rewrite IH; [done|]. by rewrite U.
Qed.

Lemma Step_ids m st m' st' :
  Step m st m' st' → mid m ∈ map mid (db st) →
  map mid (db st') = map mid (db st).
Proof.
  intros [_ (l & l' & _ & _ & D & F)] H. rewrite D. by apply (upserts_ids m).
Qed.

Lemma consumePage_ids w c page :
  ∀ seen st,
    Forall (λ m, mid m ∈ map mid (db st)) page →
    map mid (db (Sync.consumePage w c seen page st).2) = map mid (db st)
    ∧ (Sync.consumePage w c seen page st).1.1 ≠ Sync.OutOfFuel.
Proof.
  induction page as [|m page IH]; intros seen st F; cbn [Sync.consumePage]; [done|].
  apply Forall_cons in F as [Fm F].
  set (st1 := if c (length seen) then Sync.cancel st else st).
  assert (D1 : db st1 = db st) by (subst st1; by destruct (c _)).
  destruct (negb (running st1)); [simpl; by rewrite D1|].
  destruct (Sync.processMedia w m st1) as [[o m1] st2] eqn:E.
  apply processMedia_Step in E. apply Step_ids in E; [|by rewrite D1].
  rewrite D1 in E.
  destruct o; simpl; [|done].
  destruct (IH (seen ++ [mid m]) st2) as [I1 I2]; [by rewrite E|].
  split; [congruence|done].
Qed.

Lemma find_ids rows skip n :
  Forall (λ m, mid m ∈ map mid rows) (find rows skip n).
Proof.
  unfold find. apply Forall_forall. intros x Hx.
  apply list_elem_of_In, in_map_iff in Hx as (r & <- & Hr).
  apply list_elem_of_In in Hr.
  apply elem_of_take in Hr as (i & Hr & _).
  rewrite lookup_drop in Hr. apply list_elem_of_lookup_2 in Hr.
  apply list_elem_of_In, filter_In in Hr as [Hr _].
  apply list_elem_of_In, in_map_iff. exists r. by split.
Qed.

Lemma find_nonempty rows skip n :
  find rows skip n ≠ [] → (skip < length rows)%nat.
Proof.
  unfold find. intros H.
  destruct (decide (skip < length rows)%nat) as [|N]; [done|].
  exfalso. apply H.
  rewrite drop_ge; [by rewrite take_nil|].
  pose proof (filter_length eligible rows) as L.
  pose proof (List.length_app (List.filter eligible rows)
                (List.filter (λ x, negb (eligible x)) rows)) as L2.
  lia.
Qed.

Lemma forAwait_total w c ps fuel :
  (0 < ps)%nat →
  ∀ offset seen st,
    (length (db st) + ps ≤ offset + ps * S fuel)%nat →
    (Sync.forAwait w c ps (S fuel) offset seen st).1.1 ≠ Sync.OutOfFuel.
Proof.
  intros Hps. induction fuel as [|fuel IH]; intros offset seen st H.
  - cbn [Sync.forAwait].
    pose proof (consumePage_ids w c (find (db st) offset ps) seen st
                  (find_ids _ _ _)) as [_ N].
    destruct (Sync.consumePage w c seen _ st) as [[c1 seen1] st1].
    destruct c1; simpl in *; try done.
    destruct (find (db st) offset ps) eqn:F; [done|].
    assert (X : (offset < length (db st))%nat)
      by (apply (find_nonempty _ _ ps); by rewrite F).
    lia.
  - cbn [Sync.forAwait].
    pose proof (consumePage_ids w c (find (db st) offset ps) seen st
                  (find_ids _ _ _)) as [I N].
    destruct (Sync.consumePage w c seen _ st) as [[c1 seen1] st1].
    destruct c1; simpl in *; try done.
    destruct (find (db st) offset ps) eqn:F; [done|].
    apply IH.
    apply (f_equal length) in I. rewrite !length_map in I. lia.
Qed.

(** run always completes: the bound on the loader is never reached. *)
Lemma run_total w c st : (Sync.run w c st).1.1 ≠ Sync.OutOfFuel.
Proof.
  unfold Sync.run, Sync.runTry.
  destruct (Sync.initPlexClient w _) as [[[]|e] st1]; [|simpl; discriminate].
  destruct (plexClient st1); [|simpl; discriminate].
  pose proof (forAwait_total w c Sync.pageSize
                (length (db (logger LInfo MsgStarting st1)))
                ltac:(unfold Sync.pageSize; lia) 0%nat []
                (logger LInfo MsgStarting st1)
                ltac:(unfold Sync.pageSize; lia)) as H.
  destruct (Sync.forAwait _ _ _ _ _ _ _) as [[c1 seen1] st2].
  by destruct c1.
Qed.

(** ** What can end a run early *)

(** Failures of the probes never leave [processMedia]: the only exception
    that escapes is the one of the save that closes the turn. *)
Lemma processMedia_throws w m st e m' st' :
  Sync.processMedia w m st = (Threw e, m', st') → saveError w m' = Some e.
Proof.
  unfold Sync.processMedia.
  destruct (Sync.mediaExists w m st) as [[x m1] st1].
  destruct (if negb x then _ else _) as [m2 st2].
  destruct (match mediaType m2 with TV => _ | MOVIE => _ end) as [[d m3] st3].
  destruct (negb x || d); [|discriminate].
  unfold save. destruct (saveError w m3) eqn:Q; [|discriminate].
  intros [= <- <- <-]. exact Q.
Qed.

Lemma consumePage_thrown w c page :
  ∀ seen st e seen' st',
    Sync.consumePage w c seen page st = (Sync.Thrown e, seen', st') →
    e = "Job aborted" ∨ ∃ m, saveError w m = Some e.
Proof.
  induction page as [|m page IH]; intros seen st e seen' st'; cbn [Sync.consumePage].
  - discriminate.
  - destruct (negb (running _)).
    { intros [= <- <- <-]. by left. }
    destruct (Sync.processMedia w m _) as [[o m1] st1] eqn:P.
    destruct o.
    + apply IH.
    + intros [= <- <- <-]. right. apply processMedia_throws in P. eauto.
Qed.

Lemma forAwait_thrown w c ps fuel :
  ∀ offset seen st e seen' st',
    Sync.forAwait w c ps fuel offset seen st = (Sync.Thrown e, seen', st') →
    e = "Job aborted" ∨ ∃ m, saveError w m = Some e.
Proof.
  induction fuel as [|fuel IH]; intros offset seen st e seen' st'; cbn [Sync.forAwait].
  - discriminate.
  - destruct (Sync.consumePage w c seen _ st) as [[c1 seen1] st1] eqn:E.
    destruct c1.
    + destruct (find (db st) offset ps); [discriminate|]. apply IH.
    + intros [= <- <- <-]. by apply consumePage_thrown in E.
    + discriminate.
Qed.

(** Whether [initPlexClient] returns depends on the user table and on
    the logger only, not on the instance. *)
Lemma initPlexClient_outcome w st st' :
  (Sync.initPlexClient w st).1 = (Sync.initPlexClient w st').1.
Proof.
  unfold Sync.initPlexClient.
  destruct (admin w) as [[a|]|e]; [done| |done].
  by destruct (loggerWarning w).
Qed.

(** The exceptions of the model that reach the catch of run: the one of
    [initPlexClient], the one of the test of [this.running], and the one
    of a refused save. *)
Lemma run_thrown w c st e :
  (Sync.run w c st).1.1 = Sync.Thrown e →
  (Sync.initPlexClient w st).1 = Threw e
  ∨ e = "Job aborted"
  ∨ ∃ m, saveError w m = Some e.
Proof.
  unfold Sync.run, Sync.runTry.
  rewrite (initPlexClient_outcome w st
             (set_sonarrServers (List.filter syncEnabled (settings_sonarr w))
                (set_radarrServers (List.filter syncEnabled (settings_radarr w))
                   (set_sonarrSeasonsCache ∅
                      (set_plexSeasonsCache ∅ (set_running true st)))))).
  destruct (Sync.initPlexClient w _) as [[[]|x] st1]; cbn [fst snd].
  2:{ intros [= <-]. by left. }
  destruct (plexClient st1); [|discriminate].
  destruct (Sync.forAwait _ _ _ _ _ _ _) as [[c1 seen1] st2] eqn:E.
  destruct c1; simpl; try discriminate.
  intros [= <-]. right. by apply forAwait_thrown in E.
Qed.

(** ** run does not look at the guard when it starts *)

(** The first statement of run() overwrites [this.running]: the value
    that the flag has when run() is called is never read. *)
Lemma run_not_guarded w cancelled b st :
  Sync.run w cancelled (set_running b st) = Sync.run w cancelled st.
Proof. reflexivity. Qed.

(** ** No admin *)

(** The [try] block when the user table holds no admin: the call of
    [logger.warning] throws into the catch, or it returns and run()
    returns on an instance without a Plex client. *)
Lemma runTry_without_admin w c st :
  admin w = Returned None →
  plexClient st = None ∨ (∃ e, loggerWarning w = Threw e) →
  Sync.runTry w c st
  = match loggerWarning w with
    | Returned _ => (Sync.Normal, [], logger LWarning MsgNoAdmin st)
    | Threw e => (Sync.Thrown e, [], logger LError (MsgFailedToComplete e) st)
    end.
Proof.
  intros A P. unfold Sync.runTry, Sync.initPlexClient. rewrite A.
  destruct (loggerWarning w) as [[]|e]; [|done].
  destruct P as [P|[e P]]; [|discriminate].
  change (plexClient (logger LWarning MsgNoAdmin st)) with (plexClient st).
  by rewrite P.
Qed.

(** X14.  When the user table holds no admin, and the call of
    [logger.warning] throws or the instance holds no Plex client, run
    examines no record and writes nothing: the table and the list of
    saves are as before and the guard is released.  How the run ends
    depends on the logger: when [logger.warning] throws, the exception
    is the completion of the [try] block and the log gains the error
    line of the catch and the closing line; when it returns, the run
    completes normally and the log gains the warning and the closing
    line. *)
Lemma run_without_admin w c st :
  admin w = Returned None →
  plexClient st = None ∨ (∃ e, loggerWarning w = Threw e) →
  (Sync.run w c st).1
  = (match loggerWarning w with
     | Returned _ => Sync.Normal
     | Threw e => Sync.Thrown e
     end, [])
  ∧ db (Sync.run w c st).2 = db st
  ∧ saved (Sync.run w c st).2 = saved st
  ∧ log (Sync.run w c st).2
    = log st ++ [match loggerWarning w with
                 | Returned _ => mkLog LWarning MsgNoAdmin
                 | Threw e => mkLog LError (MsgFailedToComplete e)
                 end; mkLog LInfo MsgComplete]
  ∧ running (Sync.run w c st).2 = false.
Proof.
  intros A P. unfold Sync.run.
  rewrite (runTry_without_admin w c _ A) by exact P.
  destruct (loggerWarning w) as [[]|e]; cbn [fst snd];
    repeat split; cbn; by rewrite <- app_assoc.
Qed.

Lemma keepsTerminal_refl m : keepsTerminal m m.
Proof. by intros v. Qed.

Lemma keepsTerminal_trans a b c :
  keepsTerminal a b → keepsTerminal b c → keepsTerminal a c.
Proof. intros H1 H2 v T. rewrite <- (H1 v T). apply H2. by rewrite (H1 v T). Qed.

Lemma keepsParent_terminal m m' : keepsParent m m' → keepsTerminal m m'.
Proof. intros H v [T|T]; apply H; rewrite T; discriminate. Qed.

Lemma keepsParent_refl m : keepsParent m m.
Proof. by intros v. Qed.

Lemma keepsParent_trans a b c :
  keepsParent a b → keepsParent b c → keepsParent a c.
Proof. intros H1 H2 v T. rewrite <- (H1 v T). apply H2. by rewrite (H1 v T). Qed.

Lemma keepsParent_same m m' : sameStatuses m m' → keepsParent m m'.
Proof. intros (S1 & S2 & _) [|] _; simpl; congruence. Qed.

Lemma mediaUpdater_other w m u st :
  statusOf (negb u) (Sync.mediaUpdater w m u st).1 = statusOf (negb u) m.
Proof.
  unfold Sync.mediaUpdater.
  destruct (save w _ _) as [[x|e] st1]; simpl;
    (destruct (bool_decide (mediaType m = TV));
     [destruct (deleteAvailableSeasons_frame u
                  (setRatingKeyOf u None
                     (setExternalServiceSlugOf u None
                        (setExternalServiceIdOf u None
                           (setServiceIdOf u None (setStatusOf u DELETED m))))))
        as (D1 & D2 & _);
      destruct u; cbn [negb statusOf]; rewrite ?D1, ?D2; done
     | by destruct u]).
Qed.

Lemma updateSingleVariant_keepsTerminal w m a a4 p p4 st m' st' :
  Sync.updateSingleVariant w m a a4 p p4 st = (m', st') → keepsTerminal m m'.
Proof.
  unfold Sync.updateSingleVariant.
  assert (U : ∀ u m0 st0,
    negb (status_eqb (statusOf u m0) DELETED)
    && negb (status_eqb (statusOf u m0) UNKNOWN) = true →
    keepsTerminal m0 (Sync.mediaUpdater w m0 u st0).1).
  { intros u m0 st0 G v T. destruct (decide (v = u)) as [->|N].
    - exfalso. apply andb_true_iff in G as [G1 G2].
      apply negb_true_iff, status_eqb_false in G1, G2. by destruct T.
    - replace v with (negb u) by (by destruct u, v).
      apply mediaUpdater_other. }
  destruct (if negb a && (a4 || p4) && negb p then _ else _) as [m1 st1] eqn:E1.
  intros E2.
  assert (K1 : keepsTerminal m m1).
  { destruct (negb a && (a4 || p4) && negb p).
    - destruct (_ && _) eqn:G in E1.
      + pose proof (U false m st G) as K. by rewrite E1 in K.
      + injection E1 as <- <-. apply keepsTerminal_refl.
    - injection E1 as <- <-. apply keepsTerminal_refl. }
  eapply keepsTerminal_trans; [exact K1|].
  destruct ((a || p) && negb a4 && negb p4).
  - destruct (_ && _) eqn:G in E2.
    + pose proof (U true m1 st1 G) as K. by rewrite E2 in K.
    + injection E2 as <- <-. apply keepsTerminal_refl.
  - injection E2 as <- <-. apply keepsTerminal_refl.
Qed.

Lemma mediaExists_keepsTerminal w m st x m' st' :
  Sync.mediaExists w m st = (x, m', st') → keepsTerminal m m'.
Proof.
  unfold Sync.mediaExists, Sync.mediaExistsInRadarr, Sync.mediaExistsInSonarr.
  destruct (Sync.existsInPlex w m st) as [[p p4] st1].
  destruct (p && p4).
  { intros [= <- <- <-]. apply keepsTerminal_refl. }
  destruct (mediaType m).
  - destruct (foldl _ _ _) as [[a b] st2].
    destruct (Sync.updateSingleVariant _ _ _ _ _ _ _) as [m1 st3] eqn:E.
    apply updateSingleVariant_keepsTerminal in E.
    by destruct (_ || _); intros [= <- <- <-].
  - destruct (foldl _ _ _) as [[a b] st2].
    destruct (Sync.updateSingleVariant _ _ _ _ _ _ _) as [m1 st3] eqn:E.
    apply updateSingleVariant_keepsTerminal in E.
    by destruct (_ || _); intros [= <- <- <-].
Qed.

Lemma markMissing_keepsTerminal m st : keepsTerminal m (Sync.markMissing m st).1.
Proof.
  unfold Sync.markMissing.
  destruct (Sync.notBothTerminal _ _); [|apply keepsTerminal_refl].
  intros [|] [T|T]; simpl in *; by rewrite T.
Qed.

Lemma removeSeasonVariant_keepsParent m r u st :
  keepsParent m (Sync.removeSeasonVariant m r u st).1.
Proof.
  unfold Sync.removeSeasonVariant.
  destruct (_ && _); [|apply keepsParent_refl].
  rewrite statusOf_updSeason.
  destruct (status_eqb (statusOf u m) AVAILABLE) eqn:A; simpl; intros v N.
  - apply status_eqb_true in A.
    rewrite statusOf_setStatusOf, statusOf_updSeason.
    destruct (decide (u = v)); [congruence|done].
  - apply statusOf_updSeason.
Qed.

Lemma demoteParent_keepsParent m st : keepsParent m (Sync.demoteParent m st).1.
Proof.
  destruct (Sync.demoteParent m st) as [m' st'] eqn:E.
  apply demoteParent_effect in E as [_ E]. intros v N. by apply E.
Qed.

Lemma seasonTurn_keepsParent w e d m st r :
  keepsParent m (Sync.seasonTurn w e (d, m, st) r).1.2.
Proof.
  unfold Sync.seasonTurn.
  assert (F : ∀ d1 m1 st1, keepsParent m m1 →
    keepsParent m
      (if d1 : bool
       then let '(media, st) := Sync.demoteParent m1 st1 in (d1, media, st)
       else (d1, m1, st1)).1.2).
  { intros d1 m1 st1 K. destruct d1; [|done].
    pose proof (demoteParent_keepsParent m1 st1) as D.
    destruct (Sync.demoteParent m1 st1). eapply keepsParent_trans; eauto. }
  destruct (negb e && _).
  - apply F. intros v _. apply statusOf_updSeason.
  - destruct (Sync.seasonExists w m r st) as [[x m1] st1] eqn:X.
    apply seasonExists_shape in X.
    assert (K : keepsParent m m1).
    { destruct X as [S|(_ & u & st0 & m0 & st2 & R & S)].
      - by apply keepsParent_same.
      - eapply keepsParent_trans; [|apply keepsParent_same, S].
        pose proof (removeSeasonVariant_keepsParent m r u st0) as Q.
        by rewrite R in Q. }
    destruct (negb x).
    + apply (F true). eapply keepsParent_trans; [exact K|].
      destruct (Sync.notBothTerminal _ _); [|apply keepsParent_refl].
      intros v _. apply statusOf_updSeason.
    + by apply F.
Qed.

Lemma seasonLoop_keepsParent w e refs :
  ∀ d m st, keepsParent m (foldl (Sync.seasonTurn w e) (d, m, st) refs).1.2.
Proof.
  induction refs as [|r refs IH]; cbn [foldl]; intros d m st.
  - apply keepsParent_refl.
  - pose proof (seasonTurn_keepsParent w e d m st r) as K.
    destruct (Sync.seasonTurn w e (d, m, st) r) as [[d1 m1] st1].
    eapply keepsParent_trans; [exact K|apply IH].
Qed.

(** X15.  For the record itself the terminal guard holds: whatever the
    collaborators answer, a variant status that is DELETED or UNKNOWN when
    the record is loaded is the same after the record has been processed. *)
Lemma terminal_guard_of_records w m st v :
  terminal (statusOf v m) →
  statusOf v (Sync.processMedia w m st).1.2 = statusOf v m.
Proof.
  revert v. change (keepsTerminal m (Sync.processMedia w m st).1.2).
  unfold Sync.processMedia.
  destruct (Sync.mediaExists w m st) as [[e m1] st1] eqn:E1.
  apply mediaExists_keepsTerminal in E1.
  destruct (if negb e then _ else _) as [m2 st2] eqn:E2.
  assert (K2 : keepsTerminal m1 m2).
  { destruct (negb e).
    - pose proof (markMissing_keepsTerminal m1 st1) as K. by rewrite E2 in K.
    - injection E2 as <- <-. apply keepsTerminal_refl. }
  destruct (match mediaType m2 with TV => _ | MOVIE => _ end)
    as [[d m3] st3] eqn:E3.
  assert (K3 : keepsTerminal m2 m3).
  { destruct (mediaType m2).
    - injection E3 as <- <- <-. apply keepsTerminal_refl.
    - pose proof (seasonLoop_keepsParent w e (seasons m2) false m2 st2) as K.
      rewrite E3 in K. by apply keepsParent_terminal. }
  assert (K : keepsTerminal m m3).
  { eapply keepsTerminal_trans; [exact E1|]. eapply keepsTerminal_trans; eauto. }
  destruct (negb e || d); [|done].
  by destruct (save w m3 st3) as [[u|x] st4].
Qed.


Lemma consumePage_mono w c page :
  ∀ seen st cmp seen' st',
    Sync.consumePage w c seen page st = (cmp, seen', st') →
    seen `prefix_of` seen' ∧ saved st `prefix_of` saved st'.
Proof.
  induction page as [|m page IH]; intros seen st cmp seen' st'; cbn [Sync.consumePage].
  - by intros [= <- <- <-].
  - set (st1 := if c (length seen) then Sync.cancel st else st).
    assert (S1 : saved st1 = saved st) by (subst st1; by destruct (c _)).
    destruct (negb (running st1)).
    { intros [= <- <- <-]. by rewrite S1. }
    destruct (Sync.processMedia w m st1) as [[o m1] st2] eqn:E.
    apply processMedia_Step in E as [_ (l & _ & L & _)].
    assert (P : saved st `prefix_of` saved st2).
    { rewrite L, S1. by apply prefix_app_r. }
    destruct o.
    + intros H. apply IH in H as [H1 H2]. split.
      * etrans; [|exact H1]. by apply prefix_app_r.
      * etrans; eauto.
    + intros [= <- <- <-]. split; [by apply prefix_app_r|done].
Qed.

Lemma forAwait_mono w c ps fuel :
  ∀ offset seen st cmp seen' st',
    Sync.forAwait w c ps fuel offset seen st = (cmp, seen', st') →
    seen `prefix_of` seen' ∧ saved st `prefix_of` saved st'.
Proof.
  induction fuel as [|fuel IH]; intros offset seen st cmp seen' st'; cbn [Sync.forAwait].
  - by intros [= <- <- <-].
  - destruct (Sync.consumePage w c seen _ st) as [[c1 seen1] st1] eqn:E.
    apply consumePage_mono in E as [E1 E2].
    destruct c1.
    + destruct (find (db st) offset ps).
      * by intros [= <- <- <-].
      * intros H. apply IH in H as [H1 H2]. split; etrans; eauto.
    + by intros [= <- <- <-].
    + by intros [= <- <- <-].
Qed.







(** ** A call of run while the guard is set *)

Lemma find_first rows m rest n :
  List.filter eligible rows = m :: rest →
  find rows 0 (S n) = loaded m :: map loaded (take n rest).
Proof. unfold find. rewrite drop_0. by intros ->. Qed.

(** The loop starts with the first record of a page that is not empty,
    unless the flag has been cleared before it is tested. *)
Lemma consumePage_starts w c m page st cmp seen' st' :
  c 0%nat = false → running st = true →
  Sync.consumePage w c [] (m :: page) st = (cmp, seen', st') →
  [mid m] `prefix_of` seen'.
Proof.
  intros C R. cbn [Sync.consumePage length]. rewrite C, R. cbn [negb app].
  destruct (Sync.processMedia w m st) as [[[[]|e] m1] st1].
  - intros H. by apply consumePage_mono in H as [H _].
  - by intros [= <- <- <-].
Qed.

(** C7, as amended.  run() has no guard at its entry.  Whatever the
    value [b] of [this.running] when run() is called - in particular when
    it is set - the call is not rejected: when [initPlexClient] returns
    with a Plex client in place and the flag has not been cleared by the
    time the loop tests it for the first time, the call starts to process
    the first eligible record that the loader finds in the table. *)
Theorem reentrant_call_proceeds w cancelled b st m rest :
  (Sync.initPlexClient w st).1 = Returned tt →
  plexClient (Sync.initPlexClient w st).2 ≠ None →
  cancelled 0%nat = false →
  List.filter eligible (db st) = m :: rest →
  ∃ l, (Sync.run w cancelled (set_running b st)).1.2 = mid m :: l.
Proof.
  intros I P C F. unfold Sync.run, Sync.runTry.
  set (st0 := set_sonarrServers _ _).
  assert (E : ∃ st1, Sync.initPlexClient w st0 = (Returned tt, st1)
                     ∧ plexClient st1 ≠ None ∧ running st1 = true
                     ∧ db st1 = db st).
  { revert I P. subst st0. unfold Sync.initPlexClient.
    destruct (admin w) as [[a|]|e]; [by eauto| |done].
    destruct (loggerWarning w) as [[]|e]; [by eauto|done]. }
  destruct E as (st1 & -> & P1 & R1 & D1).
  destruct (plexClient st1); [|done].
  set (st2 := logger LInfo MsgStarting st1).
  assert (G : ∃ l, (Sync.forAwait w cancelled Sync.pageSize (S (length (db st2)))
                      0 [] st2).1.2 = mid m :: l).
  { cbn [Sync.forAwait].
    assert (F2 : find (db st2) 0 Sync.pageSize
                 = loaded m :: map loaded (take 49 rest)).
    { apply find_first. subst st2. cbn. by rewrite D1. }
    rewrite F2.
    destruct (Sync.consumePage w cancelled [] _ st2) as [[c1 seen1] st3] eqn:K.
    apply consumePage_starts in K as [l K]; [|done|done].
    destruct c1; cbn [fst snd]; try by exists l.
    destruct (Sync.forAwait w cancelled _ _ _ seen1 st3) as [[c2 seen2] st4] eqn:L.
    apply forAwait_mono in L as [[k L] _]. cbn [fst snd].
    exists (l ++ k). by rewrite L, K. }
  destruct G as [l G].
  destruct (Sync.forAwait w cancelled _ _ _ _ _) as [[c1 seen1] st3].
  cbn [fst snd] in G. exists l. by destruct c1.
Qed.

(** ** Examples *)



(** C2, evaluated where the code departs from it.  A show gone from every
    instance, whose only season is UNKNOWN in standard and AVAILABLE in
    4K: after the run the standard status of the record is still UNKNOWN
    (run() keeps it), but the standard status of the season, UNKNOWN
    before, has been overwritten with DELETED. *)
Theorem season_unknown_overwritten :
  (season_status <$> seasonObjs show4kOnly) = [UNKNOWN]
  ∧ (status <$> db (Sync.run offline never (newSync [show4kOnly])).2) = [UNKNOWN]
  ∧ ((λ row, season_status <$> seasonObjs row)
       <$> db (Sync.run offline never (newSync [show4kOnly])).2) = [[DELETED]].
Proof. vm_compute. done. Qed.

(** C5 fails as stated: a season that Plex does not list and that the
    Sonarr statistics do not mention is judged existent. *)
Lemma season_existence_counterexample :
  ¬ (∀ w media r st,
       let n := seasonNumber (Sync.seasonAt media r) in
       let facts := (seasonFacts w media r st).1 in
       let st' := (seasonFacts w media r st).2 in
       judgedExistent false facts = true ↔
         plexLists (plexSeasonsCache st') (ratingKey media) n
         ∨ statsPositive (sonarrSeasonsCache st') (sonarrServers st) false
             (externalServiceId media) n).
Proof.
  intros H.
  specialize (H seasonUnlisted showBare 0%nat (ready seasonUnlisted)).
  cbn zeta in H. destruct H as [H _].
  destruct (H eq_refl) as [[T _]|(server & l & entry & c & I & _ & L & E & N & _)].
  - vm_compute in T. discriminate.
  - vm_compute in I. apply list_elem_of_singleton in I. subst server.
    vm_compute in L. injection L as <-.
    apply list_elem_of_singleton in E. subst entry.
    vm_compute in N. discriminate.
Qed.

(** A movie that Plex holds in both variants: nothing is saved. *)
Lemma unsaved_record_unchanged_witness :
  saved (Sync.processMedia online movieBoth (ready online)).2
  = saved (ready online)
  ∧ (Sync.processMedia online movieBoth (ready online)).1.2 = movieBoth
  ∧ db (Sync.processMedia online movieBoth (ready online)).2 = db (ready online)
  ∧ (Sync.processMedia online movieBoth (ready online)).1.1 = Returned tt.
Proof.
  assert (H : saved (Sync.processMedia online movieBoth (ready online)).2
              = saved (ready online)) by (vm_compute; reflexivity).
  split; [exact H|].
  exact (unsaved_record_unchanged online movieBoth (ready online) H).
Defined.

(** C6 fails as stated: season 2 of the show was removed by the first
    run; the second run, with the same answers from Plex and Sonarr,
    leaves every row as it is and still issues writes. *)
Lemma second_run_writes :
  ¬ (∀ w st,
       let st1 := (Sync.run w never st).2 in
       db (Sync.run w never st1).2 = db st1 →
       saved (Sync.run w never st1).2 = saved st1).
Proof.
  intros H. specialize (H seasonLost (newSync [showTwo])).
  cbn zeta in H.
  assert (D : db (Sync.run seasonLost never
                    (Sync.run seasonLost never (newSync [showTwo])).2).2
              = db (Sync.run seasonLost never (newSync [showTwo])).2)
    by (vm_compute; reflexivity).
  apply H in D. apply (f_equal length) in D. vm_compute in D. discriminate.
Qed.

(** C7 fails as stated: called with the guard set, run() processes the
    table. *)
Lemma reentrant_run_processes :
  ¬ (∀ w cancelled st, running st = true → (Sync.run w cancelled st).1.2 = []).
Proof.
  intros H.
  specialize (H offline never (set_running true (newSync [movieA])) eq_refl).
  vm_compute in H. discriminate.
Qed.

(** The guard is set when run() is called on a table with two movies. *)
Lemma reentrant_call_proceeds_witness :
  ∃ l, (Sync.run offline never
          (set_running true (newSync [movieA; movieB]))).1.2
       = mid movieA :: l.
Proof.
  apply (reentrant_call_proceeds offline never true (newSync [movieA; movieB])
           movieA [movieB]).
  - reflexivity.
  - by vm_compute.
  - reflexivity.
  - reflexivity.
Defined.



(** C9, evaluated where the code departs from it.  Two movies are
    eligible; the save that closes the turn of the first one is refused.
    The exception reaches the handler of run(), which logs it and ends
    the run: the second movie is never examined. *)
Theorem save_failure_ends_run :
  (mid <$> find (db (newSync [movieA; movieB])) 0 Sync.pageSize) = [1; 2]
  ∧ (Sync.run readOnly never (newSync [movieA; movieB])).1
    = (Sync.Thrown "SQLITE_BUSY", [1])
  ∧ mkLog LError (MsgFailedToComplete "SQLITE_BUSY")
    ∈ log (Sync.run readOnly never (newSync [movieA; movieB])).2.
Proof.
  split; [by vm_compute|]. split; [by vm_compute|].
  vm_compute. do 3 right. left.
Qed.

(** C10, evaluated where the code departs from it.  The user table holds
    no admin and the logger has no method [warning].  The call of
    [logger.warning] in [initPlexClient] throws inside the [try] of
    run(), and the catch reports the run as failed with [logger.error]:
    no record is examined, nothing is written and the guard is released,
    but the warning is never logged and an error is. *)
Theorem missing_admin_reported_as_failure :
  admin ownerless = Returned None
  ∧ (Sync.run ownerless never (newSync [movieBoth])).1
    = (Sync.Thrown "logger.warning is not a function", [])
  ∧ log (Sync.run ownerless never (newSync [movieBoth])).2
    = [mkLog LError (MsgFailedToComplete "logger.warning is not a function");
       mkLog LInfo MsgComplete]
  ∧ db (Sync.run ownerless never (newSync [movieBoth])).2 = [movieBoth]
  ∧ saved (Sync.run ownerless never (newSync [movieBoth])).2 = []
  ∧ running (Sync.run ownerless never (newSync [movieBoth])).2 = false.
Proof. by vm_compute. Qed.

(** With a logger that does have a method [warning], the skip fails in
    another way on an instance that has run once with an admin: run()
    logs that the sync is skipped, finds the Plex client of the earlier
    run in [this.plexClient] and goes on; the movie is examined and
    written. *)
Lemma stale_client_skips_admin_check :
  mkLog LWarning MsgNoAdmin
  ∈ log (Sync.run ownerlessLenient never
           (Sync.run online never (newSync [movieBoth])).2).2
  ∧ (Sync.run ownerlessLenient never
       (Sync.run online never (newSync [movieBoth])).2).1 = (Sync.Normal, [3])
  ∧ (status <$> db (Sync.run ownerlessLenient never
                      (Sync.run online never (newSync [movieBoth])).2).2)
    = [DELETED]
  ∧ length (saved (Sync.run ownerlessLenient never
                     (Sync.run online never (newSync [movieBoth])).2).2) = 1%nat.
Proof.
  split; [|by vm_compute].
  vm_compute. do 2 right. left.
Qed.


(** Season 2 of [showTwo] is gone from every instance. *)
Lemma season_demotion_witness :
  guarded true false showTwo
  ∧ seasonObjs showTwo !! 1%nat = Some (mkSeason 2 AVAILABLE DELETED)
  ∧ let m' := (Sync.seasonTurn seasonLost true
                 (false, showTwo, ready seasonLost) 1%nat).1.2 in
    ∃ s', seasonObjs m' !! 1%nat = Some s'
      ∧ (seasonStatusOf false s' ≠ AVAILABLE →
           terminal (seasonStatusOf false s')
           ∧ (statusOf false showTwo = AVAILABLE →
              statusOf false m' = PARTIALLY_AVAILABLE))
      ∧ (statusOf false showTwo ≠ AVAILABLE →
           statusOf false m' = statusOf false showTwo)
      ∧ (statusOf false m' ≠ statusOf false showTwo →
           statusOf false showTwo = AVAILABLE
           ∧ statusOf false m' = PARTIALLY_AVAILABLE
           ∧ terminal (seasonStatusOf false s')).
Proof.
  assert (G : guarded true false showTwo) by (intros [?|?]; discriminate).
  split; [exact G|]. split; [reflexivity|].
  exact (season_demotion seasonLost true false showTwo (ready seasonLost) 1%nat
           (mkSeason 2 AVAILABLE DELETED) false G eq_refl).
Defined.


(** The loader re-queries the eligible rows with a growing offset while
    the loop removes rows from that set: of 51 eligible movies that are
    gone from every instance, the first page of 50 is processed, the
    second query skips 50 of the one row still eligible and comes back
    empty, and the run ends normally with the last movie never examined. *)
Lemma paginated_scan_skips_records :
  length (List.filter eligible (library 51)) = 51%nat
  ∧ (Sync.run offline never (newSync (library 51))).1
    = (Sync.Normal, Z.of_nat <$> seq 1 50)
  ∧ (status <$> drop 50 (db (Sync.run offline never (newSync (library 51))).2))
    = [AVAILABLE].
Proof. vm_compute. done. Qed.

Lemma radarrOk_spec w media v servers :
  forallb (radarrOk w media v) servers = true
  ↔ ∀ server, server ∈ servers → is4k server = v → radarrHolds w media v server.
Proof.
  rewrite forallb_forall. split.
  - intros H server I E. apply list_elem_of_In, H in I.
    unfold radarrOk in I. rewrite bool_decide_eq_true_2 in I by done.
    simpl in I. apply andb_true_iff in I as [T G]. split; [done|].
    destruct (getMovie _ _ _) as [movie|e]; [|done]. by exists movie.
  - intros H server I. apply list_elem_of_In in I. unfold radarrOk.
    destruct (bool_decide (is4k server = v)) eqn:B; [|done].
    apply bool_decide_eq_true in B. destruct (H server I B) as [T (movie & G & F)].
    simpl. by rewrite T, G.
Qed.

Lemma sonarrOk_spec w media v servers :
  forallb (sonarrOk w media v) servers = true
  ↔ ∀ server, server ∈ servers → is4k server = v → sonarrHolds w media v server.
Proof.
  rewrite forallb_forall. split.
  - intros H server I E. apply list_elem_of_In, H in I.
    unfold sonarrOk in I. rewrite bool_decide_eq_true_2 in I by done.
    simpl in I. apply andb_true_iff in I as [T G]. split; [done|].
    destruct (getSeriesById _ _ _) as [series|e]; [|done]. exists series.
    split; [done|]. apply negb_true_iff in G. by apply Z.eqb_neq.
  - intros H server I. apply list_elem_of_In in I. unfold sonarrOk.
    destruct (bool_decide (is4k server = v)) eqn:B; [|done].
    apply bool_decide_eq_true in B. destruct (H server I B) as [T (series & G & F)].
    simpl. rewrite T, G. simpl. apply negb_true_iff. by apply Z.eqb_neq.
Qed.

(** The flags that the loop over the Radarr servers leaves. *)
Lemma radarrServerStep_flags w media a a4 st server :
  (Sync.radarrServerStep w media (a, a4, st) server).1
  = (a && radarrOk w media false server, a4 && radarrOk w media true server).
Proof.
  unfold Sync.radarrServerStep, radarrOk. cbn [externalServiceIdOf].
  destruct (is4k server); cbn [negb andb orb bool_decide].
  - rewrite bool_decide_eq_false_2 by done.
    rewrite bool_decide_eq_true_2 by done. cbn [negb orb].
    destruct (truthyZ (externalServiceId4k media)); cbn [andb].
    + destruct (getMovie _ _ _) as [movie|e]; cbn [fst];
        [destruct (hasFile movie)|]; cbn [negb andb];
        by rewrite ?andb_true_r, ?andb_false_r.
    + cbn [fst]. by rewrite ?andb_true_r, ?andb_false_r.
  - rewrite bool_decide_eq_true_2 by done.
    rewrite bool_decide_eq_false_2 by done. cbn [negb orb].
    destruct (truthyZ (externalServiceId media)); cbn [andb].
    + destruct (getMovie _ _ _) as [movie|e]; cbn [fst];
        [destruct (hasFile movie)|]; cbn [negb andb];
        by rewrite ?andb_true_r, ?andb_false_r.
    + cbn [fst]. by rewrite ?andb_true_r, ?andb_false_r.
Qed.

Lemma radarrLoop_flags w media servers :
  ∀ a a4 st,
    (foldl (Sync.radarrServerStep w media) (a, a4, st) servers).1
    = (a && forallb (radarrOk w media false) servers,
       a4 && forallb (radarrOk w media true) servers).
Proof.
  induction servers as [|server servers IH]; intros a a4 st; cbn [foldl forallb].
  - by rewrite !andb_true_r.
  - pose proof (radarrServerStep_flags w media a a4 st server) as S.
    destruct (Sync.radarrServerStep w media (a, a4, st) server) as [[b b4] st1].
    simpl in S. injection S as -> ->. rewrite IH. by rewrite !andb_assoc.
Qed.

Lemma sonarrServerStep_flags w media a a4 st server :
  (Sync.sonarrServerStep w media (a, a4, st) server).1
  = (a && sonarrOk w media false server, a4 && sonarrOk w media true server).
Proof.
  unfold Sync.sonarrServerStep, Sync.fetchSeries, sonarrOk.
  cbn [externalServiceIdOf].
  destruct (is4k server); cbn [negb andb orb bool_decide].
  - rewrite bool_decide_eq_false_2 by done.
    rewrite bool_decide_eq_true_2 by done. cbn [negb orb].
    destruct (truthyZ (externalServiceId4k media)); cbn [andb].
    + destruct (getSeriesById _ _ _) as [series|e]; cbn [fst];
        [destruct (series_episodeFileCount series =? 0)|]; cbn [negb andb];
        by rewrite ?andb_true_r, ?andb_false_r.
    + cbn [fst]. by rewrite ?andb_true_r, ?andb_false_r.
  - rewrite bool_decide_eq_true_2 by done.
    rewrite bool_decide_eq_false_2 by done. cbn [negb orb].
    destruct (truthyZ (externalServiceId media)); cbn [andb].
    + destruct (getSeriesById _ _ _) as [series|e]; cbn [fst];
        [destruct (series_episodeFileCount series =? 0)|]; cbn [negb andb];
        by rewrite ?andb_true_r, ?andb_false_r.
    + cbn [fst]. by rewrite ?andb_true_r, ?andb_false_r.
Qed.

Lemma sonarrLoop_flags w media servers :
  ∀ a a4 st,
    (foldl (Sync.sonarrServerStep w media) (a, a4, st) servers).1
    = (a && forallb (sonarrOk w media false) servers,
       a4 && forallb (sonarrOk w media true) servers).
Proof.
  induction servers as [|server servers IH]; intros a a4 st; cbn [foldl forallb].
  - by rewrite !andb_true_r.
  - pose proof (sonarrServerStep_flags w media a a4 st server) as S.
    destruct (Sync.sonarrServerStep w media (a, a4, st) server) as [[b b4] st1].
    simpl in S. injection S as -> ->. rewrite IH. by rewrite !andb_assoc.
Qed.

(** The two flags that the [try] block of [mediaExists] leaves; the block
    only writes to the log. *)
Lemma existsInPlex_spec w media st :
  ((Sync.existsInPlex w media st).1.1 = true ↔ inPlex w st media false)
  ∧ ((Sync.existsInPlex w media st).1.2 = true ↔ inPlex w st media true)
  ∧ radarrServers (Sync.existsInPlex w media st).2 = radarrServers st
  ∧ sonarrServers (Sync.existsInPlex w media st).2 = sonarrServers st.
Proof.
  unfold Sync.existsInPlex, Sync.plexMediaProbe, inPlex, plexFinds, plexFails.
  cbn [ratingKeyOf].
  destruct (truthyS (ratingKey media)) eqn:K;
    destruct (truthyS (ratingKey4k media)) eqn:K4;
    destruct (plexClient st) as [api|] eqn:C;
    try (destruct (getMetadata w api (default EmptyString (ratingKey media)))
           as [[item|]|e] eqn:G);
    try (destruct (getMetadata w api (default EmptyString (ratingKey4k media)))
           as [[item4|]|e4] eqn:G4);
    cbn [fst snd];
    repeat match goal with
           | |- context [if ?b then logger _ _ _ else _] => destruct b
           end;
    cbn [radarrServers sonarrServers logger set_log];
    (split; [|split; [|done]]);
    (split;
     [ intros H;
       first [ discriminate H
             | split;
               [ split; [done|eexists _, _; split; [reflexivity|eassumption]]
               | intros _ (T & a & x & A & X); simplify_eq; congruence ] ]
     | intros [(T & a & i & A & X) N];
       first [ done
             | simplify_eq; congruence
             | exfalso; apply N; [done|]; split; [done|]; eexists _, _; split; [reflexivity|eassumption] ] ]).
Qed.

Lemma mediaExistsInRadarr_verdict w media p p4 st :
  (Sync.mediaExistsInRadarr w media p p4 st).1.1
  = forallb (radarrOk w media false) (radarrServers st)
    || forallb (radarrOk w media true) (radarrServers st) || p || p4.
Proof.
  unfold Sync.mediaExistsInRadarr.
  pose proof (radarrLoop_flags w media (radarrServers st) true true st) as F.
  destruct (foldl _ _ _) as [[x x4] st1]. simpl in F. injection F as -> ->.
  by destruct (Sync.updateSingleVariant _ _ _ _ _ _ _) as [m1 st2].
Qed.

Lemma mediaExistsInSonarr_verdict w media p p4 st :
  (Sync.mediaExistsInSonarr w media p p4 st).1.1
  = forallb (sonarrOk w media false) (sonarrServers st)
    || forallb (sonarrOk w media true) (sonarrServers st) || p || p4.
Proof.
  unfold Sync.mediaExistsInSonarr.
  pose proof (sonarrLoop_flags w media (sonarrServers st) true true st) as F.
  destruct (foldl _ _ _) as [[x x4] st1]. simpl in F. injection F as -> ->.
  by destruct (Sync.updateSingleVariant _ _ _ _ _ _ _) as [m1 st2].
Qed.

Lemma inArr_spec w st media v :
  inArr w st media v
  ↔ match mediaType media with
    | MOVIE => forallb (radarrOk w media v) (radarrServers st) = true
    | TV => forallb (sonarrOk w media v) (sonarrServers st) = true
    end.
Proof.
  unfold inArr. destruct (mediaType media).
  - by rewrite radarrOk_spec.
  - by rewrite sonarrOk_spec.
Qed.

(** X1.  [mediaExists] answers true exactly when one of the two variants
    is found somewhere: in Plex (the lookup of its rating key returns an
    item; for the 4K variant the lookup of the standard key, made before
    it in the same [try] block, must not have thrown), or on every
    sync-enabled server of that variant of Radarr (for a movie: the movie
    is returned with a file) or Sonarr (for a series: the series is
    returned with an episode file count other than 0).  A variant without
    any sync-enabled server counts as found, a variant without an external
    id but with a server does not. *)
Theorem media_existence w media st :
  (Sync.mediaExists w media st).1.1 = true
  ↔ found w st media false ∨ found w st media true.
Proof.
  unfold found. rewrite !inArr_spec.
  unfold Sync.mediaExists.
  destruct (existsInPlex_spec w media st) as (P & P4 & R & S).
  destruct (Sync.existsInPlex w media st) as [[p p4] st1].
  cbn [fst snd] in P, P4, R, S. rewrite <- P, <- P4. clear P P4.
  destruct (p && p4) eqn:B.
  { apply andb_true_iff in B as [-> ->]. simpl. tauto. }
  destruct (mediaType media).
  - pose proof (mediaExistsInRadarr_verdict w media p p4 st1) as V.
    destruct (Sync.mediaExistsInRadarr w media p p4 st1) as [[r m1] st2].
    cbn [fst] in V. rewrite R in V.
    assert (E : (if r then (true, m1, logger LWarn (MsgExistsRadarr (mid m1)) st2)
                 else (false, m1, st2)).1.1 = r) by by destruct r.
    rewrite E, V, !orb_true_iff. tauto.
  - pose proof (mediaExistsInSonarr_verdict w media p p4 st1) as V.
    destruct (Sync.mediaExistsInSonarr w media p p4 st1) as [[r m1] st2].
    cbn [fst] in V. rewrite S in V.
    assert (E : (if r then (true, m1, logger LWarn (MsgExistsSonarr (mid m1)) st2)
                 else (false, m1, st2)).1.1 = r) by by destruct r.
    rewrite E, V, !orb_true_iff. tauto.
Qed.

(** ** Which variant mediaExists removes *)

(** What one call of [mediaUpdater] does to the columns of the record. *)
Lemma mediaUpdater_fields w m u st :
  let r := Sync.mediaUpdater w m u st in
  statusOf u r.1 = DELETED
  ∧ linkageOf u r.1 = noLinkage
  ∧ statusOf (negb u) r.1 = statusOf (negb u) m
  ∧ linkageOf (negb u) r.1 = linkageOf (negb u) m
  ∧ saved r.2 = saved st ++ [r.1].
Proof.
  cbn zeta. unfold Sync.mediaUpdater.
  set (m0 := setRatingKeyOf u None _).
  set (m1 := if bool_decide (mediaType m = TV) then _ else _).
  set (st0 := logger LInfo _ st).
  assert (F : statusOf u m1 = DELETED ∧ linkageOf u m1 = noLinkage
              ∧ statusOf (negb u) m1 = statusOf (negb u) m
              ∧ linkageOf (negb u) m1 = linkageOf (negb u) m).
  { assert (F0 : statusOf u m0 = DELETED ∧ linkageOf u m0 = noLinkage
                 ∧ statusOf (negb u) m0 = statusOf (negb u) m
                 ∧ linkageOf (negb u) m0 = linkageOf (negb u) m)
      by (subst m0; by destruct u).
    subst m1. destruct (bool_decide (mediaType m = TV)); [|exact F0].
    destruct (deleteAvailableSeasons_frame u m0)
      as (D1 & D2 & D3 & D4 & D5 & D6 & D7 & D8 & D9 & D10).
    revert F0.
    unfold linkageOf, serviceIdOf, externalServiceIdOf, externalServiceSlugOf,
      ratingKeyOf, statusOf.
    destruct u; cbn [negb];
      rewrite ?D1, ?D2, ?D3, ?D4, ?D5, ?D6, ?D7, ?D8, ?D9, ?D10; done. }
  destruct F as (F1 & F2 & F3 & F4).
  unfold save. destruct (saveError w m1); cbn [fst snd]; by repeat split.
Qed.

Lemma terminal_guard_test s :
  negb (status_eqb s DELETED) && negb (status_eqb s UNKNOWN) = true
  ↔ ¬ terminal s.
Proof. unfold terminal. destruct s; simpl; split; (done || naive_solver). Qed.

Lemma updateSingleVariant_effect w m a a4 p p4 st v :
  let r := Sync.updateSingleVariant w m a a4 p p4 st in
  (flagged v a a4 p p4 = false → flagged (negb v) a a4 p p4 = true →
   ¬ terminal (statusOf v m) →
   statusOf v r.1 = DELETED ∧ linkageOf v r.1 = noLinkage
   ∧ saved r.2 = saved st ++ [r.1])
  ∧ (flagged v a a4 p p4 = true ∨ flagged (negb v) a a4 p p4 = false
     ∨ terminal (statusOf v m) →
     statusOf v r.1 = statusOf v m ∧ linkageOf v r.1 = linkageOf v m).
Proof.
  cbn zeta. unfold Sync.updateSingleVariant.
  pose proof (terminal_guard_test (status m)) as T.
  pose proof (terminal_guard_test (status4k m)) as T4.
  pose proof (mediaUpdater_fields w m false st) as U.
  pose proof (mediaUpdater_fields w m true st) as U4.
  cbn zeta in U, U4. cbn [negb statusOf] in U, U4.
  destruct U as (U1 & U2 & U3 & U4' & U5).
  destruct U4 as (V1 & V2 & V3 & V4 & V5).
  destruct (negb a && (a4 || p4) && negb p) eqn:C1.
  - (* the standard variant is the missing one *)
    assert (C2 : (a || p) && negb a4 && negb p4 = false)
      by (destruct a, a4, p, p4; done).
    rewrite C2.
    assert (Fl : flagged false a a4 p p4 = false ∧ flagged true a a4 p p4 = true)
      by (destruct a, a4, p, p4; done).
    destruct Fl as [Fl Fl4].
    destruct (negb (status_eqb (status m) DELETED)
              && negb (status_eqb (status m) UNKNOWN)) eqn:G.
    + destruct (Sync.mediaUpdater w m false st) as [m1 st1].
      cbn [fst snd] in *. destruct v; cbn [negb statusOf] in *; split.
      * intros X. congruence.
      * intros _. by split.
      * intros _ _ _. by repeat split.
      * intros [X|[X|X]]; [congruence|congruence|]. by destruct (proj1 T eq_refl).
    + cbn [fst snd]. destruct v; cbn [negb statusOf]; split; try done.
      * congruence.
      * intros _ _ N. apply T in N. congruence.
  - destruct ((a || p) && negb a4 && negb p4) eqn:C2.
    + (* the 4K variant is the missing one *)
      assert (Fl : flagged false a a4 p p4 = true ∧ flagged true a a4 p p4 = false)
        by (destruct a, a4, p, p4; done).
      destruct Fl as [Fl Fl4].
      destruct (negb (status_eqb (status4k m) DELETED)
                && negb (status_eqb (status4k m) UNKNOWN)) eqn:G.
      * destruct (Sync.mediaUpdater w m true st) as [m1 st1].
        cbn [fst snd] in *. destruct v; cbn [negb statusOf] in *; split.
        -- intros _ _ _. by repeat split.
        -- intros [X|[X|X]]; [congruence|congruence|]. by destruct (proj1 T4 eq_refl).
        -- intros X. congruence.
        -- intros _. by split.
      * cbn [fst snd]. destruct v; cbn [negb statusOf]; split; try done.
        -- intros _ _ N. apply T4 in N. congruence.
        -- congruence.
    + (* both are found, or both are missing *)
      cbn [fst snd]. split; [|done].
      intros X Y. exfalso. destruct v, a, a4, p, p4; done.
Qed.

Lemma flagged_found w st media v a a4 p p4 :
  (p = true ↔ inPlex w st media false) →
  (p4 = true ↔ inPlex w st media true) →
  (a = true ↔ inArr w st media false) →
  (a4 = true ↔ inArr w st media true) →
  flagged v a a4 p p4 = true ↔ found w st media v.
Proof.
  intros P P4 A A4. unfold flagged, found.
  destruct v; rewrite orb_true_iff; tauto.
Qed.

Lemma mediaExists_unfold w media st :
  ∃ a a4 p p4 st1,
    (p = true ↔ inPlex w st media false)
    ∧ (p4 = true ↔ inPlex w st media true)
    ∧ (a = true ↔ inArr w st media false)
    ∧ (a4 = true ↔ inArr w st media true)
    ∧ storeEq st st1
    ∧ ((p && p4 = true ∧ (Sync.mediaExists w media st).1.2 = media
        ∧ storeEq st (Sync.mediaExists w media st).2)
       ∨ ((Sync.mediaExists w media st).1.2
          = (Sync.updateSingleVariant w media a a4 p p4 st1).1
          ∧ storeEq (Sync.updateSingleVariant w media a a4 p p4 st1).2
              (Sync.mediaExists w media st).2)).
Proof.
  unfold Sync.mediaExists.
  destruct (existsInPlex_spec w media st) as (P & P4 & R & S).
  pose proof (existsInPlex_store w media st) as E.
  destruct (Sync.existsInPlex w media st) as [[p p4] st1].
  cbn [fst snd] in P, P4, R, S, E.
  pose proof (inArr_spec w st media false) as A.
  pose proof (inArr_spec w st media true) as A4.
  destruct (mediaType media) eqn:MT.
  - pose proof (radarrLoop_flags w media (radarrServers st1) true true st1) as F.
    pose proof (foldl_store (Sync.radarrServerStep w media) (radarrServers st1)
                  (radarrServerStep_store w media) (true, true, st1)) as H.
    unfold Sync.mediaExistsInRadarr.
    destruct (foldl _ _ _) as [[x x4] st2]. cbn [fst snd] in F, H.
    injection F as -> ->. rewrite R in *.
    eexists _, _, p, p4, st2. do 4 (split; [done|]).
    split; [by eapply storeEq_trans|].
    destruct (p && p4) eqn:B.
    + left. split; [done|]. split; [done|exact E].
    + right. destruct (Sync.updateSingleVariant _ _ _ _ _ _ _) as [m1 st3].
      cbn [fst snd].
      destruct (_ || _ || _ || _); cbn [fst snd]; by split.
  - pose proof (sonarrLoop_flags w media (sonarrServers st1) true true st1) as F.
    pose proof (foldl_store (Sync.sonarrServerStep w media) (sonarrServers st1)
                  (sonarrServerStep_store w media) (true, true, st1)) as H.
    unfold Sync.mediaExistsInSonarr.
    destruct (foldl _ _ _) as [[x x4] st2]. cbn [fst snd] in F, H.
    injection F as -> ->. rewrite S in *.
    eexists _, _, p, p4, st2. do 4 (split; [done|]).
    split; [by eapply storeEq_trans|].
    destruct (p && p4) eqn:B.
    + left. split; [done|]. split; [done|exact E].
    + right. destruct (Sync.updateSingleVariant _ _ _ _ _ _ _) as [m1 st3].
      cbn [fst snd].
      destruct (_ || _ || _ || _); cbn [fst snd]; by split.
Qed.

(** X2.  [mediaExists] removes a variant of the record exactly when that
    variant is found nowhere, the other variant is found somewhere, and
    the status of the variant is neither DELETED nor UNKNOWN: the status
    becomes DELETED, the linkage fields of the variant are cleared and the
    record is saved.  In every other case the status and the linkage of
    the variant are the ones the record had, whatever happens to the other
    variant. *)
Theorem variant_removal w media st v :
  let r := Sync.mediaExists w media st in
  (¬ found w st media v → found w st media (negb v) →
   ¬ terminal (statusOf v media) →
   statusOf v r.1.2 = DELETED ∧ linkageOf v r.1.2 = noLinkage
   ∧ saved r.2 = saved st ++ [r.1.2])
  ∧ (found w st media v ∨ ¬ found w st media (negb v)
     ∨ terminal (statusOf v media) →
     statusOf v r.1.2 = statusOf v media
     ∧ linkageOf v r.1.2 = linkageOf v media).
Proof.
  cbn zeta.
  destruct (mediaExists_unfold w media st)
    as (a & a4 & p & p4 & st1 & P & P4 & A & A4 & E1 & C).
  pose proof (flagged_found w st media v a a4 p p4 P P4 A A4) as Fv.
  pose proof (flagged_found w st media (negb v) a a4 p p4 P P4 A A4) as Fn.
  destruct C as [(B & -> & E2)|[-> E2]].
  - split; [|done]. intros N. exfalso. apply N. left.
    apply andb_true_iff in B as [Bp Bp4]. destruct v; tauto.
  - destruct (updateSingleVariant_effect w media a a4 p p4 st1 v) as [U1 U2].
    cbn zeta in U1, U2. split.
    + intros N F T.
      destruct (U1) as (X1 & X2 & X3); [|by apply Fn|done|].
      { destruct (flagged v a a4 p p4); [|done]. exfalso. by apply N, Fv. }
      repeat split; [done|done|].
      destruct E1 as [_ <-]. destruct E2 as [_ ->]. exact X3.
    + intros H. apply U2. destruct H as [H|[H|H]]; [left; by apply Fv| |by right; right].
      right; left. destruct (flagged (negb v) a a4 p p4); [|done].
      exfalso. by apply H, Fn.
Qed.

Lemma found_spec w st media v :
  found w st media v ↔ foundb w st media v = true.
Proof.
  unfold found, foundb. rewrite orb_true_iff, inArr_spec.
  destruct (existsInPlex_spec w media st) as (P & P4 & _).
  destruct v; [rewrite P4|rewrite P]; by destruct (mediaType media).
Qed.

Lemma variant_removal_witness :
  let r := Sync.mediaExists standardLost movieBoth (ready standardLost) in
  (statusOf false r.1.2 = DELETED ∧ linkageOf false r.1.2 = noLinkage
   ∧ saved r.2 = saved (ready standardLost) ++ [r.1.2])
  ∧ statusOf true r.1.2 = AVAILABLE
  ∧ linkageOf true r.1.2 = linkageOf true movieBoth.
Proof.
  cbn zeta. split.
  - apply (variant_removal standardLost movieBoth (ready standardLost) false).
    + rewrite found_spec. by vm_compute.
    + rewrite found_spec. by vm_compute.
    + intros [H|H]; by vm_compute in H.
  - apply (variant_removal standardLost movieBoth (ready standardLost) true).
    left. rewrite found_spec. by vm_compute.
Defined.

(** ** The cascade of mediaUpdater over the seasons *)

Lemma lookup_updSeason_ne m r r' f :
  r ≠ r' → seasonObjs (updSeason r f m) !! r' = seasonObjs m !! r'.
Proof.
  intros N. unfold updSeason. destruct (seasonObjs m !! r); [|done].
  simpl. by apply list_lookup_insert_ne.
Qed.

Lemma deleteAvailableSeasons_lookup v refs :
  ∀ m r s,
    seasonObjs m !! r = Some s →
    seasonObjs
      (foldl
         (λ m r,
            updSeason r
              (λ season,
                 if status_eqb (seasonStatusOf v season) AVAILABLE
                 then setSeasonStatusOf v DELETED season
                 else season) m)
         m refs) !! r
    = Some (if bool_decide (r ∈ refs ∧ seasonStatusOf v s = AVAILABLE)
            then setSeasonStatusOf v DELETED s else s).
Proof.
  induction refs as [|r0 refs IH]; intros m r s E; cbn [foldl].
  - rewrite E. rewrite bool_decide_eq_false_2; [done|].
    intros [H _]. by apply elem_of_nil in H.
  - destruct (decide (r0 = r)) as [->|N].
    + erewrite IH; [|by apply lookup_updSeason].
      destruct (status_eqb (seasonStatusOf v s) AVAILABLE) eqn:A.
      * apply status_eqb_true in A.
        rewrite bool_decide_eq_false_2.
        2:{ intros [_ H]. rewrite seasonStatusOf_set in H.
            by destruct (decide (v = v)). }
        rewrite bool_decide_eq_true_2; [done|].
        split; [apply elem_of_cons; by left|done].
      * apply status_eqb_false in A.
        rewrite !bool_decide_eq_false_2; [done| |]; by intros [_ H].
    + erewrite IH; [|by rewrite lookup_updSeason_ne].
      f_equal. rewrite (bool_decide_ext (r ∈ r0 :: refs ∧ seasonStatusOf v s = AVAILABLE)
                          (r ∈ refs ∧ seasonStatusOf v s = AVAILABLE)); [done|].
      rewrite elem_of_cons. naive_solver.
Qed.

(** X3.  [mediaUpdater] on a series sets to DELETED, in the variant it
    removes, every season that the array [media.seasons] refers to and
    whose status in that variant is AVAILABLE; a season with any other
    status there (PARTIALLY_AVAILABLE, PENDING, ...) keeps it.  The status
    of the seasons in the other variant and their numbers are not touched,
    and the seasons of a movie are left alone. *)
Theorem mediaUpdater_seasons w media v st r s :
  seasonObjs media !! r = Some s →
  ∃ s',
    seasonObjs (Sync.mediaUpdater w media v st).1 !! r = Some s'
    ∧ seasonNumber s' = seasonNumber s
    ∧ seasonStatusOf (negb v) s' = seasonStatusOf (negb v) s
    ∧ seasonStatusOf v s'
      = if bool_decide (mediaType media = TV ∧ r ∈ seasons media
                        ∧ seasonStatusOf v s = AVAILABLE)
        then DELETED else seasonStatusOf v s.
Proof.
  intros E.
  assert (M : (Sync.mediaUpdater w media v st).1
              = let m0 :=
                  setRatingKeyOf v None
                    (setExternalServiceSlugOf v None
                       (setExternalServiceIdOf v None
                          (setServiceIdOf v None (setStatusOf v DELETED media)))) in
                if bool_decide (mediaType media = TV)
                then Sync.deleteAvailableSeasons v m0 else m0).
  { unfold Sync.mediaUpdater. by destruct (save w _ _) as [[u|e] st1]. }
  rewrite M. clear M. cbn zeta.
  set (m0 := setRatingKeyOf v None _).
  assert (E0 : seasonObjs m0 !! r = Some s) by (subst m0; by destruct v).
  assert (R0 : seasons m0 = seasons media) by (subst m0; by destruct v).
  destruct (bool_decide (mediaType media = TV)) eqn:T.
  - apply bool_decide_eq_true in T. unfold Sync.deleteAvailableSeasons.
    rewrite (deleteAvailableSeasons_lookup v (seasons m0) m0 r s E0), R0.
    eexists. split; [done|].
    destruct (bool_decide (r ∈ seasons media ∧ seasonStatusOf v s = AVAILABLE)) eqn:B.
    + apply bool_decide_eq_true in B as [B1 B2].
      rewrite bool_decide_eq_true_2 by done.
      by destruct v.
    + apply bool_decide_eq_false in B.
      rewrite bool_decide_eq_false_2 by tauto. done.
  - apply bool_decide_eq_false in T.
    exists s. rewrite bool_decide_eq_false_2 by tauto. done.
Qed.

Lemma mediaUpdater_seasons_witness :
  ∃ s',
    seasonObjs (Sync.mediaUpdater offline showTwo true (ready offline)).1 !! 0%nat
    = Some s'
    ∧ seasonNumber s' = 1
    ∧ seasonStatusOf false s' = AVAILABLE
    ∧ seasonStatusOf true s' = DELETED.
Proof.
  destruct (mediaUpdater_seasons offline showTwo true (ready offline) 0%nat
              (mkSeason 1 AVAILABLE AVAILABLE) eq_refl)
    as (s' & E & N & O & S).
  exists s'. repeat split; [exact E|exact N|exact O|].
  rewrite S. rewrite bool_decide_eq_true_2; [done|].
  repeat split. apply elem_of_cons. by left.
Defined.

Lemma shrinks_refl rows : shrinks rows rows.
Proof. apply Forall_Forall2_diag, Forall_forall. by intros. Qed.

Lemma shrinks_trans a b c : shrinks a b → shrinks b c → shrinks a c.
Proof.
  unfold shrinks. intros H1 H2. eapply Forall2_trans; [|exact H1|exact H2].
  intros x y z [I1 E1] [I2 E2]. split; [congruence|auto].
Qed.

Lemma shrinks_ids a b : shrinks a b → map mid b = map mid a.
Proof. induction 1 as [|x y a b [I _] _ IH]; simpl; [done|]. by rewrite I, IH. Qed.

Lemma shrinks_sublist a b : shrinks a b → eligibleIds b `sublist_of` eligibleIds a.
Proof.
  unfold eligibleIds.
  induction 1 as [|x y a b [I E] _ IH]; simpl; [constructor|].
  destruct (eligible y) eqn:Y.
  - rewrite (E eq_refl). simpl. rewrite I. by constructor.
  - destruct (eligible x); simpl; [by constructor|done].
Qed.

Lemma sublist_drop_mono {A} (l1 l2 : list A) :
  l1 `sublist_of` l2 → ∀ n, drop n l1 `sublist_of` drop n l2.
Proof.
  induction 1 as [|x l1 l2 H IH|x l1 l2 H IH]; intros n.
  - by rewrite drop_nil.
  - destruct n; simpl; [by constructor|apply IH].
  - destruct n; simpl; [by constructor|].
    etrans; [|apply (IH n)].
    replace (S n) with (n + 1)%nat by lia. rewrite <- drop_drop.
    apply sublist_drop.
Qed.

Lemma NoDup_map_eq {A B} (f : A → B) (l : list A) x y :
  NoDup (map f l) → x ∈ l → y ∈ l → f x = f y → x = y.
Proof.
  induction l as [|a l IH]; simpl; intros N Hx Hy E.
  - by apply elem_of_nil in Hx.
  - apply NoDup_cons in N as [Na N].
    apply elem_of_cons in Hx as [->|Hx]; apply elem_of_cons in Hy as [->|Hy].
    + done.
    + exfalso. apply Na. rewrite E. apply list_elem_of_In, in_map.
      by apply list_elem_of_In.
    + exfalso. apply Na. rewrite <- E. apply list_elem_of_In, in_map.
      by apply list_elem_of_In.
    + by apply IH.
Qed.

(** Saving a record that has the id of a row that matched the [where]
    clause cannot make the list of the matching rows longer. *)
Lemma shrinks_upsert rows0 rows row0 x :
  NoDup (map mid rows0) → shrinks rows0 rows →
  row0 ∈ rows0 → eligible row0 = true → mid x = mid row0 →
  shrinks rows0 (upsert x rows).
Proof.
  intros N S I E X.
  assert (Ids : map mid rows = map mid rows0) by by apply shrinks_ids.
  unfold upsert.
  assert (Ex : existsb (λ r, mid r =? mid x) rows = true).
  { apply existsb_exists.
    assert (H : mid x ∈ map mid rows).
    { rewrite Ids, X. apply list_elem_of_In, in_map. by apply list_elem_of_In. }
    apply list_elem_of_In, in_map_iff in H as (r & Hr & Ir).
    exists r. split; [done|]. by apply Z.eqb_eq. }
  rewrite Ex. clear Ex Ids. unfold shrinks in *.
  assert (G : ∀ l0 l,
             Forall2 (λ row0 row, mid row = mid row0
                                  ∧ (eligible row = true → eligible row0 = true)) l0 l →
             (∀ r0, r0 ∈ l0 → r0 ∈ rows0) →
             Forall2 (λ row0 row, mid row = mid row0
                                  ∧ (eligible row = true → eligible row0 = true)) l0
               (map (λ r, if mid r =? mid x then x else r) l)).
  { induction 1 as [|r0 r l0 l [Hi He] _ IH]; intros Sub; simpl; [constructor|].
    constructor.
    - destruct (mid r =? mid x) eqn:Q; [|done].
      apply Z.eqb_eq in Q.
      assert (r0 = row0) as ->.
      { apply (NoDup_map_eq mid rows0); [done| |done|congruence].
        apply Sub, elem_of_cons. by left. }
      split; [congruence|done].
    - apply IH. intros r1 H1. apply Sub, elem_of_cons. by right. }
  by apply G.
Qed.

Lemma shrinks_upserts rows0 row0 l :
  NoDup (map mid rows0) → row0 ∈ rows0 → eligible row0 = true →
  Forall (λ x, mid x = mid row0) l →
  ∀ rows, shrinks rows0 rows →
          shrinks rows0 (foldl (λ rows x, upsert (loaded x) rows) rows l).
Proof.
  intros N I E. induction 1 as [|x l Hx _ IH]; intros rows S; simpl; [done|].
  apply IH. by apply (shrinks_upsert rows0 rows row0).
Qed.

Lemma processMedia_shrinks w rows0 m st :
  NoDup (map mid rows0) →
  (∃ row0, row0 ∈ rows0 ∧ eligible row0 = true ∧ mid m = mid row0) →
  shrinks rows0 (db st) →
  shrinks rows0 (db (Sync.processMedia w m st).2).
Proof.
  intros N (row0 & I & E & X) S.
  destruct (Sync.processMedia w m st) as [[o m1] st1] eqn:P.
  apply processMedia_Step in P as [_ (l & l' & _ & _ & D & F)].
  cbn [snd]. rewrite D. apply (shrinks_upserts rows0 row0); try done.
  eapply Forall_impl; [exact F|]. intros x (Hx & _). simpl in Hx. congruence.
Qed.

Lemma consumePage_scan w c rows0 page :
  NoDup (map mid rows0) → pageOf rows0 page →
  ∀ seen st,
    shrinks rows0 (db st) →
    shrinks rows0 (db (Sync.consumePage w c seen page st).2)
    ∧ (∃ k, (Sync.consumePage w c seen page st).1.2
            = seen ++ take k (map mid page))
    ∧ ((Sync.consumePage w c seen page st).1.1 = Sync.Normal →
       (Sync.consumePage w c seen page st).1.2 = seen ++ map mid page).
Proof.
  intros N. induction page as [|m page IH]; intros P seen st Sh;
    cbn [Sync.consumePage].
  - cbn [fst snd]. split; [done|]. split; [exists 0%nat|]; by rewrite app_nil_r.
  - apply Forall_cons in P as [Pm P].
    set (st1 := if c (length seen) then Sync.cancel st else st).
    assert (D1 : db st1 = db st) by (subst st1; by destruct (c _)).
    destruct (negb (running st1)).
    { cbn [fst snd]. rewrite D1. split; [done|].
      split; [exists 0%nat; by rewrite app_nil_r|done]. }
    pose proof (processMedia_shrinks w rows0 m st1 N Pm) as S1.
    rewrite D1 in S1. specialize (S1 Sh).
    destruct (Sync.processMedia w m st1) as [[o m1] st2].
    cbn [snd] in S1. destruct o.
    + destruct (IH P (seen ++ [mid m]) st2 S1) as (H1 & (k & H2) & H3).
      split; [done|]. split.
      * exists (S k). rewrite H2. cbn [map take]. by rewrite <- app_assoc.
      * intros H. rewrite (H3 H). cbn [map]. by rewrite <- app_assoc.
    + cbn [fst snd]. split; [done|]. split; [|done].
      exists 1%nat. cbn [map take]. by rewrite take_0.
Qed.

Lemma find_page rows skip n :
  map mid (find rows skip n) = take n (drop skip (eligibleIds rows))
  ∧ pageOf rows (find rows skip n).
Proof.
  unfold find, eligibleIds. split.
  - rewrite map_map. cbn [loaded set_seasons mid].
    change (map (λ x, mid x)) with (map mid).
    generalize (List.filter eligible rows). intros l.
    revert skip n. induction l as [|x l IH]; intros skip n.
    + simpl. by rewrite !drop_nil, !take_nil.
    + destruct skip; simpl.
      * destruct n; simpl; [done|]. f_equal. apply (IH 0%nat).
      * apply IH.
  - apply Forall_forall. intros m Hm.
    apply list_elem_of_In, in_map_iff in Hm as (r & <- & Hr).
    apply list_elem_of_In in Hr.
    apply elem_of_take in Hr as (i & Hr & _).
    rewrite lookup_drop in Hr. apply list_elem_of_lookup_2 in Hr.
    apply list_elem_of_In, filter_In in Hr as [Hr E].
    exists r. split; [by apply list_elem_of_In|]. by split.
Qed.

Lemma forAwait_scan w c ps ids0 fuel :
  ∀ offset seen st,
    NoDup (map mid (db st)) →
    seen ++ drop offset (eligibleIds (db st)) `sublist_of` ids0 →
    (Sync.forAwait w c ps fuel offset seen st).1.2 `sublist_of` ids0.
Proof.
  induction fuel as [|fuel IH]; intros offset seen st N H; cbn [Sync.forAwait].
  - cbn [fst snd]. etrans; [|exact H]. by apply sublist_inserts_r.
  - destruct (find_page (db st) offset ps) as [Ids P].
    destruct (consumePage_scan w c (db st) (find (db st) offset ps) N P seen st
                (shrinks_refl _)) as (S & (k & K) & Nm).
    assert (Pre : ∀ j, seen ++ take j (map mid (find (db st) offset ps))
                       `sublist_of` ids0).
    { intros j. etrans; [|exact H]. apply sublist_app; [done|].
      rewrite Ids. etrans; apply sublist_take. }
    destruct (Sync.consumePage w c seen _ st) as [[c1 seen1] st1].
    cbn [fst snd] in S, K, Nm.
    destruct c1; cbn [fst snd]; try (rewrite K; apply Pre).
    destruct (find (db st) offset ps) eqn:F; [cbn [fst snd]; rewrite K; apply Pre|].
    rewrite <- F in *. clear F.
    apply IH.
    + by rewrite (shrinks_ids _ _ S).
    + rewrite (Nm eq_refl), Ids. etrans; [|exact H]. rewrite <- app_assoc.
      apply sublist_app; [done|].
      rewrite <- (take_drop ps (drop offset (eligibleIds (db st)))) at 2.
      apply sublist_app; [done|]. rewrite drop_drop.
      apply sublist_drop_mono. by apply shrinks_sublist.
Qed.

Lemma runTry_db_entry w st :
  db (Sync.initPlexClient w
        (set_sonarrServers (List.filter syncEnabled (settings_sonarr w))
           (set_radarrServers (List.filter syncEnabled (settings_radarr w))
              (set_sonarrSeasonsCache ∅
                 (set_plexSeasonsCache ∅ (set_running true st)))))).2
  = db st.
Proof.
  set (st0 := set_sonarrServers _ _).
  by destruct (initPlexClient_cases w st0) as [[e ->]|[->|[a ->]]].
Qed.

(** X4.  When the ids of the table are unique, the records that a run
    starts to process are rows that matched the [where] clause of the
    loader when the run began, taken in the order of the table, and no
    record is processed twice - whatever the collaborators answer,
    whenever the run is cancelled and although the loader re-queries the
    table with a growing offset while the run is writing to it. *)
Theorem scan_in_table_order w cancelled st :
  NoDup (map mid (db st)) →
  (Sync.run w cancelled st).1.2 `sublist_of` eligibleIds (db st)
  ∧ NoDup (Sync.run w cancelled st).1.2.
Proof.
  intros N.
  assert (U : NoDup (eligibleIds (db st))).
  { unfold eligibleIds.
    eapply sublist_NoDup; [exact N|].
    clear. induction (db st) as [|x l IH]; simpl; [constructor|].
    destruct (eligible x); simpl; by constructor. }
  assert (H : (Sync.run w cancelled st).1.2 `sublist_of` eligibleIds (db st)).
  { unfold Sync.run, Sync.runTry.
    pose proof (runTry_db_entry w st) as D.
    destruct (Sync.initPlexClient w _) as [[[]|e] st1]; cbn [snd] in D;
      [|cbn [fst snd]; apply sublist_nil_l].
    destruct (plexClient st1); [|cbn [fst snd]; apply sublist_nil_l].
    assert (F : (Sync.forAwait w cancelled Sync.pageSize
                   (S (length (db (logger LInfo MsgStarting st1)))) 0%nat []
                   (logger LInfo MsgStarting st1)).1.2
                `sublist_of` eligibleIds (db st)).
    { apply forAwait_scan; change (db (logger LInfo MsgStarting st1)) with (db st1);
        rewrite D; [exact N|done]. }
    destruct (Sync.forAwait _ _ _ _ _ _ _) as [[c1 seen1] st2].
    by destruct c1. }
  split; [exact H|]. by eapply sublist_NoDup.
Qed.

Lemma scan_in_table_order_witness :
  (Sync.run offline never (newSync [movieA; movieB])).1.2
  `sublist_of` eligibleIds [movieA; movieB]
  ∧ NoDup (Sync.run offline never (newSync [movieA; movieB])).1.2.
Proof.
  apply (scan_in_table_order offline never (newSync [movieA; movieB])).
  apply (bool_decide_unpack _). by vm_compute.
Defined.

Lemma sameConfig_refl st : sameConfig st st.
Proof. by repeat split. Qed.

Lemma sameConfig_trans a b c : sameConfig a b → sameConfig b c → sameConfig a c.
Proof.
  intros (A1 & A2 & A3 & A4) (B1 & B2 & B3 & B4).
  repeat split; congruence.
Qed.

Lemma sameConfig_logger l x st : sameConfig st (logger l x st).
Proof. by repeat split. Qed.

Lemma sameConfig_logger_r st st' l x :
  sameConfig st st' → sameConfig st (logger l x st').
Proof. intros H. eapply sameConfig_trans; [exact H|apply sameConfig_logger]. Qed.

Lemma sameConfig_save w m st : sameConfig st (save w m st).2.
Proof. unfold save. destruct (saveError w m); by repeat split. Qed.

Lemma foldl_config {A} (step : bool * bool * Sys → A → bool * bool * Sys) l :
  (∀ acc x, sameConfig acc.2 (step acc x).2) →
  ∀ acc, sameConfig acc.2 (foldl step acc l).2.
Proof.
  intros H. induction l as [|x l IH]; intros acc; simpl.
  - apply sameConfig_refl.
  - eapply sameConfig_trans; [apply H | apply IH].
Qed.

Ltac config_crush :=
  repeat first
    [ progress simplify_eq/=
    | apply sameConfig_refl
    | apply sameConfig_logger
    | case_match ];
  try (repeat split; reflexivity).

Lemma mediaUpdater_config w m v st : sameConfig st (Sync.mediaUpdater w m v st).2.
Proof.
  unfold Sync.mediaUpdater.
  set (m1 := if bool_decide (mediaType m = TV) then _ else _).
  set (st0 := logger LInfo _ st).
  pose proof (sameConfig_save w m1 st0) as H.
  destruct (save w m1 st0) as [[u|e] st1]; cbn [fst snd] in *.
  - eapply sameConfig_trans; [apply sameConfig_logger|exact H].
  - apply sameConfig_logger_r.
    eapply sameConfig_trans; [apply sameConfig_logger|exact H].
Qed.

Lemma updateSingleVariant_config w m a a4 p p4 st :
  sameConfig st (Sync.updateSingleVariant w m a a4 p p4 st).2.
Proof.
  unfold Sync.updateSingleVariant.
  destruct (if negb a && (a4 || p4) && negb p then _ else _) as [m1 st1] eqn:E1.
  assert (C1 : sameConfig st st1).
  { destruct (negb a && (a4 || p4) && negb p); [|injection E1 as <- <-; apply sameConfig_refl].
    destruct (_ && _) in E1; [|injection E1 as <- <-; apply sameConfig_refl].
    pose proof (mediaUpdater_config w m false st) as H. by rewrite E1 in H. }
  eapply sameConfig_trans; [exact C1|].
  destruct ((a || p) && negb a4 && negb p4); [|apply sameConfig_refl].
  destruct (negb (status_eqb (status4k m1) DELETED)
            && negb (status_eqb (status4k m1) UNKNOWN)); [|apply sameConfig_refl].
  apply mediaUpdater_config.
Qed.

Lemma radarrServerStep_config w m acc server :
  sameConfig acc.2 (Sync.radarrServerStep w m acc server).2.
Proof.
  destruct acc as [[a b] st]. unfold Sync.radarrServerStep. config_crush.
Qed.

Lemma sonarrServerStep_config w m acc server :
  sameConfig acc.2 (Sync.sonarrServerStep w m acc server).2.
Proof.
  destruct acc as [[a b] st]. unfold Sync.sonarrServerStep, Sync.fetchSeries.
  config_crush.
Qed.

Lemma sonarrSeasonStep_config w m s acc server :
  sameConfig acc.2 (Sync.sonarrSeasonStep w m s acc server).2.
Proof.
  destruct acc as [[a b] st]. unfold Sync.sonarrSeasonStep, Sync.cachedSeasons.
  config_crush.
Qed.

Lemma mediaExistsInRadarr_config w m p p4 st :
  sameConfig st (Sync.mediaExistsInRadarr w m p p4 st).2.
Proof.
  unfold Sync.mediaExistsInRadarr.
  pose proof (foldl_config (Sync.radarrServerStep w m) (radarrServers st)
                (radarrServerStep_config w m) (true, true, st)) as H.
  destruct (foldl _ _ _) as [[a b] st1]. simpl in H.
  pose proof (updateSingleVariant_config w m a b p p4 st1) as U.
  destruct (Sync.updateSingleVariant _ _ _ _ _ _ _) as [m1 st2].
  by eapply sameConfig_trans.
Qed.

Lemma mediaExistsInSonarr_config w m p p4 st :
  sameConfig st (Sync.mediaExistsInSonarr w m p p4 st).2.
Proof.
  unfold Sync.mediaExistsInSonarr.
  pose proof (foldl_config (Sync.sonarrServerStep w m) (sonarrServers st)
                (sonarrServerStep_config w m) (true, true, st)) as H.
  destruct (foldl _ _ _) as [[a b] st1]. simpl in H.
  pose proof (updateSingleVariant_config w m a b p p4 st1) as U.
  destruct (Sync.updateSingleVariant _ _ _ _ _ _ _) as [m1 st2].
  by eapply sameConfig_trans.
Qed.

Lemma existsInPlex_config w m st : sameConfig st (Sync.existsInPlex w m st).2.
Proof. unfold Sync.existsInPlex. config_crush. Qed.

Lemma mediaExists_config w m st : sameConfig st (Sync.mediaExists w m st).2.
Proof.
  unfold Sync.mediaExists.
  pose proof (existsInPlex_config w m st) as H.
  destruct (Sync.existsInPlex w m st) as [[p p4] st1]. simpl in H.
  destruct (p && p4); [done|].
  destruct (mediaType m).
  - pose proof (mediaExistsInRadarr_config w m p p4 st1) as R.
    destruct (Sync.mediaExistsInRadarr w m p p4 st1) as [[r m1] st2].
    destruct r; cbn [snd] in *; [apply sameConfig_logger_r|];
      by eapply sameConfig_trans.
  - pose proof (mediaExistsInSonarr_config w m p p4 st1) as R.
    destruct (Sync.mediaExistsInSonarr w m p p4 st1) as [[r m1] st2].
    destruct r; cbn [snd] in *; [apply sameConfig_logger_r|];
      by eapply sameConfig_trans.
Qed.

Lemma plexSeasonProbe_config w key s st :
  sameConfig st (Sync.plexSeasonProbe w key s st).2.
Proof. unfold Sync.plexSeasonProbe. config_crush. Qed.

Lemma seasonExistsInPlex_config w m s st :
  sameConfig st (Sync.seasonExistsInPlex w m s st).2.
Proof.
  unfold Sync.seasonExistsInPlex.
  destruct (if truthyS (ratingKey m) then _ else _) as [first st1] eqn:E1.
  assert (C1 : sameConfig st st1).
  { destruct (truthyS (ratingKey m)); [|injection E1 as <- <-; apply sameConfig_refl].
    pose proof (plexSeasonProbe_config w (default EmptyString (ratingKey m)) s st) as H.
    by rewrite E1 in H. }
  destruct first as [b|e].
  - destruct (if truthyS (ratingKey4k m) then _ else _) as [second st2] eqn:E2.
    assert (C2 : sameConfig st1 st2).
    { destruct (truthyS (ratingKey4k m)); [|injection E2 as <- <-; apply sameConfig_refl].
      pose proof (plexSeasonProbe_config w (default EmptyString (ratingKey4k m)) s st1) as H.
      by rewrite E2 in H. }
    destruct second as [b4|e]; cbn [snd].
    + by eapply sameConfig_trans.
    + destruct (negb _); [apply sameConfig_logger_r|]; by eapply sameConfig_trans.
  - cbn [snd]. destruct (negb _); [by apply sameConfig_logger_r|done].
Qed.

Lemma removeSeasonVariant_config m r v st :
  sameConfig st (Sync.removeSeasonVariant m r v st).2.
Proof. unfold Sync.removeSeasonVariant. config_crush. Qed.

Lemma seasonExistsInSonarr_config w m r p p4 st :
  sameConfig st (Sync.seasonExistsInSonarr w m r p p4 st).2.
Proof.
  unfold Sync.seasonExistsInSonarr.
  pose proof (foldl_config (Sync.sonarrSeasonStep w m (Sync.seasonAt m r))
                (sonarrServers st) (sonarrSeasonStep_config w m _) (true, true, st)) as H.
  destruct (foldl _ _ _) as [[a b] st1]. simpl in H.
  destruct (if negb a && (b || p4) && negb p then _ else _) as [m1 st2] eqn:E1.
  assert (C1 : sameConfig st1 st2).
  { destruct (negb a && (b || p4) && negb p); [|injection E1 as <- <-; apply sameConfig_refl].
    pose proof (removeSeasonVariant_config m r false st1) as X. by rewrite E1 in X. }
  destruct (if (a || p) && negb b && negb p4 then _ else _) as [m2 st3] eqn:E2.
  assert (C2 : sameConfig st2 st3).
  { destruct ((a || p) && negb b && negb p4); [|injection E2 as <- <-; apply sameConfig_refl].
    pose proof (removeSeasonVariant_config m1 r true st2) as X. by rewrite E2 in X. }
  destruct (if negb a || negb b then _ else _) as [m3 st4] eqn:E3.
  assert (C3 : sameConfig st3 st4).
  { destruct (negb a || negb b); [|injection E3 as <- <-; apply sameConfig_refl].
    pose proof (sameConfig_save w (set_seasons (seasons m2 ++ [r]) m2) st3) as X.
    destruct (save w _ st3) as [[u|e] st5]; injection E3 as <- <-;
      [exact X|by apply sameConfig_logger_r]. }
  cbn [snd].
  eapply sameConfig_trans; [exact H|]. eapply sameConfig_trans; [exact C1|].
  by eapply sameConfig_trans.
Qed.

Lemma seasonExists_config w m r st : sameConfig st (Sync.seasonExists w m r st).2.
Proof.
  unfold Sync.seasonExists.
  pose proof (seasonExistsInPlex_config w m (Sync.seasonAt m r) st) as H.
  destruct (Sync.seasonExistsInPlex w m _ st) as [[p p4] st1]. simpl in H.
  destruct (p && p4); [done|].
  pose proof (seasonExistsInSonarr_config w m r p p4 st1) as R.
  destruct (Sync.seasonExistsInSonarr w m r p p4 st1) as [[x m1] st2].
  destruct x; cbn [snd] in *; [apply sameConfig_logger_r|];
    by eapply sameConfig_trans.
Qed.

Lemma markMissing_config m st : sameConfig st (Sync.markMissing m st).2.
Proof. unfold Sync.markMissing. config_crush. Qed.

Lemma demoteParent_config m st : sameConfig st (Sync.demoteParent m st).2.
Proof. unfold Sync.demoteParent. config_crush. Qed.

Lemma seasonTurn_config w e acc r :
  sameConfig acc.2 (Sync.seasonTurn w e acc r).2.
Proof.
  destruct acc as [[d m] st]. unfold Sync.seasonTurn. cbn [snd].
  destruct (if negb e && _ then _ else _) as [[d1 m1] st1] eqn:E1.
  assert (C1 : sameConfig st st1).
  { destruct (negb e && _) in E1; [injection E1 as <- <- <-; apply sameConfig_refl|].
    pose proof (seasonExists_config w m r st) as X.
    destruct (Sync.seasonExists w m r st) as [[x m2] st2]. cbn [snd] in X.
    destruct (negb x); injection E1 as <- <- <-;
      [by apply sameConfig_logger_r|done]. }
  destruct d1; [|done].
  pose proof (demoteParent_config m1 st1) as X.
  destruct (Sync.demoteParent m1 st1) as [m2 st2]. cbn [snd] in *.
  by eapply sameConfig_trans.
Qed.

Lemma seasonLoop_config w e refs :
  ∀ acc, sameConfig acc.2 (foldl (Sync.seasonTurn w e) acc refs).2.
Proof.
  induction refs as [|r refs IH]; intros acc; cbn [foldl].
  - apply sameConfig_refl.
  - eapply sameConfig_trans; [apply seasonTurn_config|apply IH].
Qed.

(** The processing of a record touches neither the flag nor the Plex
    client nor the lists of servers of the instance. *)
Lemma processMedia_config w m st : sameConfig st (Sync.processMedia w m st).2.
Proof.
  unfold Sync.processMedia.
  pose proof (mediaExists_config w m st) as H1.
  destruct (Sync.mediaExists w m st) as [[e m1] st1]. cbn [snd] in H1.
  destruct (if negb e then _ else _) as [m2 st2] eqn:E2.
  assert (C2 : sameConfig st1 st2).
  { destruct (negb e); [|injection E2 as <- <-; apply sameConfig_refl].
    pose proof (markMissing_config m1 st1) as X. by rewrite E2 in X. }
  destruct (match mediaType m2 with TV => _ | MOVIE => _ end)
    as [[d m3] st3] eqn:E3.
  assert (C3 : sameConfig st2 st3).
  { destruct (mediaType m2); [injection E3 as <- <- <-; apply sameConfig_refl|].
    pose proof (seasonLoop_config w e (seasons m2) (false, m2, st2)) as X.
    by rewrite E3 in X. }
  assert (C : sameConfig st st3).
  { eapply sameConfig_trans; [exact H1|]. by eapply sameConfig_trans. }
  destruct (negb e || d); [|done].
  pose proof (sameConfig_save w m3 st3) as X.
  destruct (save w m3 st3) as [[u|x] st4]; cbn [snd] in *;
    by eapply sameConfig_trans.
Qed.

(** ** A run that writes nothing *)

Lemma prefix_squeeze {A} (a b c : list A) :
  a `prefix_of` b → b `prefix_of` c → c = a → b = a.
Proof.
  intros H1 H2 ->. by apply (anti_symm prefix).
Qed.

Lemma consumePage_quiet w page :
  ∀ seen st,
    running st = true →
    saved (Sync.consumePage w never seen page st).2 = saved st →
    (Sync.consumePage w never seen page st).1 = (Sync.Normal, seen ++ map mid page)
    ∧ db (Sync.consumePage w never seen page st).2 = db st
    ∧ running (Sync.consumePage w never seen page st).2 = true.
Proof.
  induction page as [|m page IH]; intros seen st R; cbn [Sync.consumePage].
  - cbn [fst snd map]. by rewrite app_nil_r.
  - change (never (length seen)) with false. cbv iota. rewrite R. cbn [negb].
    pose proof (processMedia_config w m st) as (C & _).
    destruct (Sync.processMedia w m st) as [[o m1] st1] eqn:P.
    cbn [snd] in C.
    pose proof (processMedia_Step _ _ _ _ _ _ P) as [_ (l & _ & L & _)].
    assert (P1 : saved st `prefix_of` saved st1) by (rewrite L; by apply prefix_app_r).
    destruct o.
    + intros S.
      destruct (Sync.consumePage w never (seen ++ [mid m]) page st1)
        as [[c2 seen2] st2] eqn:E2.
      pose proof (consumePage_mono _ _ _ _ _ _ _ _ E2) as [_ P2].
      cbn [snd] in S.
      pose proof (prefix_squeeze _ _ _ P1 P2 S) as Q.
      destruct (processMedia_savedOrSame _ _ _ _ _ _ P Q) as (_ & D & _).
      destruct (IH (seen ++ [mid m]) st1) as (I1 & I2 & I3);
        [congruence|rewrite E2; cbn [snd]; congruence|].
      rewrite E2 in I1, I2, I3. cbn [fst snd] in *.
      split; [|split; [congruence|done]].
      rewrite I1. cbn [map]. by rewrite <- app_assoc.
    + cbn [fst snd]. intros S.
      by destruct (processMedia_savedOrSame _ _ _ _ _ _ P S) as (_ & _ & ?).
Qed.

Lemma forAwait_quiet w ps fuel :
  (0 < ps)%nat →
  ∀ offset seen st,
    running st = true →
    (length (drop offset (eligibleIds (db st))) + ps ≤ ps * fuel)%nat →
    saved (Sync.forAwait w never ps fuel offset seen st).2 = saved st →
    (Sync.forAwait w never ps fuel offset seen st).1
    = (Sync.Normal, seen ++ drop offset (eligibleIds (db st)))
    ∧ db (Sync.forAwait w never ps fuel offset seen st).2 = db st.
Proof.
  intros Hps. induction fuel as [|fuel IH]; intros offset seen st R F;
    cbn [Sync.forAwait]; [lia|].
  destruct (find_page (db st) offset ps) as [Ids _].
  destruct (Sync.consumePage w never seen (find (db st) offset ps) st)
    as [[c1 seen1] st1] eqn:E1.
  pose proof (consumePage_mono _ _ _ _ _ _ _ _ E1) as [_ P1].
  assert (G : saved st1 = saved st →
              c1 = Sync.Normal
              ∧ seen1 = seen ++ map mid (find (db st) offset ps)
              ∧ db st1 = db st ∧ running st1 = true).
  { intros Q. destruct (consumePage_quiet w (find (db st) offset ps) seen st R)
      as (I1 & I2 & I3); [by rewrite E1|].
    rewrite E1 in I1, I2, I3. cbn [fst snd] in *. by injection I1 as -> ->. }
  destruct c1.
  - destruct (find (db st) offset ps) as [|m page] eqn:Pg.
    + cbn [fst snd]. intros S. destruct (G S) as (_ & -> & D & _).
      split; [|done]. f_equal. f_equal. cbn [map] in Ids.
      symmetry in Ids. destruct (drop offset (eligibleIds (db st))) as [|x l]; [done|].
      destruct ps; [lia|done].
    + intros S.
      destruct (Sync.forAwait w never ps fuel (offset + ps) seen1 st1)
        as [[c2 seen2] st2] eqn:E2.
      pose proof (forAwait_mono _ _ _ _ _ _ _ _ _ _ E2) as [_ P2].
      cbn [snd] in S.
      pose proof (prefix_squeeze _ _ _ P1 P2 S) as Q.
      destruct (G Q) as (_ & -> & D & R1).
      assert (Len : (length (drop (offset + ps) (eligibleIds (db st))) + ps
                     ≤ ps * fuel)%nat).
      { rewrite <- drop_drop, length_drop.
        assert (0 < length (drop offset (eligibleIds (db st))))%nat.
        { destruct (drop offset (eligibleIds (db st))); [|simpl; lia].
          rewrite take_nil in Ids. done. }
        clear IH. rewrite Nat.mul_succ_r in F. destruct fuel as [|f]; [lia|].
        rewrite Nat.mul_succ_r. lia. }
      destruct (IH (offset + ps)%nat (seen ++ map mid (m :: page)) st1 R1) as [I1 I2].
      { by rewrite D. }
      { rewrite E2. cbn [snd]. congruence. }
      rewrite E2 in I1, I2. cbn [fst snd] in *. split; [|congruence].
      rewrite I1, D, Ids, <- app_assoc. f_equal. f_equal.
      rewrite <- drop_drop. apply take_drop.
  - cbn [fst snd]. intros S. by destruct (G S).
  - cbn [fst snd]. intros S. by destruct (G S).
Qed.

(** X5.  A run in which [initPlexClient] returns and leaves a Plex
    client in place, which is not cancelled and issues no save, has
    processed every row that matches the [where] clause of the loader,
    each of them once and in the order of the table; it completes
    normally and leaves the table as it was. *)
Theorem quiet_run_scans_everything w st :
  (Sync.initPlexClient w st).1 = Returned tt →
  plexClient (Sync.initPlexClient w st).2 ≠ None →
  saved (Sync.run w never st).2 = saved st →
  (Sync.run w never st).1 = (Sync.Normal, eligibleIds (db st))
  ∧ db (Sync.run w never st).2 = db st.
Proof.
  intros I C. unfold Sync.run, Sync.runTry.
  set (st0 := set_sonarrServers _ _).
  assert (E0 : ∃ st1, Sync.initPlexClient w st0 = (Returned tt, st1)
                      ∧ plexClient st1 ≠ None
                      ∧ db st1 = db st ∧ saved st1 = saved st
                      ∧ running st1 = true).
  { revert I C. subst st0. unfold Sync.initPlexClient.
    destruct (admin w) as [[a|]|e]; [by eauto 10| |done].
    destruct (loggerWarning w) as [[]|e]; [by eauto 10|done]. }
  destruct E0 as (st1 & -> & C0 & D0 & S0 & R0).
  destruct (plexClient st1); [|done].
  pose proof (forAwait_quiet w Sync.pageSize (S (length (db (logger LInfo MsgStarting st1))))
                ltac:(unfold Sync.pageSize; lia) 0%nat []
                (logger LInfo MsgStarting st1) R0) as F.
  destruct (Sync.forAwait _ _ _ _ _ _ _) as [[c1 seen1] st2].
  cbn [fst snd app drop] in F.
  change (db (logger LInfo MsgStarting st1)) with (db st1) in F.
  change (saved (logger LInfo MsgStarting st1)) with (saved st1) in F.
  rewrite D0, S0 in F.
  assert (Len : (length (eligibleIds (db st)) + Sync.pageSize
                 ≤ Sync.pageSize * S (length (db st)))%nat).
  { unfold eligibleIds. rewrite length_map.
    pose proof (filter_length eligible (db st)) as L.
    pose proof (List.length_app (List.filter eligible (db st))
                  (List.filter (λ x, negb (eligible x)) (db st))) as L2.
    unfold Sync.pageSize. lia. }
  specialize (F Len).
  destruct c1; cbn [fst snd]; intros S;
    (destruct F as [F1 F2]; [exact S|]); [|done|done].
  split; [exact F1|exact F2].
Qed.

Lemma quiet_run_scans_everything_witness :
  (Sync.run online never (newSync [movieBoth; movieA])).1
  = (Sync.Normal, eligibleIds [movieBoth; movieA])
  ∧ db (Sync.run online never (newSync [movieBoth; movieA])).2
    = [movieBoth; movieA].
Proof.
  apply (quiet_run_scans_everything online (newSync [movieBoth; movieA])).
  - reflexivity.
  - by vm_compute.
  - by vm_compute.
Defined.

Lemma serverless_config st st' : sameConfig st st' → serverless st → serverless st'.
Proof. intros (_ & _ & R & S) [R0 S0]. split; congruence. Qed.

Lemma updateSingleVariant_all_found w m p p4 st :
  Sync.updateSingleVariant w m true true p p4 st = (m, st).
Proof. unfold Sync.updateSingleVariant. by destruct p, p4. Qed.

Lemma mediaExists_serverless w m st :
  serverless st →
  (Sync.mediaExists w m st).1 = (true, m)
  ∧ storeEq st (Sync.mediaExists w m st).2.
Proof.
  intros [R S]. unfold Sync.mediaExists.
  pose proof (existsInPlex_store w m st) as E.
  pose proof (existsInPlex_config w m st) as (_ & _ & R1 & S1).
  destruct (Sync.existsInPlex w m st) as [[p p4] st1]. cbn [fst snd] in *.
  destruct (p && p4); [done|].
  destruct (mediaType m).
  - unfold Sync.mediaExistsInRadarr. rewrite R1, R. cbn [foldl].
    rewrite updateSingleVariant_all_found. cbn [orb fst snd]. split; [done|].
    apply storeEq_trans with st1; [done|apply storeEq_logger].
  - unfold Sync.mediaExistsInSonarr. rewrite S1, S. cbn [foldl].
    rewrite updateSingleVariant_all_found. cbn [orb fst snd]. split; [done|].
    apply storeEq_trans with st1; [done|apply storeEq_logger].
Qed.

Lemma seasonExists_serverless w m r st :
  serverless st →
  (Sync.seasonExists w m r st).1 = (true, m)
  ∧ storeEq st (Sync.seasonExists w m r st).2.
Proof.
  intros [R S]. unfold Sync.seasonExists.
  pose proof (seasonExistsInPlex_store w m (Sync.seasonAt m r) st) as E.
  pose proof (seasonExistsInPlex_config w m (Sync.seasonAt m r) st) as (_ & _ & R1 & S1).
  destruct (Sync.seasonExistsInPlex w m _ st) as [[p p4] st1]. cbn [fst snd] in *.
  destruct (p && p4); [done|].
  unfold Sync.seasonExistsInSonarr. rewrite S1, S. cbn [foldl negb andb orb].
  cbn [fst snd]. split; [done|].
  apply storeEq_trans with st1; [done|apply storeEq_logger].
Qed.

Lemma seasonTurn_serverless w m st r :
  serverless st →
  ∃ st1, Sync.seasonTurn w true (false, m, st) r = (false, m, st1)
         ∧ storeEq st st1 ∧ serverless st1.
Proof.
  intros SL. unfold Sync.seasonTurn. cbn [negb andb].
  destruct (seasonExists_serverless w m r st SL) as [E1 E2].
  pose proof (seasonExists_config w m r st) as C.
  destruct (Sync.seasonExists w m r st) as [[x m1] st1].
  cbn [fst snd] in *. injection E1 as -> ->. cbn [negb].
  exists st1. split; [done|]. split; [done|]. by eapply serverless_config.
Qed.

Lemma seasonLoop_serverless w refs :
  ∀ m st,
    serverless st →
    (foldl (Sync.seasonTurn w true) (false, m, st) refs).1 = (false, m)
    ∧ storeEq st (foldl (Sync.seasonTurn w true) (false, m, st) refs).2.
Proof.
  induction refs as [|r refs IH]; intros m st SL; cbn [foldl].
  - cbn [fst snd]. split; [done|apply storeEq_refl].
  - destruct (seasonTurn_serverless w m st r SL) as (st1 & -> & E & SL1).
    destruct (IH m st1 SL1) as [I1 I2].
    split; [done|]. by eapply storeEq_trans.
Qed.

Lemma processMedia_serverless w m st :
  serverless st →
  (Sync.processMedia w m st).1 = (Returned tt, m)
  ∧ storeEq st (Sync.processMedia w m st).2.
Proof.
  intros SL. unfold Sync.processMedia.
  destruct (mediaExists_serverless w m st SL) as [E1 E2].
  pose proof (mediaExists_config w m st) as C.
  destruct (Sync.mediaExists w m st) as [[x m1] st1].
  cbn [fst snd] in *. injection E1 as -> ->. cbn [negb].
  destruct (mediaType m).
  - cbn [orb]. by split.
  - destruct (seasonLoop_serverless w (seasons m) m st1
                (serverless_config _ _ C SL)) as [L1 L2].
    destruct (foldl _ _ _) as [[d m2] st2]. cbn [fst snd] in *.
    injection L1 as -> ->. cbn [orb fst snd]. split; [done|].
    by eapply storeEq_trans.
Qed.

Lemma cancel_store st : storeEq st (Sync.cancel st).
Proof. by split. Qed.

Lemma cancel_config_servers st : serverless st → serverless (Sync.cancel st).
Proof. by intros [R S]. Qed.

Lemma consumePage_serverless w c page :
  ∀ seen st,
    serverless st →
    storeEq st (Sync.consumePage w c seen page st).2
    ∧ serverless (Sync.consumePage w c seen page st).2.
Proof.
  induction page as [|m page IH]; intros seen st SL; cbn [Sync.consumePage].
  - cbn [snd]. split; [apply storeEq_refl|done].
  - set (st1 := if c (length seen) then Sync.cancel st else st).
    assert (E1 : storeEq st st1 ∧ serverless st1).
    { subst st1. destruct (c _); [|split; [apply storeEq_refl|done]].
      split; [apply cancel_store|by apply cancel_config_servers]. }
    destruct E1 as [E1 SL1].
    destruct (negb (running st1)); [done|].
    destruct (processMedia_serverless w m st1 SL1) as [P1 P2].
    pose proof (processMedia_config w m st1) as C.
    destruct (Sync.processMedia w m st1) as [[o m1] st2].
    cbn [fst snd] in *. injection P1 as -> ->.
    destruct (IH (seen ++ [mid m]) st2 (serverless_config _ _ C SL1)) as [I1 I2].
    split; [|done]. eapply storeEq_trans; [exact E1|]. by eapply storeEq_trans.
Qed.

Lemma forAwait_serverless w c ps fuel :
  ∀ offset seen st,
    serverless st →
    storeEq st (Sync.forAwait w c ps fuel offset seen st).2.
Proof.
  induction fuel as [|fuel IH]; intros offset seen st SL; cbn [Sync.forAwait].
  - cbn [snd]. apply storeEq_refl.
  - destruct (consumePage_serverless w c (find (db st) offset ps) seen st SL)
      as [E1 SL1].
    destruct (Sync.consumePage w c seen _ st) as [[c1 seen1] st1].
    cbn [snd] in *. destruct c1; try done.
    destruct (find (db st) offset ps); [done|].
    eapply storeEq_trans; [exact E1|]. by apply IH.
Qed.

(** X6.  When the settings hold no Radarr and no Sonarr server with sync
    enabled, a run changes no row and issues no save, whatever Plex
    answers and whatever the records are: the loops over the servers are
    what clears the existence flags, and they have nothing to go through. *)
Theorem without_servers_nothing_changes w cancelled st :
  List.filter syncEnabled (settings_radarr w) = [] →
  List.filter syncEnabled (settings_sonarr w) = [] →
  db (Sync.run w cancelled st).2 = db st
  ∧ saved (Sync.run w cancelled st).2 = saved st.
Proof.
  intros ER ES. unfold Sync.run, Sync.runTry. rewrite ER, ES.
  set (st0 := set_sonarrServers [] _).
  assert (E0 : storeEq st (Sync.initPlexClient w st0).2
               ∧ serverless (Sync.initPlexClient w st0).2).
  { by destruct (initPlexClient_cases w st0) as [[e ->]|[->|[a ->]]]. }
  destruct E0 as [E0 SL].
  destruct (Sync.initPlexClient w st0) as [[[]|e] st1]; cbn [snd] in E0, SL;
    [|exact E0].
  destruct (plexClient st1); [|exact E0].
  pose proof (forAwait_serverless w cancelled Sync.pageSize
                (S (length (db (logger LInfo MsgStarting st1)))) 0%nat []
                (logger LInfo MsgStarting st1) SL) as F.
  destruct (Sync.forAwait _ _ _ _ _ _ _) as [[c1 seen1] st2].
  cbn [snd] in F. destruct E0 as [D0 S0]. destruct F as [D1 S1].
  change (db (logger LInfo MsgStarting st1)) with (db st1) in D1.
  change (saved (logger LInfo MsgStarting st1)) with (saved st1) in S1.
  destruct c1; cbn [fst snd]; split; cbn; congruence.
Qed.

Lemma without_servers_nothing_changes_witness :
  db (Sync.run unsynced never (newSync [movieA; showTwo])).2 = [movieA; showTwo]
  ∧ saved (Sync.run unsynced never (newSync [movieA; showTwo])).2 = [].
Proof.
  apply (without_servers_nothing_changes unsynced never (newSync [movieA; showTwo]));
    reflexivity.
Defined.

Lemma alike_config w w' st st' : sameConfig st st' → alike w w' st → alike w w' st'.
Proof.
  intros (_ & _ & R & S) (A1 & A2 & A3 & A4 & A5).
  repeat split; try done; intros server id; rewrite ?R, ?S; auto.
Qed.

Lemma save_alike w w' m st : alike w w' st → save w m st = save w' m st.
Proof. intros (_ & _ & A3 & _). unfold save. by rewrite A3. Qed.

Lemma mediaUpdater_alike w w' m v st :
  alike w w' st → Sync.mediaUpdater w m v st = Sync.mediaUpdater w' m v st.
Proof.
  intros A. unfold Sync.mediaUpdater.
  rewrite (save_alike w w'); [done|].
  eapply alike_config; [apply sameConfig_logger|exact A].
Qed.

Lemma updateSingleVariant_alike w w' m a a4 p p4 st :
  alike w w' st →
  Sync.updateSingleVariant w m a a4 p p4 st
  = Sync.updateSingleVariant w' m a a4 p p4 st.
Proof.
  intros A. unfold Sync.updateSingleVariant.
  assert (E : (if negb a && (a4 || p4) && negb p
               then if negb (status_eqb (status m) DELETED)
                       && negb (status_eqb (status m) UNKNOWN)
                    then Sync.mediaUpdater w m false st else (m, st)
               else (m, st))
              = (if negb a && (a4 || p4) && negb p
                 then if negb (status_eqb (status m) DELETED)
                         && negb (status_eqb (status m) UNKNOWN)
                      then Sync.mediaUpdater w' m false st else (m, st)
                 else (m, st))).
  { by rewrite (mediaUpdater_alike w w'). }
  rewrite E. clear E.
  destruct (if negb a && (a4 || p4) && negb p then _ else _) as [m1 st1] eqn:E1.
  assert (A1 : alike w w' st1).
  { destruct (negb a && (a4 || p4) && negb p); [|by injection E1 as <- <-].
    destruct (_ && _) in E1; [|by injection E1 as <- <-].
    pose proof (mediaUpdater_config w' m false st) as C. rewrite E1 in C.
    by eapply alike_config. }
  by rewrite (mediaUpdater_alike w w' m1 true st1).
Qed.

Lemma foldl_alike {X} w w' (step : World → bool * bool * Sys → X → bool * bool * Sys)
    (good : X → Sys → Prop) :
  (∀ acc x, sameConfig acc.2 (step w acc x).2) →
  (∀ x st st', sameConfig st st' → good x st → good x st') →
  (∀ acc x, alike w w' acc.2 → good x acc.2 → step w acc x = step w' acc x) →
  ∀ l acc, alike w w' acc.2 → Forall (λ x, good x acc.2) l →
           foldl (step w) acc l = foldl (step w') acc l.
Proof.
  intros C G E. induction l as [|x l IH]; intros acc A F; cbn [foldl]; [done|].
  apply Forall_cons in F as [Fx F].
  rewrite <- (E acc x A Fx). apply IH.
  - eapply alike_config; [apply C|exact A].
  - eapply Forall_impl; [exact F|]. intros y. apply G, C.
Qed.

Lemma radarrServerStep_alike w w' m acc server :
  alike w w' acc.2 → server ∈ radarrServers acc.2 →
  Sync.radarrServerStep w m acc server = Sync.radarrServerStep w' m acc server.
Proof.
  destruct acc as [[a b] st]. cbn [snd]. intros (_ & _ & _ & A4 & _) I.
  unfold Sync.radarrServerStep. by repeat rewrite (A4 server _ I).
Qed.

Lemma sonarrServerStep_alike w w' m acc server :
  alike w w' acc.2 → server ∈ sonarrServers acc.2 →
  Sync.sonarrServerStep w m acc server = Sync.sonarrServerStep w' m acc server.
Proof.
  destruct acc as [[a b] st]. cbn [snd]. intros (_ & _ & _ & _ & A5) I.
  unfold Sync.sonarrServerStep, Sync.fetchSeries.
  by repeat rewrite (A5 server _ I).
Qed.

Lemma sonarrSeasonStep_alike w w' m s acc server :
  alike w w' acc.2 → server ∈ sonarrServers acc.2 →
  Sync.sonarrSeasonStep w m s acc server = Sync.sonarrSeasonStep w' m s acc server.
Proof.
  destruct acc as [[a b] st]. cbn [snd]. intros (_ & _ & _ & _ & A5) I.
  unfold Sync.sonarrSeasonStep, Sync.cachedSeasons.
  by repeat rewrite (A5 server _ I).
Qed.

Lemma servers_good_config (sel : Sys → list DVRSettings) (x : DVRSettings) st st' :
  sel st' = sel st → x ∈ sel st → x ∈ sel st'.
Proof. by intros ->. Qed.

Lemma mediaExistsInRadarr_alike w w' m p p4 st :
  alike w w' st →
  Sync.mediaExistsInRadarr w m p p4 st = Sync.mediaExistsInRadarr w' m p p4 st.
Proof.
  intros A. unfold Sync.mediaExistsInRadarr.
  rewrite <- (foldl_alike w w' (λ w, Sync.radarrServerStep w m)
                (λ x st, x ∈ radarrServers st)
                (radarrServerStep_config w m)).
  - pose proof (foldl_config (Sync.radarrServerStep w m) (radarrServers st)
                  (radarrServerStep_config w m) (true, true, st)) as C.
    destruct (foldl _ _ _) as [[a b] st1]. cbn [snd] in C.
    rewrite (updateSingleVariant_alike w w'); [done|by eapply alike_config].
  - intros x s s' (_ & _ & R & _). by intros; rewrite R.
  - intros acc x. apply radarrServerStep_alike.
  - exact A.
  - by apply Forall_forall.
Qed.

Lemma mediaExistsInSonarr_alike w w' m p p4 st :
  alike w w' st →
  Sync.mediaExistsInSonarr w m p p4 st = Sync.mediaExistsInSonarr w' m p p4 st.
Proof.
  intros A. unfold Sync.mediaExistsInSonarr.
  rewrite <- (foldl_alike w w' (λ w, Sync.sonarrServerStep w m)
                (λ x st, x ∈ sonarrServers st)
                (sonarrServerStep_config w m)).
  - pose proof (foldl_config (Sync.sonarrServerStep w m) (sonarrServers st)
                  (sonarrServerStep_config w m) (true, true, st)) as C.
    destruct (foldl _ _ _) as [[a b] st1]. cbn [snd] in C.
    rewrite (updateSingleVariant_alike w w'); [done|by eapply alike_config].
  - intros x s s' (_ & _ & _ & R). by intros; rewrite R.
  - intros acc x. apply sonarrServerStep_alike.
  - exact A.
  - by apply Forall_forall.
Qed.

Lemma existsInPlex_alike w w' m st :
  alike w w' st → Sync.existsInPlex w m st = Sync.existsInPlex w' m st.
Proof.
  intros (A1 & _). unfold Sync.existsInPlex, Sync.plexMediaProbe.
  destruct (plexClient st); [|done]. by rewrite !A1.
Qed.

Lemma mediaExists_alike w w' m st :
  alike w w' st → Sync.mediaExists w m st = Sync.mediaExists w' m st.
Proof.
  intros A. unfold Sync.mediaExists.
  rewrite <- (existsInPlex_alike w w' m st A).
  pose proof (existsInPlex_config w m st) as C.
  destruct (Sync.existsInPlex w m st) as [[p p4] st1]. cbn [snd] in C.
  destruct (p && p4); [done|].
  destruct (mediaType m).
  - rewrite (mediaExistsInRadarr_alike w w'); [done|by eapply alike_config].
  - rewrite (mediaExistsInSonarr_alike w w'); [done|by eapply alike_config].
Qed.

Lemma plexSeasonProbe_alike w w' key s st :
  alike w w' st → Sync.plexSeasonProbe w key s st = Sync.plexSeasonProbe w' key s st.
Proof.
  intros (_ & A2 & _). unfold Sync.plexSeasonProbe.
  destruct (plexSeasonsCache st !! key); [done|].
  destruct (plexClient st); [|done]. by rewrite A2.
Qed.

Lemma seasonExistsInPlex_alike w w' m s st :
  alike w w' st →
  Sync.seasonExistsInPlex w m s st = Sync.seasonExistsInPlex w' m s st.
Proof.
  intros A. unfold Sync.seasonExistsInPlex.
  rewrite <- (plexSeasonProbe_alike w w' _ s st A).
  destruct (if truthyS (ratingKey m) then _ else _) as [first st1] eqn:E1.
  assert (A1 : alike w w' st1).
  { destruct (truthyS (ratingKey m)); [|by injection E1 as <- <-].
    pose proof (plexSeasonProbe_config w (default EmptyString (ratingKey m)) s st) as C.
    rewrite E1 in C. by eapply alike_config. }
  destruct first; [|done].
  by rewrite <- (plexSeasonProbe_alike w w' _ s st1 A1).
Qed.

Lemma seasonExistsInSonarr_alike w w' m r p p4 st :
  alike w w' st →
  Sync.seasonExistsInSonarr w m r p p4 st = Sync.seasonExistsInSonarr w' m r p p4 st.
Proof.
  intros A. unfold Sync.seasonExistsInSonarr.
  rewrite <- (foldl_alike w w' (λ w, Sync.sonarrSeasonStep w m (Sync.seasonAt m r))
                (λ x st, x ∈ sonarrServers st)
                (sonarrSeasonStep_config w m _)).
  - pose proof (foldl_config (Sync.sonarrSeasonStep w m (Sync.seasonAt m r))
                  (sonarrServers st) (sonarrSeasonStep_config w m _)
                  (true, true, st)) as C.
    destruct (foldl _ _ _) as [[a b] st1]. cbn [snd] in C.
    destruct (if negb a && (b || p4) && negb p then _ else _) as [m1 st2].
    destruct (if (a || p) && negb b && negb p4 then _ else _) as [m2 st3].
    destruct A as (_ & _ & A3 & _).
    unfold save. by rewrite A3.
  - intros x s s' (_ & _ & _ & R). by intros; rewrite R.
  - intros acc x. apply sonarrSeasonStep_alike.
  - exact A.
  - by apply Forall_forall.
Qed.

Lemma seasonExists_alike w w' m r st :
  alike w w' st → Sync.seasonExists w m r st = Sync.seasonExists w' m r st.
Proof.
  intros A. unfold Sync.seasonExists.
  rewrite <- (seasonExistsInPlex_alike w w' m _ st A).
  pose proof (seasonExistsInPlex_config w m (Sync.seasonAt m r) st) as C.
  destruct (Sync.seasonExistsInPlex w m _ st) as [[p p4] st1]. cbn [snd] in C.
  destruct (p && p4); [done|].
  rewrite (seasonExistsInSonarr_alike w w'); [done|by eapply alike_config].
Qed.

Lemma seasonTurn_alike w w' e acc r :
  alike w w' acc.2 → Sync.seasonTurn w e acc r = Sync.seasonTurn w' e acc r.
Proof.
  destruct acc as [[d m] st]. cbn [snd]. intros A. unfold Sync.seasonTurn.
  by rewrite (seasonExists_alike w w' m r st A).
Qed.

Lemma seasonLoop_alike w w' e refs :
  ∀ acc, alike w w' acc.2 →
         foldl (Sync.seasonTurn w e) acc refs = foldl (Sync.seasonTurn w' e) acc refs.
Proof.
  induction refs as [|r refs IH]; intros acc A; cbn [foldl]; [done|].
  rewrite <- (seasonTurn_alike w w' e acc r A). apply IH.
  eapply alike_config; [apply seasonTurn_config|exact A].
Qed.

Lemma processMedia_alike w w' m st :
  alike w w' st → Sync.processMedia w m st = Sync.processMedia w' m st.
Proof.
  intros A. unfold Sync.processMedia.
  rewrite <- (mediaExists_alike w w' m st A).
  pose proof (mediaExists_config w m st) as C1.
  destruct (Sync.mediaExists w m st) as [[e m1] st1]. cbn [snd] in C1.
  destruct (if negb e then _ else _) as [m2 st2] eqn:E2.
  assert (C2 : sameConfig st1 st2).
  { destruct (negb e); [|injection E2 as <- <-; apply sameConfig_refl].
    pose proof (markMissing_config m1 st1) as X. by rewrite E2 in X. }
  assert (A2 : alike w w' st2).
  { eapply alike_config; [exact C2|]. by eapply alike_config. }
  assert (L : match mediaType m2 with
              | MOVIE => (false, m2, st2)
              | TV => foldl (Sync.seasonTurn w e) (false, m2, st2) (seasons m2)
              end
              = match mediaType m2 with
                | MOVIE => (false, m2, st2)
                | TV => foldl (Sync.seasonTurn w' e) (false, m2, st2) (seasons m2)
                end).
  { destruct (mediaType m2); [done|]. by apply seasonLoop_alike. }
  rewrite <- L.
  destruct (match mediaType m2 with TV => _ | MOVIE => _ end)
    as [[d m3] st3] eqn:E3.
  destruct (negb e || d); [|done].
  destruct A as (_ & _ & A3 & _). unfold save. by rewrite A3.
Qed.

Lemma consumePage_alike w w' c page :
  ∀ seen st,
    alike w w' st →
    Sync.consumePage w c seen page st = Sync.consumePage w' c seen page st.
Proof.
  induction page as [|m page IH]; intros seen st A; cbn [Sync.consumePage]; [done|].
  set (st1 := if c (length seen) then Sync.cancel st else st).
  assert (A1 : alike w w' st1) by (subst st1; by destruct (c _)).
  destruct (negb (running st1)); [done|].
  rewrite <- (processMedia_alike w w' m st1 A1).
  pose proof (processMedia_config w m st1) as C.
  destruct (Sync.processMedia w m st1) as [[o m1] st2]. cbn [snd] in C.
  destruct o; [|done]. apply IH. by eapply alike_config.
Qed.

Lemma consumePage_config w c page :
  ∀ seen st,
    radarrServers (Sync.consumePage w c seen page st).2 = radarrServers st
    ∧ sonarrServers (Sync.consumePage w c seen page st).2 = sonarrServers st.
Proof.
  induction page as [|m page IH]; intros seen st; cbn [Sync.consumePage]; [done|].
  set (st1 := if c (length seen) then Sync.cancel st else st).
  assert (E1 : radarrServers st1 = radarrServers st
               ∧ sonarrServers st1 = sonarrServers st)
    by (subst st1; by destruct (c _)).
  destruct E1 as [R1 S1].
  destruct (negb (running st1)); [done|].
  pose proof (processMedia_config w m st1) as (_ & _ & R2 & S2).
  destruct (Sync.processMedia w m st1) as [[o m1] st2]. cbn [snd] in *.
  destruct o; [|cbn [snd]; split; congruence].
  destruct (IH (seen ++ [mid m]) st2) as [R3 S3]. split; congruence.
Qed.

Lemma forAwait_alike w w' c ps fuel :
  ∀ offset seen st,
    alike w w' st →
    Sync.forAwait w c ps fuel offset seen st
    = Sync.forAwait w' c ps fuel offset seen st.
Proof.
  induction fuel as [|fuel IH]; intros offset seen st A; cbn [Sync.forAwait]; [done|].
  rewrite <- (consumePage_alike w w' c _ seen st A).
  destruct (consumePage_config w c (find (db st) offset ps) seen st) as [R S].
  destruct (Sync.consumePage w c seen _ st) as [[c1 seen1] st1]. cbn [snd] in *.
  destruct c1; try done.
  destruct (find (db st) offset ps); [done|].
  apply IH. destruct A as (A1 & A2 & A3 & A4 & A5).
  repeat split; try done; intros server id; rewrite ?R, ?S; auto.
Qed.

(** X7.  A run never consults a Radarr or Sonarr server whose sync is
    disabled: two installations that differ only in what such servers
    would answer give the same run - same completion, same records
    processed, same table, same saves and same log. *)
Theorem unsynced_servers_are_ignored w w' cancelled st :
  sameButUnsynced w w' →
  Sync.run w cancelled st = Sync.run w' cancelled st.
Proof.
  intros (ER & ES & EA & EL & A1 & A2 & A3 & A4 & A5).
  unfold Sync.run, Sync.runTry. rewrite ER, ES.
  set (st0 := set_sonarrServers _ _).
  assert (I : Sync.initPlexClient w' st0 = Sync.initPlexClient w st0)
    by (unfold Sync.initPlexClient; by rewrite EA, EL).
  rewrite I.
  assert (RS : radarrServers (logger LInfo MsgStarting (Sync.initPlexClient w st0).2)
               = List.filter syncEnabled (settings_radarr w)
               ∧ sonarrServers (logger LInfo MsgStarting (Sync.initPlexClient w st0).2)
                 = List.filter syncEnabled (settings_sonarr w)).
  { by destruct (initPlexClient_cases w st0) as [[e ->]|[->|[a ->]]]. }
  destruct (Sync.initPlexClient w st0) as [[[]|e] st1]; cbn [snd] in RS; [|done].
  destruct (plexClient st1); [|done].
  rewrite (forAwait_alike w w'); [done|].
  destruct RS as [R S].
  repeat split; try done; intros server id; rewrite ?R, ?S;
    intros H; apply list_elem_of_In, filter_In in H as [H E];
    apply list_elem_of_In in H; auto.
Qed.

Lemma unsynced_servers_are_ignored_witness :
  Sync.run halfSynced never (newSync [movieBoth; showTwo])
  = Sync.run halfSyncedEmpty never (newSync [movieBoth; showTwo]).
Proof.
  apply (unsynced_servers_are_ignored halfSynced halfSyncedEmpty never
           (newSync [movieBoth; showTwo])).
  repeat split; try done; intros server id H E;
    (apply elem_of_cons in H as [->|H]; [done|]);
    apply list_elem_of_singleton in H as ->; done.
Defined.

(** ** Failures of Plex, Radarr and Sonarr do not end a run *)

(** When the flag is set as a page is entered and the page ends with an
    exception, either [cancel()] had been called when the loop tested the
    flag before the record that was due, or a save was refused; when the
    page is consumed to its end, the flag is still set. *)
Lemma consumePage_cause w c page :
  ∀ seen st cmp seen' st',
    running st = true →
    Sync.consumePage w c seen page st = (cmp, seen', st') →
    match cmp with
    | Sync.Normal => running st' = true
    | Sync.Thrown e =>
        (e = "Job aborted" ∧ c (length seen') = true)
        ∨ ∃ m, saveError w m = Some e
    | Sync.OutOfFuel => False
    end.
Proof.
  induction page as [|m page IH]; intros seen st cmp seen' st' R;
    cbn [Sync.consumePage].
  - by intros [= <- <- <-].
  - destruct (c (length seen)) eqn:C.
    + cbn. intros [= <- <- <-]. left. by split.
    + rewrite R. cbn [negb].
      pose proof (processMedia_config w m st) as (R1 & _).
      destruct (Sync.processMedia w m st) as [[[[]|e] m1] st1] eqn:P;
        cbn [snd] in R1.
      * apply IH. by rewrite R1.
      * intros [= <- <- <-]. right. apply processMedia_throws in P. eauto.
Qed.

Lemma forAwait_cause w c ps fuel :
  ∀ offset seen st cmp seen' st',
    running st = true →
    Sync.forAwait w c ps fuel offset seen st = (cmp, seen', st') →
    match cmp with
    | Sync.Thrown e =>
        (e = "Job aborted" ∧ c (length seen') = true)
        ∨ ∃ m, saveError w m = Some e
    | _ => True
    end.
Proof.
  induction fuel as [|fuel IH]; intros offset seen st cmp seen' st' R;
    cbn [Sync.forAwait].
  - by intros [= <- <- <-].
  - destruct (Sync.consumePage w c seen _ st) as [[c1 seen1] st1] eqn:E.
    apply consumePage_cause in E; [|exact R].
    destruct c1.
    + destruct (find (db st) offset ps); [by intros [= <- <- <-]|].
      by apply IH.
    + by intros [= <- <- <-].
    + done.
Qed.

(** X13.  The failures of Plex, Radarr and Sonarr do not end a run.  When
    [initPlexClient] returns and the database refuses no save, a run
    completes normally, whatever the three services answer and however
    often their calls throw - unless [cancel()] had been called when the
    loop tested the flag before the record that was due next, in which
    case the run ends with the exception [Job aborted].  Reading a page
    of the table is taken to succeed, as throughout. *)
Theorem service_failures_do_not_end_a_run w cancelled st :
  (Sync.initPlexClient w st).1 = Returned tt →
  (∀ m, saveError w m = None) →
  (Sync.run w cancelled st).1.1 = Sync.Normal
  ∨ ((Sync.run w cancelled st).1.1 = Sync.Thrown "Job aborted"
     ∧ cancelled (length (Sync.run w cancelled st).1.2) = true).
Proof.
  intros I N.
  pose proof (run_total w cancelled st) as T. revert T.
  unfold Sync.run, Sync.runTry.
  set (st0 := set_sonarrServers _ _).
  assert (E : ∃ st1, Sync.initPlexClient w st0 = (Returned tt, st1)
                     ∧ running st1 = true).
  { revert I. subst st0. unfold Sync.initPlexClient.
    destruct (admin w) as [[a|]|e]; [by eauto| |done].
    destruct (loggerWarning w) as [[]|e]; [by eauto|done]. }
  destruct E as (st1 & -> & R1).
  destruct (plexClient st1); [|by left].
  destruct (Sync.forAwait w cancelled _ _ _ _ _) as [[c1 seen1] st2] eqn:F.
  apply forAwait_cause in F; [|exact R1].
  destruct c1 as [|e|]; cbn [fst snd]; intros T; [by left| |done].
  destruct F as [[-> C]|[m S]]; [by right|].
  by rewrite N in S.
Qed.

(** ** Instances of the statements about whole runs *)

(** Two movies that are gone from Plex and Radarr, which are both
    unreachable; the run is not cancelled. *)
Lemma service_failures_do_not_end_a_run_witness :
  (Sync.run offline never (newSync [movieA; movieB])).1.1 = Sync.Normal
  ∨ ((Sync.run offline never (newSync [movieA; movieB])).1.1
     = Sync.Thrown "Job aborted"
     ∧ never (length (Sync.run offline never (newSync [movieA; movieB])).1.2)
       = true).
Proof.
  apply (service_failures_do_not_end_a_run offline never
           (newSync [movieA; movieB])).
  - reflexivity.
  - intros m. reflexivity.
Defined.

(** No admin, on an instance that has not run before. *)
Lemma run_without_admin_witness :
  (Sync.run ownerless never (newSync [movieA])).1
  = (Sync.Thrown "logger.warning is not a function", [])
  ∧ db (Sync.run ownerless never (newSync [movieA])).2 = [movieA]
  ∧ saved (Sync.run ownerless never (newSync [movieA])).2 = []
  ∧ log (Sync.run ownerless never (newSync [movieA])).2
    = [mkLog LError (MsgFailedToComplete "logger.warning is not a function");
       mkLog LInfo MsgComplete]
  ∧ running (Sync.run ownerless never (newSync [movieA])).2 = false.
Proof.
  apply (run_without_admin ownerless never (newSync [movieA])).
  - reflexivity.
  - left. reflexivity.
Defined.

Lemma terminal_guard_of_records_witness :
  statusOf false (Sync.processMedia offline show4kOnly (ready offline)).1.2
  = UNKNOWN.
Proof.
  apply (terminal_guard_of_records offline show4kOnly (ready offline) false).
  by right.
Defined.

Lemma isAvailable_spec s :
  Part001.isAvailable s = true ↔ s = AVAILABLE ∨ s = PARTIALLY_AVAILABLE.
Proof. destruct s; unfold Part001.isAvailable; simpl; naive_solver. Qed.

Lemma findMediaStatus_mid requests m m' v :
  mid m' = mid m →
  Part001.findMediaStatus requests m' v = Part001.findMediaStatus requests m v.
Proof.
  intros E. unfold Part001.findMediaStatus.
  assert (F : ∀ x, Part001.matchesRequest m' v x = Part001.matchesRequest m v x)
    by (intros x; unfold Part001.matchesRequest; by rewrite E).
  induction requests as [|x l IH]; simpl; [done|].
  rewrite F. by destruct (Part001.matchesRequest m v x).
Qed.

Lemma variantMove_refl requests v m : variantMove requests v m m.
Proof. left. auto. Qed.

Lemma variantMove_trans requests v a b c :
  mid b = mid a → mediaType b = mediaType a →
  variantMove requests v a b → variantMove requests v b c →
  variantMove requests v a c.
Proof.
  intros I T [[L1 S1]|(A1 & S1 & L1)] [[L2 S2]|(A2 & S2 & L2)].
  - left. split; [congruence|].
    destruct S1 as [S1|[S1 S1']], S2 as [S2|[S2 S2']];
      [left; congruence|right; split; congruence|right; split; congruence|congruence].
  - right. split; [|split; [done|]].
    + apply isAvailable_spec. apply isAvailable_spec in A2.
      destruct S1 as [S1|[S1 S1']]; [by rewrite <- S1|by left].
    + rewrite L2, T, (findMediaStatus_mid requests a b v I), L1. done.
  - right. split; [done|]. split; [|congruence].
    destruct S2 as [S2|[S2 _]]; congruence.
  - rewrite S1 in A2. done.
Qed.

Lemma seasonMove_refl s : seasonMove s s.
Proof. split; [done|]. by left. Qed.

Lemma seasonMove_trans a b c : seasonMove a b → seasonMove b c → seasonMove a c.
Proof.
  intros [N1 H1] [N2 H2]. split; [congruence|]. intros v.
  destruct (H1 v) as [E1|[A1 U1]], (H2 v) as [E2|[A2 U2]].
  - left. congruence.
  - right. by rewrite <- E1.
  - right. split; [done|congruence].
  - rewrite U1 in A2. done.
Qed.

Lemma moved_refl requests m : moved requests m m.
Proof.
  repeat split; try done.
  - intros v. apply variantMove_refl.
  - apply Forall_Forall2_diag, Forall_forall. intros. apply seasonMove_refl.
Qed.

Lemma moved_trans requests a b c :
  moved requests a b → moved requests b c → moved requests a c.
Proof.
  intros (I1 & T1 & V1 & S1) (I2 & T2 & V2 & S2).
  repeat split; try congruence.
  - intros v. by apply (variantMove_trans requests v a b c).
  - eapply Forall2_trans; [|exact S1|exact S2]. intros x y z. apply seasonMove_trans.
Qed.

Lemma savesOf_refl requests m st : savesOf requests m st st.
Proof. exists []. by rewrite app_nil_r. Qed.

Lemma savesOf_store requests m st st' :
  saved st' = saved st → savesOf requests m st st'.
Proof. intros E. exists []. by rewrite app_nil_r. Qed.

Lemma savesOf_trans requests m m1 st st1 st2 :
  moved requests m m1 →
  savesOf requests m st st1 → savesOf requests m1 st1 st2 →
  savesOf requests m st st2.
Proof.
  intros M (l1 & E1 & F1) (l2 & E2 & F2).
  exists (l1 ++ l2). split; [by rewrite E2, E1, app_assoc|].
  apply Forall_app. split; [done|].
  eapply Forall_impl; [exact F2|]. intros x. by apply moved_trans.
Qed.

Lemma Move_refl requests m st : Move requests m st m st.
Proof. split; [apply moved_refl|apply savesOf_refl]. Qed.

Lemma Move_store requests m st st' : saved st' = saved st → Move requests m st m st'.
Proof. intros E. split; [apply moved_refl|by apply savesOf_store]. Qed.

Lemma Move_media requests m m' st : moved requests m m' → Move requests m st m' st.
Proof. intros M. split; [done|apply savesOf_refl]. Qed.

Lemma Move_trans requests m st m1 st1 m2 st2 :
  Move requests m st m1 st1 → Move requests m1 st1 m2 st2 →
  Move requests m st m2 st2.
Proof.
  intros [M1 S1] [M2 S2]. split; [by eapply moved_trans|by eapply savesOf_trans].
Qed.

Lemma Move_logger_r requests m st m' st' l x :
  Move requests m st m' st' → Move requests m st m' (logger l x st').
Proof. intros [M (k & E & F)]. split; [done|]. by exists k. Qed.

Lemma Move_save requests w m x st :
  moved requests m x → Move requests m st x (save w x st).2.
Proof.
  intros M. split; [done|]. exists [x]. split; [|by constructor].
  unfold save. by destruct (saveError w x).
Qed.

Lemma foldl_store3 {A B X} (step : A * B * Sys → X → A * B * Sys) l :
  (∀ acc x, storeEq acc.2 (step acc x).2) →
  ∀ acc, storeEq acc.2 (foldl step acc l).2.
Proof.
  intros H. induction l as [|x l IH]; intros acc; simpl.
  - apply storeEq_refl.
  - eapply storeEq_trans; [apply H | apply IH].
Qed.

Lemma Move_storeEq requests m st st' : storeEq st st' → Move requests m st m st'.
Proof. intros [_ E]. by apply Move_store. Qed.

Lemma mediaUpdater_moved w requests m v st :
  Part001.isAvailable (statusOf v m) = true →
  Move requests m st (Part001.mediaUpdater w requests m v st).1
    (Part001.mediaUpdater w requests m v st).2.
Proof.
  intros A. unfold Part001.mediaUpdater.
  set (p := if bool_decide (mediaType m = TV)
            then Part001.findMediaStatus requests m v else false).
  set (m' := setRatingKeyOf v _ _).
  assert (M : moved requests m m').
  { repeat split.
    - subst m'. by destruct v.
    - subst m'. by destruct v.
    - intros u. destruct (decide (u = v)) as [->|N].
      + right. split; [done|]. split; [subst m'; by destruct v|].
        assert (P : p = bool_decide (mediaType m = TV)
                        && Part001.findMediaStatus requests m v)
          by (subst p; by destruct (bool_decide _)).
        rewrite <- P. subst m'. destruct p, v; done.
      + left. subst m'. destruct u, v; try done; (split; [done|by left]).
    - assert (E : seasonObjs m' = seasonObjs m) by (subst m'; by destruct v).
      rewrite E. apply Forall_Forall2_diag, Forall_forall.
      intros. apply seasonMove_refl. }
  pose proof (Move_save requests w m m' st M) as S.
  destruct (save w m' st) as [[u|e] st1]; cbn [fst snd] in *;
    by apply Move_logger_r.
Qed.

Lemma part001_radarrServerStep_store w m acc server :
  storeEq acc.2 (Part001.radarrServerStep w m acc server).2.
Proof.
  destruct acc as [[a b] st]. unfold Part001.radarrServerStep. store_crush.
Qed.

Lemma part001_sonarrServerStep_store w m acc server :
  storeEq acc.2 (Part001.sonarrServerStep w m acc server).2.
Proof.
  destruct acc as [[a b] st]. unfold Part001.sonarrServerStep, Sync.fetchSeries.
  store_crush.
Qed.

Lemma part001_sonarrSeasonStep_store w m e e4 acc server :
  storeEq acc.2 (Part001.sonarrSeasonStep w m e e4 acc server).2.
Proof.
  destruct acc as [[a b] st]. unfold Part001.sonarrSeasonStep, Sync.cachedSeasons.
  store_crush.
Qed.

Lemma plexSeason_store w key e s st :
  storeEq st (Part001.plexSeason w key e s st).2.
Proof. unfold Part001.plexSeason, Sync.plexSeasonProbe. store_crush. Qed.

Lemma plexItem_store w key st : storeEq st (Part001.plexItem w key st).2.
Proof. unfold Part001.plexItem, Sync.plexMediaProbe. store_crush. Qed.

Lemma mediaExistsInRadarr_moved w requests m p p4 st :
  Move requests m st (Part001.mediaExistsInRadarr w requests m p p4 st).1.2
    (Part001.mediaExistsInRadarr w requests m p p4 st).2.
Proof.
  unfold Part001.mediaExistsInRadarr.
  pose proof (foldl_store3 (Part001.radarrServerStep w m) (radarrServers st)
                (part001_radarrServerStep_store w m) (None, None, st)) as H.
  destruct (foldl _ _ _) as [[a b] st1]. cbn [snd] in H.
  set (e := negb (Part001.noFile a && negb p)).
  set (e4 := negb (Part001.noFile b && negb p4)).
  destruct (if negb e && e4 then _ else _) as [m1 st2] eqn:E1.
  assert (M1 : Move requests m st m1 st2).
  { eapply Move_trans; [apply Move_storeEq, H|].
    destruct (negb e && e4); [|injection E1 as <- <-; apply Move_refl].
    destruct (status_eqb (status m) AVAILABLE) eqn:A;
      [|injection E1 as <- <-; apply Move_refl].
    pose proof (mediaUpdater_moved w requests m false st1) as U.
    rewrite E1 in U. apply U. apply status_eqb_true in A.
    apply isAvailable_spec. by left. }
  destruct (if e && negb e4 then _ else _) as [m2 st3] eqn:E2.
  cbn [fst snd]. eapply Move_trans; [exact M1|].
  destruct (e && negb e4); [|injection E2 as <- <-; apply Move_refl].
  destruct (status_eqb (status4k m1) AVAILABLE) eqn:A;
    [|injection E2 as <- <-; apply Move_refl].
  pose proof (mediaUpdater_moved w requests m1 true st2) as U.
  rewrite E2 in U. apply U. apply status_eqb_true in A.
  apply isAvailable_spec. by left.
Qed.

Lemma moved_updSeason requests r f m :
  (∀ s, seasonObjs m !! r = Some s → seasonMove s (f s)) →
  moved requests m (updSeason r f m).
Proof.
  intros H. unfold updSeason.
  destruct (seasonObjs m !! r) as [s|] eqn:E; [|apply moved_refl].
  repeat split; try done.
  - intros v. left. destruct v; (split; [done|by left]).
  - cbn [seasonObjs set_seasonObjs].
    apply Forall2_same_length_lookup_2; [by rewrite length_insert|].
    intros i x y Hx Hy. destruct (decide (i = r)) as [->|N].
    + rewrite list_lookup_insert_eq in Hy by by eapply lookup_lt_Some.
      simplify_eq. by apply H.
    + rewrite list_lookup_insert_ne in Hy by done. simplify_eq.
      apply seasonMove_refl.
Qed.

Lemma seasonMove_unset v s :
  Part001.isAvailable (seasonStatusOf v s) = true →
  seasonMove s (setSeasonStatusOf v UNKNOWN s).
Proof.
  intros A. split; [by destruct v|]. intros u.
  destruct u, v; cbn; auto.
Qed.

Lemma moved_unset requests m r v :
  Part001.isAvailable (seasonStatusOf v (Sync.seasonAt m r)) = true →
  moved requests m (updSeason r (setSeasonStatusOf v UNKNOWN) m).
Proof.
  intros A. apply moved_updSeason. intros s E.
  rewrite (seasonAt_lookup m r s E) in A. by apply seasonMove_unset.
Qed.

Lemma unsetSeason_moved requests m r e e4 st :
  Move requests m st (Part001.unsetSeason m r e e4 st).1.2
    (Part001.unsetSeason m r e e4 st).2.
Proof.
  unfold Part001.unsetSeason.
  destruct (if negb e && e4 then _ else _) as [[d1 m1] st1] eqn:E1.
  assert (M1 : Move requests m st m1 st1).
  { destruct (negb e && e4); [|injection E1 as <- <- <-; apply Move_refl].
    destruct (Part001.isAvailable _) eqn:A in E1;
      injection E1 as <- <- <-; [|apply Move_refl].
    apply Move_logger_r, Move_media. by apply (moved_unset requests m r false). }
  destruct (if e && negb e4 then _ else _) as [[d2 m2] st2] eqn:E2.
  assert (M2 : Move requests m1 st1 m2 st2).
  { destruct (e && negb e4); [|injection E2 as <- <- <-; apply Move_refl].
    destruct (Part001.isAvailable _) eqn:A in E2;
      injection E2 as <- <- <-; [|apply Move_refl].
    apply Move_logger_r, Move_media. by apply (moved_unset requests m1 r true). }
  eapply Move_trans; [exact M1|]. eapply Move_trans; [exact M2|].
  destruct (negb e && negb e4); [|apply Move_refl].
  destruct (if Part001.isAvailable (season_status (Sync.seasonAt m2 r)) then _ else _)
    as [d3 m3] eqn:E3.
  assert (M3 : moved requests m2 m3).
  { destruct (Part001.isAvailable _) eqn:A in E3;
      injection E3 as <- <-; [|apply moved_refl].
    by apply (moved_unset requests m2 r false). }
  destruct (if Part001.isAvailable (season_status4k (Sync.seasonAt m3 r)) then _ else _)
    as [d4 m4] eqn:E4.
  assert (M4 : moved requests m3 m4).
  { destruct (Part001.isAvailable _) eqn:A in E4;
      injection E4 as <- <-; [|apply moved_refl].
    by apply (moved_unset requests m3 r true). }
  cbn [fst snd]. apply Move_media. by eapply moved_trans.
Qed.

Lemma moved_set_seasons requests l m : moved requests m (set_seasons l m).
Proof.
  repeat split; try done.
  - intros v. left. destruct v; (split; [done|by left]).
  - apply Forall_Forall2_diag, Forall_forall. intros. apply seasonMove_refl.
Qed.

Lemma moved_demote requests v m :
  statusOf v m = AVAILABLE →
  moved requests m (setStatusOf v PARTIALLY_AVAILABLE m).
Proof.
  intros A. repeat split; try by destruct v.
  - intros u. left. split; [by destruct u, v|].
    destruct u, v; cbn in *; auto.
  - rewrite seasonObjs_setStatusOf.
    apply Forall_Forall2_diag, Forall_forall. intros. apply seasonMove_refl.
Qed.

Lemma saveSeasons_moved requests w m r e e4 st :
  Move requests m st (Part001.saveSeasons w m r e e4 st).1
    (Part001.saveSeasons w m r e e4 st).2.
Proof.
  unfold Part001.saveSeasons.
  set (m0 := set_seasons (seasons m ++ [r]) m).
  pose proof (Move_save requests w m m0 st (moved_set_seasons requests _ m)) as S.
  destruct (save w m0 st) as [[u|x] st1]; cbn [fst snd] in S;
    [|by apply Move_logger_r].
  set (st2 := if negb e && negb e4 then _ else st1).
  assert (S2 : Move requests m st m0 st2).
  { subst st2. destruct (negb e && negb e4); [by apply Move_logger_r|done]. }
  destruct (if status_eqb (status m0) AVAILABLE then _ else _) as [m1 st3] eqn:E1.
  assert (M1 : Move requests m0 st2 m1 st3).
  { destruct (status_eqb (status m0) AVAILABLE) eqn:A;
      injection E1 as <- <-; [|apply Move_refl].
    apply Move_logger_r, Move_media. apply status_eqb_true in A.
    by apply (moved_demote requests false). }
  eapply Move_trans; [exact S2|]. eapply Move_trans; [exact M1|].
  destruct (status_eqb (status4k m1) AVAILABLE) eqn:A; [|apply Move_refl].
  cbn [fst snd]. apply Move_logger_r, Move_media. apply status_eqb_true in A.
  by apply (moved_demote requests true).
Qed.

Lemma seasonExistsInSonarr_moved requests w m r p p4 e e4 st :
  Move requests m st (Part001.seasonExistsInSonarr w m r p p4 e e4 st).1
    (Part001.seasonExistsInSonarr w m r p p4 e e4 st).2.
Proof.
  unfold Part001.seasonExistsInSonarr.
  pose proof (foldl_store3 (Part001.sonarrSeasonStep w m e e4) (sonarrServers st)
                (part001_sonarrSeasonStep_store w m e e4) (None, None, st)) as H.
  destruct (foldl _ _ _) as [[a b] st1]. cbn [snd] in H.
  set (x := negb _). set (x4 := negb _).
  pose proof (unsetSeason_moved requests m r x x4 st1) as U.
  destruct (Part001.unsetSeason m r x x4 st1) as [[d m1] st2].
  cbn [fst snd] in U.
  eapply Move_trans; [apply Move_storeEq, H|].
  eapply Move_trans; [exact U|].
  destruct d; [apply saveSeasons_moved|apply Move_refl].
Qed.

Lemma seasonExists_moved requests w m r e e4 st :
  Move requests m st (Part001.seasonExists w m r e e4 st).1
    (Part001.seasonExists w m r e e4 st).2.
Proof.
  unfold Part001.seasonExists.
  pose proof (plexSeason_store w (ratingKey m) e (Sync.seasonAt m r) st) as H1.
  destruct (Part001.plexSeason w (ratingKey m) e _ st) as [p st1].
  pose proof (plexSeason_store w (ratingKey4k m) e4 (Sync.seasonAt m r) st1) as H2.
  destruct (Part001.plexSeason w (ratingKey4k m) e4 _ st1) as [p4 st2].
  cbn [snd] in H1, H2.
  eapply Move_trans; [apply Move_storeEq, H1|].
  eapply Move_trans; [apply Move_storeEq, H2|].
  destruct (p && p4); [apply Move_refl|apply seasonExistsInSonarr_moved].
Qed.

Lemma seasonLoop_moved requests w e e4 refs :
  ∀ m st,
    Move requests m st
      (foldl (λ '(media, st) r, Part001.seasonExists w media r e e4 st)
         (m, st) refs).1
      (foldl (λ '(media, st) r, Part001.seasonExists w media r e e4 st)
         (m, st) refs).2.
Proof.
  induction refs as [|r refs IH]; intros m st; cbn [foldl].
  - apply Move_refl.
  - pose proof (seasonExists_moved requests w m r e e4 st) as S.
    destruct (Part001.seasonExists w m r e e4 st) as [m1 st1].
    eapply Move_trans; [exact S|apply IH].
Qed.

Lemma mediaExistsInSonarr_moved w requests m p p4 st :
  Move requests m st (Part001.mediaExistsInSonarr w requests m p p4 st).1.2
    (Part001.mediaExistsInSonarr w requests m p p4 st).2.
Proof.
  unfold Part001.mediaExistsInSonarr.
  pose proof (foldl_store3 (Part001.sonarrServerStep w m) (sonarrServers st)
                (part001_sonarrServerStep_store w m) (None, None, st)) as H.
  destruct (foldl _ _ _) as [[a b] st1]. cbn [snd] in H.
  set (e := negb (Part001.noFiles a && negb p)).
  set (e4 := negb (Part001.noFiles b && negb p4)).
  pose proof (seasonLoop_moved requests w e e4 (seasons m) m st1) as L.
  destruct (foldl _ (m, st1) _) as [m0 st0]. cbn [fst snd] in L.
  assert (M0 : Move requests m st m0 st0).
  { eapply Move_trans; [apply Move_storeEq, H|exact L]. }
  destruct (if negb e && e4 then _ else _) as [m1 st2] eqn:E1.
  assert (M1 : Move requests m0 st0 m1 st2).
  { destruct (negb e && e4); [|injection E1 as <- <-; apply Move_refl].
    destruct (Part001.isAvailable (status m0)) eqn:A;
      [|injection E1 as <- <-; apply Move_refl].
    pose proof (mediaUpdater_moved w requests m0 false st0 A) as U.
    by rewrite E1 in U. }
  destruct (if e && negb e4 then _ else _) as [m2 st3] eqn:E2.
  cbn [fst snd]. eapply Move_trans; [exact M0|]. eapply Move_trans; [exact M1|].
  destruct (e && negb e4); [|injection E2 as <- <-; apply Move_refl].
  destruct (Part001.isAvailable (status4k m1)) eqn:A;
    [|injection E2 as <- <-; apply Move_refl].
  pose proof (mediaUpdater_moved w requests m1 true st2 A) as U.
  by rewrite E2 in U.
Qed.

Lemma mediaExists_moved w requests m st :
  Move requests m st (Part001.mediaExists w requests m st).1.2
    (Part001.mediaExists w requests m st).2.
Proof.
  unfold Part001.mediaExists.
  pose proof (plexItem_store w (ratingKey m) st) as H1.
  destruct (Part001.plexItem w (ratingKey m) st) as [p st1].
  pose proof (plexItem_store w (ratingKey4k m) st1) as H2.
  destruct (Part001.plexItem w (ratingKey4k m) st1) as [p4 st2].
  cbn [snd] in H1, H2.
  eapply Move_trans; [apply Move_storeEq, H1|].
  eapply Move_trans; [apply Move_storeEq, H2|].
  destruct (mediaType m).
  - destruct (p && p4); [apply Move_refl|].
    pose proof (mediaExistsInRadarr_moved w requests m p p4 st2) as R.
    destruct (Part001.mediaExistsInRadarr w requests m p p4 st2) as [[x m1] st3].
    cbn [fst snd] in R. destruct x; cbn [fst snd]; [by apply Move_logger_r|done].
  - pose proof (mediaExistsInSonarr_moved w requests m p p4 st2) as R.
    destruct (Part001.mediaExistsInSonarr w requests m p p4 st2) as [[x m1] st3].
    cbn [fst snd] in R. destruct x; cbn [fst snd]; [by apply Move_logger_r|done].
Qed.

Lemma deleteVariant_moved requests v m :
  moved requests m
    (Part001.deleteVariant v
       (bool_decide (mediaType m = TV) && Part001.findMediaStatus requests m v) m).
Proof.
  unfold Part001.deleteVariant.
  destruct (Part001.isAvailable (statusOf v m)) eqn:A; [|apply moved_refl].
  remember (bool_decide (mediaType m = TV) && Part001.findMediaStatus requests m v)
    as p eqn:P.
  repeat split; try by destruct v.
  - intros u. destruct (decide (u = v)) as [->|N].
    + right. split; [done|]. split; [by destruct v|].
      rewrite <- P. by destruct p, v.
    + left. destruct u, v; try done; (split; [done|by left]).
  - match goal with
    | |- Forall2 _ _ (seasonObjs ?x) =>
        replace (seasonObjs x) with (seasonObjs m) by by destruct v
    end.
    apply Forall_Forall2_diag, Forall_forall. intros. apply seasonMove_refl.
Qed.

Lemma processMedia_moved w requests m st :
  Move requests m st (Part001.processMedia w requests m st).1.2
    (Part001.processMedia w requests m st).2.
Proof.
  unfold Part001.processMedia.
  pose proof (mediaExists_moved w requests m st) as E.
  destruct (Part001.mediaExists w requests m st) as [[x m1] st1].
  cbn [fst snd] in E. destruct (negb x); [|done].
  set (m2 := Part001.deleteVariant false _ m1).
  set (m3 := Part001.deleteVariant true _ m2).
  assert (M2 : moved requests m1 m2) by apply deleteVariant_moved.
  assert (M3 : moved requests m2 m3).
  { subst m3. destruct M2 as (I & T & _).
    rewrite <- T, <- (findMediaStatus_mid requests m1 m2 true I).
    apply deleteVariant_moved. }
  assert (M : moved requests m1 m3) by by eapply moved_trans.
  pose proof (Move_save requests w m1 m3
                (logger LInfo (MsgMediaMissing (tmdbId m3)) st1) M) as S.
  destruct (save w m3 _) as [[u|e] st2]; cbn [fst snd] in *;
    (eapply Move_trans; [exact E|exact S]).
Qed.

(** X8.  In the revision with [findMediaStatus] the processing of a
    record leaves each of its two variants either kept - same linkage,
    and the same status or the demotion from AVAILABLE to
    PARTIALLY_AVAILABLE - or removed: the variant was AVAILABLE or
    PARTIALLY_AVAILABLE, its status is DELETED, and its linkage is cleared
    unless the record is a series with an APPROVED request of that
    variant, in which case the linkage is the one it had.  So a status
    other than AVAILABLE and PARTIALLY_AVAILABLE is never changed, and no
    linkage field changes unless the status of its variant becomes
    DELETED.  The same holds for every record that is saved on the
    way. *)
Theorem part001_variant_outcome w requests media st v :
  variantMove requests v media (Part001.processMedia w requests media st).1.2
  ∧ ∃ l,
      saved (Part001.processMedia w requests media st).2 = saved st ++ l
      ∧ Forall (λ x, mid x = mid media ∧ variantMove requests v media x) l.
Proof.
  destruct (processMedia_moved w requests media st)
    as [(_ & _ & V & _) (l & E & F)].
  split; [apply V|]. exists l. split; [done|].
  eapply Forall_impl; [exact F|]. intros x (I & _ & X & _). by split.
Qed.

(** X9.  In the revision with [findMediaStatus] the processing of a
    record keeps its Season objects, each with its number, and changes a
    status of a season in one way only: from AVAILABLE or
    PARTIALLY_AVAILABLE to UNKNOWN.  A season status that is PENDING,
    PROCESSING, DELETED or UNKNOWN is never changed, and no season status
    ever becomes DELETED, AVAILABLE or PARTIALLY_AVAILABLE.  The same
    holds for the seasons of every record that is saved on the way. *)
Theorem part001_season_outcome w requests media st :
  Forall2 seasonMove (seasonObjs media)
    (seasonObjs (Part001.processMedia w requests media st).1.2)
  ∧ ∃ l,
      saved (Part001.processMedia w requests media st).2 = saved st ++ l
      ∧ Forall (λ x, Forall2 seasonMove (seasonObjs media) (seasonObjs x)) l.
Proof.
  destruct (processMedia_moved w requests media st)
    as [(_ & _ & _ & S) (l & E & F)].
  split; [exact S|]. exists l. split; [done|].
  eapply Forall_impl; [exact F|]. by intros x (_ & _ & _ & X).
Qed.

Lemma part001_radarrLoop_kept w media servers :
  ∀ a a4 st,
    (foldl (Part001.radarrServerStep w media) (a, a4, st) servers).1
    = (kept w media false a servers, kept w media true a4 servers).
Proof.
  induction servers as [|server servers IH]; intros a a4 st; cbn [foldl kept]; [done|].
  destruct (Part001.radarrServerStep w media (a, a4, st) server) as [[b b4] st1] eqn:E.
  rewrite IH. unfold Part001.radarrServerStep in E. cbn [externalServiceIdOf].
  destruct (is4k server); cbn [negb andb] in E.
  - rewrite (bool_decide_eq_false_2 (true = false)) by done.
    rewrite (bool_decide_eq_true_2 (true = true)) by done. cbn [andb].
    destruct (truthyZ (externalServiceId4k media)).
    + destruct (getMovie _ _ _); by injection E as <- <- <-.
    + by injection E as <- <- <-.
  - rewrite (bool_decide_eq_true_2 (false = false)) by done.
    rewrite (bool_decide_eq_false_2 (false = true)) by done. cbn [andb].
    destruct (truthyZ (externalServiceId media)).
    + destruct (getMovie _ _ _); by injection E as <- <- <-.
    + by injection E as <- <- <-.
Qed.

Lemma kept_spec w media v servers :
  ∀ cur,
    Part001.noFile (kept w media v cur servers) = false
    ↔ lastHolds w media v servers
      ∨ (Part001.noFile cur = false ∧ silent w media v servers).
Proof.
  induction servers as [|server servers IH]; intros cur; cbn [kept].
  - split.
    + intros H. right. split; [done|]. intros _ s I. by apply elem_of_nil in I.
    + intros [(l1 & s & l2 & E & _)|[H _]]; [by destruct l1|done].
  - rewrite IH. clear IH.
    destruct (bool_decide (is4k server = v)) eqn:B.
    + apply bool_decide_eq_true in B.
      destruct (truthyZ (externalServiceIdOf v media)) eqn:T; cbn [andb].
      * destruct (getMovie w (server_id server) _) as [movie|e] eqn:G.
        -- split.
           ++ intros [(l1 & s & l2 & E & I & H & L)|[N S]].
              ** left. exists (server :: l1), s, l2. by rewrite E.
              ** left. exists [], server, servers. repeat split; try done.
                 --- exists movie. split; [done|].
                     cbn in N. by apply negb_false_iff in N.
                 --- intros s Hs. by apply S.
           ++ intros [(l1 & s & l2 & E & I & H & L)|[N S]].
              ** destruct l1 as [|s1 l1]; cbn in E; injection E as -> ->.
                 --- right. split.
                     +++ destruct H as (_ & movie' & G' & F).
                         rewrite G in G'. injection G' as <-.
                         cbn. by rewrite F.
                     +++ intros _ s' Hs'. by apply L.
                 --- left. by exists l1, s, l2.
              ** exfalso. destruct (S T server) as (e & X); [by left|done|].
                 congruence.
        -- split.
           ++ intros [(l1 & s & l2 & E & I & H & L)|[N S]].
              ** left. exists (server :: l1), s, l2. by rewrite E.
              ** right. split; [done|]. intros _ s Hs Is.
                 apply elem_of_cons in Hs as [->|Hs]; [by exists e|by apply S].
           ++ intros [(l1 & s & l2 & E & I & H & L)|[N S]].
              ** destruct l1 as [|s1 l1]; cbn in E; injection E as -> ->.
                 --- destruct H as (_ & movie' & G' & _). congruence.
                 --- left. by exists l1, s, l2.
              ** right. split; [done|]. intros _ s Hs. apply S; [done|by right].
      * split.
        -- intros [(l1 & s & l2 & E & I & H & L)|[N S]].
           ++ left. exists (server :: l1), s, l2. by rewrite E.
           ++ right. split; [done|]. intros X. congruence.
        -- intros [(l1 & s & l2 & E & I & (X & _) & L)|[N S]]; [congruence|].
           right. split; [done|]. intros X. congruence.
    + apply bool_decide_eq_false in B. cbn [andb]. split.
      * intros [(l1 & s & l2 & E & I & H & L)|[N S]].
        -- left. exists (server :: l1), s, l2. by rewrite E.
        -- right. split; [done|]. intros T s Hs Is.
           apply elem_of_cons in Hs as [->|Hs]; [done|by apply S].
      * intros [(l1 & s & l2 & E & I & H & L)|[N S]].
        -- destruct l1 as [|s1 l1]; cbn in E; injection E as -> ->; [done|].
           left. by exists l1, s, l2.
        -- right. split; [done|]. intros T s Hs. apply S; [done|by right].
Qed.

Lemma plexItem_spec w key st :
  ((Part001.plexItem w key st).1 = true ↔ plexFinds w st key)
  ∧ plexClient (Part001.plexItem w key st).2 = plexClient st
  ∧ radarrServers (Part001.plexItem w key st).2 = radarrServers st.
Proof.
  unfold Part001.plexItem, Sync.plexMediaProbe, plexFinds.
  destruct (truthyS key) eqn:K; [|split; [|done]; split; [done|by intros [? _]]].
  destruct (plexClient st) as [api|] eqn:C; cbn [fst snd].
  - destruct (getMetadata w api (default EmptyString key)) as [[item|]|e] eqn:G;
      cbn [fst snd]; (split; [|done]); split; try done.
    + intros _. split; [done|]. by exists api, item.
    + intros (_ & a & i & [= <-] & X). congruence.
    + intros (_ & a & i & [= <-] & X). congruence.
  - split; [|done]. split; [done|]. by intros (_ & a & i & X & _).
Qed.

(** X10.  In the revision with [findMediaStatus] a movie is judged
    existent exactly when, for one of its two variants, Plex returns an
    item for the rating key of the variant, or the last sync-enabled
    Radarr server of the variant that answers returns the movie with a
    file (the variant has an external id, and every server of the variant
    that comes later in the list throws).  The answer of an earlier
    server is overwritten by a later one, and a server that throws leaves
    the answer of an earlier server in place. *)
Theorem part001_movie_existence w requests media st :
  mediaType media = MOVIE →
  (Part001.mediaExists w requests media st).1.1 = true
  ↔ ∃ v, plexFinds w st (ratingKeyOf v media)
         ∨ lastHolds w media v (radarrServers st).
Proof.
  intros MT. unfold Part001.mediaExists. rewrite MT.
  destruct (plexItem_spec w (ratingKey media) st) as (P & C1 & R1).
  destruct (Part001.plexItem w (ratingKey media) st) as [p st1].
  cbn [fst snd] in P, C1, R1.
  destruct (plexItem_spec w (ratingKey4k media) st1) as (P4 & C2 & R2).
  destruct (Part001.plexItem w (ratingKey4k media) st1) as [p4 st2].
  cbn [fst snd] in P4, C2, R2.
  assert (P4' : p4 = true ↔ plexFinds w st (ratingKey4k media)).
  { rewrite P4. unfold plexFinds. by rewrite C1. }
  clear P4.
  assert (V : (Part001.mediaExistsInRadarr w requests media p p4 st2).1.1
              = negb (Part001.noFile (kept w media false None (radarrServers st))
                      && negb p)
                || negb (Part001.noFile (kept w media true None (radarrServers st))
                         && negb p4)).
  { unfold Part001.mediaExistsInRadarr.
    pose proof (part001_radarrLoop_kept w media (radarrServers st2) None None st2) as F.
    destruct (foldl _ _ _) as [[a b] st3]. cbn [fst] in F. injection F as -> ->.
    rewrite R2, R1.
    destruct (if negb _ && _ then _ else _) as [m1 st4].
    by destruct (if _ && negb _ then _ else _) as [m2 st5]. }
  pose proof (kept_spec w media false (radarrServers st) None) as K.
  pose proof (kept_spec w media true (radarrServers st) None) as K4.
  assert (E : (if p && p4 then (true, media, st2)
               else let '(x, m, s) := Part001.mediaExistsInRadarr w requests media p p4 st2 in
                    if x then (true, m, logger LWarn (MsgExistsRadarr (tmdbId m)) s)
                    else (false, m, s)).1.1
              = (p && p4) || (Part001.mediaExistsInRadarr w requests media p p4 st2).1.1).
  { destruct (p && p4); [done|].
    destruct (Part001.mediaExistsInRadarr w requests media p p4 st2) as [[x m] s].
    by destruct x. }
  rewrite E, V. clear E V.
  split.
  - intros H.
    destruct p; [exists false; left; by apply P|].
    destruct p4; [exists true; left; by apply P4'|].
    cbn [andb orb negb] in H. rewrite !andb_true_r in H.
    apply orb_true_iff in H as [H|H]; apply negb_true_iff in H.
    + apply K in H as [H|[H _]]; [|done]. exists false. by right.
    + apply K4 in H as [H|[H _]]; [|done]. exists true. by right.
  - intros [v [H|H]].
    + destruct v; cbn [ratingKeyOf] in H.
      * apply P4' in H. subst p4. destruct p; cbn; [done|].
        by rewrite andb_false_r, orb_true_r.
      * apply P in H. subst p. destruct p4; cbn; [done|].
        by rewrite andb_false_r.
    + destruct v.
      * assert (X : Part001.noFile (kept w media true None (radarrServers st)) = false)
          by (apply K4; by left).
        rewrite X. cbn [andb negb]. by rewrite !orb_true_r.
      * assert (X : Part001.noFile (kept w media false None (radarrServers st)) = false)
          by (apply K; by left).
        rewrite X. cbn [andb negb]. by rewrite orb_true_r.
Qed.

Lemma part001_movie_existence_witness :
  (Part001.mediaExists failover [] movieA (ready failover)).1.1 = true.
Proof.
  apply (part001_movie_existence failover [] movieA (ready failover) eq_refl).
  exists false. right. exists [], srvStd, [mkServer 3 false true].
  repeat split.
  - by exists (mkRadarrMovie true).
  - intros s Hs _. apply list_elem_of_singleton in Hs as ->.
    by exists "ECONNREFUSED".
Defined.

(** The series that the loop of [mediaExistsInSonarr] holds for variant
    [v] is none, or one without files. *)
Lemma sonarr_count_zero w media (servers : list DVRSettings) v server series :
  (∀ s, s ∈ servers → is4k s = v → ¬ sonarrHolds w media v s) →
  server ∈ servers → is4k server = v →
  truthyZ (externalServiceIdOf v media) = true →
  getSeriesById w (server_id server) (default 0 (externalServiceIdOf v media))
  = Returned series →
  (series_episodeFileCount series =? 0) = true.
Proof.
  intros G I Iv T E. apply Z.eqb_eq.
  destruct (decide (series_episodeFileCount series = 0)) as [|Ne]; [done|].
  exfalso. apply (G server I Iv). split; [done|]. by exists series.
Qed.

Lemma part001_sonarrServerStep_noFiles w media (servers : list DVRSettings) v acc server :
  (∀ s, s ∈ servers → is4k s = v → ¬ sonarrHolds w media v s) →
  server ∈ servers →
  Part001.noFiles (if v then acc.1.2 else acc.1.1) = true →
  Part001.noFiles
    (if v then (Part001.sonarrServerStep w media acc server).1.2
     else (Part001.sonarrServerStep w media acc server).1.1) = true.
Proof.
  intros G I N. destruct acc as [[a a4] st]. cbn [fst snd] in N.
  pose proof (sonarr_count_zero w media servers v server) as Z0.
  unfold Part001.sonarrServerStep, Sync.fetchSeries.
  destruct v; cbn [externalServiceIdOf] in Z0.
  - destruct (is4k server) eqn:K; cbn [negb andb].
    + destruct (truthyZ (externalServiceId4k media)) eqn:T; [|done].
      destruct (getSeriesById w (server_id server)
                  (default 0 (externalServiceId4k media))) as [series|e] eqn:E;
        cbn [fst snd]; [|done].
      cbn [Part001.noFiles]. by apply (Z0 series).
    + destruct (truthyZ (externalServiceId media)); [|done].
      by destruct (getSeriesById w (server_id server)
                     (default 0 (externalServiceId media))).
  - destruct (is4k server) eqn:K; cbn [negb andb].
    + destruct (truthyZ (externalServiceId4k media)); [|done].
      by destruct (getSeriesById w (server_id server)
                     (default 0 (externalServiceId4k media))).
    + destruct (truthyZ (externalServiceId media)) eqn:T; [|done].
      destruct (getSeriesById w (server_id server)
                  (default 0 (externalServiceId media))) as [series|e] eqn:E;
        cbn [fst snd]; [|done].
      cbn [Part001.noFiles]. by apply (Z0 series).
Qed.

Lemma part001_sonarrLoop_noFiles w media (servers : list DVRSettings) v
    (l : list DVRSettings) :
  (∀ s, s ∈ servers → is4k s = v → ¬ sonarrHolds w media v s) →
  (∀ s, s ∈ l → s ∈ servers) →
  ∀ acc,
    Part001.noFiles (if v then acc.1.2 else acc.1.1) = true →
    Part001.noFiles
      (if v then (foldl (Part001.sonarrServerStep w media) acc l).1.2
       else (foldl (Part001.sonarrServerStep w media) acc l).1.1) = true.
Proof.
  intros G. induction l as [|server l IH]; intros Sub acc N; cbn [foldl]; [done|].
  apply IH.
  - intros s Hs. apply Sub. by right.
  - apply (part001_sonarrServerStep_noFiles w media servers); try done.
    apply Sub. by left.
Qed.

(** With [showExists] false for the variant, the loop of
    [seasonExistsInSonarr] never assigns the listing of that variant. *)
Lemma part001_sonarrSeasonLoop_none w media e e4 (v : bool) l :
  (if v then e4 else e) = false →
  ∀ acc : option (list SonarrSeason) * option (list SonarrSeason) * Sys,
    (if v then acc.1.2 else acc.1.1) = None →
    (if v then (foldl (Part001.sonarrSeasonStep w media e e4) acc l).1.2
     else (foldl (Part001.sonarrSeasonStep w media e e4) acc l).1.1) = None.
Proof.
  intros E. induction l as [|server l IH]; intros acc N; cbn [foldl]; [done|].
  apply IH. destruct acc as [[a a4] st]. cbn [fst snd] in N.
  unfold Part001.sonarrSeasonStep.
  destruct v; subst.
  - rewrite andb_false_r.
    destruct (negb (is4k server) && truthyZ (externalServiceId media) && e).
    + by destruct (Sync.cachedSeasons w server (externalServiceId media) st)
        as [[x|x] st1].
    + done.
  - rewrite andb_false_r.
    destruct (is4k server && truthyZ (externalServiceId4k media) && e4); [|done].
    by destruct (Sync.cachedSeasons w server (externalServiceId4k media) st)
      as [[x|x] st1].
Qed.

(** After [unsetSeason] for a season whose variant does not exist, the
    status of the season in that variant is neither AVAILABLE nor
    PARTIALLY_AVAILABLE. *)
Lemma unsetSeason_unavailable m r x x4 st (v : bool) s :
  (if v then x4 else x) = false →
  seasonObjs m !! r = Some s →
  ∃ s', seasonObjs (Part001.unsetSeason m r x x4 st).1.2 !! r = Some s'
        ∧ Part001.isAvailable (seasonStatusOf v s') = false.
Proof.
  intros X E. unfold Part001.unsetSeason.
  pose proof (lookup_updSeason m r (set_season_status UNKNOWN) s E) as U.
  pose proof (lookup_updSeason m r (set_season_status4k UNKNOWN) s E) as U4.
  pose proof (lookup_updSeason _ r (set_season_status4k UNKNOWN) _ U) as UU.
  destruct (Part001.isAvailable (season_status s)) eqn:A0;
    destruct (Part001.isAvailable (season_status4k s)) eqn:A4;
    destruct v, x, x4; try discriminate X; cbn [negb andb];
    repeat first
      [ rewrite (seasonAt_lookup m r s E)
      | rewrite (seasonAt_lookup _ r _ U)
      | rewrite (seasonAt_lookup _ r _ U4)
      | rewrite A0
      | rewrite A4
      | progress cbn [fst snd season_status season_status4k
                      set_season_status set_season_status4k] ];
    eexists; (split; [eassumption|]); cbn [seasonStatusOf season_status season_status4k
                      set_season_status set_season_status4k]; done.
Qed.

Lemma saveSeasons_seasonObjs w m r e e4 st :
  seasonObjs (Part001.saveSeasons w m r e e4 st).1 = seasonObjs m.
Proof.
  unfold Part001.saveSeasons.
  destruct (save w _ st) as [[u|x] st1]; [|done].
  destruct (status_eqb (status (set_seasons (seasons m ++ [r]) m)) AVAILABLE);
    cbn [fst snd];
    match goal with
    | |- context [status_eqb (status4k ?y) AVAILABLE] =>
        by destruct (status_eqb (status4k y) AVAILABLE)
    end.
Qed.

Lemma plexSeason_skipped w key s st : Part001.plexSeason w key false s st = (false, st).
Proof. unfold Part001.plexSeason. by rewrite andb_false_r. Qed.

Lemma seasonExists_unavailable w m r e e4 st (v : bool) s :
  (if v then e4 else e) = false →
  seasonObjs m !! r = Some s →
  ∃ s', seasonObjs (Part001.seasonExists w m r e e4 st).1 !! r = Some s'
        ∧ Part001.isAvailable (seasonStatusOf v s') = false.
Proof.
  intros X E. unfold Part001.seasonExists.
  destruct (Part001.plexSeason w (ratingKey m) e (Sync.seasonAt m r) st)
    as [p st1] eqn:P1.
  destruct (Part001.plexSeason w (ratingKey4k m) e4 (Sync.seasonAt m r) st1)
    as [p4 st2] eqn:P2.
  assert (Pv : (if v then p4 else p) = false).
  { destruct v; subst.
    - rewrite plexSeason_skipped in P2. by injection P2 as <- _.
    - rewrite plexSeason_skipped in P1. by injection P1 as <- _. }
  assert (B : p && p4 = false) by (destruct v; subst; by rewrite ?andb_false_r).
  rewrite B. unfold Part001.seasonExistsInSonarr.
  pose proof (part001_sonarrSeasonLoop_none w m e e4 v (sonarrServers st2) X
                (None, None, st2) ltac:(by destruct v)) as L.
  destruct (foldl _ _ _) as [[a a4] st3]. cbn [fst snd] in L.
  set (x := negb (Part001.notListed (Sync.seasonAt m r) a && negb p)).
  set (x4 := negb (Part001.notListed (Sync.seasonAt m r) a4 && negb p4)).
  assert (Xv : (if v then x4 else x) = false).
  { subst x x4. destruct v; by subst. }
  destruct (unsetSeason_unavailable m r x x4 st3 v s Xv E) as (s1 & E1 & A1).
  destruct (Part001.unsetSeason m r x x4 st3) as [[d m1] st4]. cbn [fst snd] in E1.
  destruct d; [|by exists s1].
  exists s1. by rewrite saveSeasons_seasonObjs.
Qed.

Lemma seasonMove_lookup l l' r s :
  Forall2 seasonMove l l' → l !! r = Some s →
  ∃ s', l' !! r = Some s' ∧ seasonMove s s'.
Proof. intros F E. by apply (Forall2_lookup_l _ _ _ _ _ F E). Qed.

Lemma seasonMove_unavailable (v : bool) s s' :
  seasonMove s s' →
  Part001.isAvailable (seasonStatusOf v s) = false →
  Part001.isAvailable (seasonStatusOf v s') = false.
Proof. intros [_ H] A. destruct (H v) as [->|[X _]]; congruence. Qed.

Lemma seasonMove_unset_final (v : bool) s s' :
  seasonMove s s' →
  Part001.isAvailable (seasonStatusOf v s') = false →
  Part001.isAvailable (seasonStatusOf v s) = true →
  seasonStatusOf v s' = UNKNOWN.
Proof. intros [_ H] A' A. destruct (H v) as [E|[_ E]]; [congruence|done]. Qed.

Lemma part001_seasonLoop_unavailable w e e4 (v : bool) refs :
  (if v then e4 else e) = false →
  ∀ m st r s,
    r ∈ refs → seasonObjs m !! r = Some s →
    ∃ s',
      seasonObjs
        (foldl (λ '(media, st) r, Part001.seasonExists w media r e e4 st)
           (m, st) refs).1 !! r = Some s'
      ∧ Part001.isAvailable (seasonStatusOf v s') = false.
Proof.
  intros X. induction refs as [|r0 refs IH]; intros m st r s I E; cbn [foldl].
  - by apply elem_of_nil in I.
  - pose proof (seasonExists_moved [] w m r0 e e4 st) as [(_ & _ & _ & F) _].
    destruct (seasonMove_lookup _ _ r s F E) as (s1 & E1 & M1).
    destruct (decide (r0 = r)) as [->|N].
    + destruct (seasonExists_unavailable w m r e e4 st v s X E) as (s2 & E2 & A2).
      destruct (Part001.seasonExists w m r e e4 st) as [m1 st1].
      cbn [fst] in *.
      pose proof (seasonLoop_moved [] w e e4 refs m1 st1) as [(_ & _ & _ & F') _].
      destruct (seasonMove_lookup _ _ r s2 F' E2) as (s3 & E3 & M3).
      exists s3. split; [done|]. by eapply seasonMove_unavailable.
    + destruct (Part001.seasonExists w m r0 e e4 st) as [m1 st1].
      cbn [fst] in *. apply (IH m1 st1 r s1); [|done].
      apply elem_of_cons in I as [->|I]; done.
Qed.

Lemma part001_mediaUpdater_fields w requests m v st :
  statusOf v (Part001.mediaUpdater w requests m v st).1 = DELETED
  ∧ seasonObjs (Part001.mediaUpdater w requests m v st).1 = seasonObjs m
  ∧ statusOf (negb v) (Part001.mediaUpdater w requests m v st).1
    = statusOf (negb v) m.
Proof.
  unfold Part001.mediaUpdater.
  destruct (save w _ st) as [[u|e] st1]; cbn [fst]; by destruct v.
Qed.

(** What [mediaExistsInSonarr] leaves of a variant that is found
    nowhere. *)
Lemma mediaExistsInSonarr_lost w requests m p p4 st (v : bool) :
  (if v then p4 else p) = false →
  (∀ s, s ∈ sonarrServers st → is4k s = v → ¬ sonarrHolds w m v s) →
  (∀ r s, r ∈ seasons m → seasonObjs m !! r = Some s →
          ∃ s', seasonObjs (Part001.mediaExistsInSonarr w requests m p p4 st).1.2
                !! r = Some s'
                ∧ Part001.isAvailable (seasonStatusOf v s') = false)
  ∧ (Part001.isAvailable (statusOf v m) = true →
     (Part001.mediaExistsInSonarr w requests m p p4 st).1.1 = true →
     statusOf v (Part001.mediaExistsInSonarr w requests m p p4 st).1.2 = DELETED).
Proof.
  intros Pv G. unfold Part001.mediaExistsInSonarr.
  pose proof (part001_sonarrLoop_noFiles w m (sonarrServers st) v (sonarrServers st)
                G ltac:(done) (None, None, st) ltac:(by destruct v)) as NF.
  destruct (foldl _ _ _) as [[a a4] st1]. cbn [fst snd] in NF.
  remember (negb (Part001.noFiles a && negb p)) as e eqn:He.
  remember (negb (Part001.noFiles a4 && negb p4)) as e4 eqn:He4.
  assert (Ev : (if v then e4 else e) = false).
  { destruct v; subst; by rewrite NF. }
  pose proof (part001_seasonLoop_unavailable w e e4 v (seasons m) Ev m st1) as L.
  pose proof (seasonLoop_moved requests w e e4 (seasons m) m st1) as [M0 _].
  destruct (foldl _ (m, st1) _) as [m0 st0]. cbn [fst snd] in L, M0.
  destruct M0 as (_ & _ & V0 & _).
  assert (S0 : Part001.isAvailable (statusOf v m) = true →
               Part001.isAvailable (statusOf v m0) = true ∨ statusOf v m0 = DELETED).
  { intros A. destruct (V0 v) as [[_ [E|[E1 E2]]]|(_ & E & _)].
    - left. by rewrite E.
    - left. rewrite E2. done.
    - by right. }
  destruct v; cbn [statusOf] in *.
  - (* the 4K variant *)
    rewrite Ev. clear He He4. rewrite andb_false_r.
    destruct e; cbn [negb andb orb fst snd].
    + pose proof (part001_mediaUpdater_fields w requests m0 true st0) as (U1 & U2 & _).
      destruct (Part001.isAvailable (status4k m0)) eqn:A0.
      * destruct (Part001.mediaUpdater w requests m0 true st0) as [m1 st2].
        cbn [fst snd statusOf] in *. split; [by rewrite U2|done].
      * split; [done|]. intros A _. destruct (S0 A) as [X|X]; [congruence|done].
    + split; [done|]. intros _ X. done.
  - (* the standard variant *)
    rewrite Ev. clear He He4. cbn [negb andb].
    destruct e4; cbn [negb andb orb fst snd].
    + pose proof (part001_mediaUpdater_fields w requests m0 false st0) as (U1 & U2 & _).
      destruct (Part001.isAvailable (status m0)) eqn:A0.
      * destruct (Part001.mediaUpdater w requests m0 false st0) as [m1 st2].
        cbn [fst snd statusOf] in *. split; [by rewrite U2|done].
      * split; [done|]. intros A _. destruct (S0 A) as [X|X]; [congruence|done].
    + split; [done|]. intros _ X. done.
Qed.

Lemma plexItem_sonarrServers w key st :
  sonarrServers (Part001.plexItem w key st).2 = sonarrServers st.
Proof.
  unfold Part001.plexItem. destruct (truthyS key); [|done].
  by destruct (Sync.plexMediaProbe w _ st).
Qed.

Lemma deleteVariant_fields u b m :
  seasonObjs (Part001.deleteVariant u b m) = seasonObjs m
  ∧ statusOf u (Part001.deleteVariant u b m)
    = (if Part001.isAvailable (statusOf u m) then DELETED else statusOf u m)
  ∧ statusOf (negb u) (Part001.deleteVariant u b m) = statusOf (negb u) m.
Proof.
  unfold Part001.deleteVariant.
  destruct (Part001.isAvailable (statusOf u m)); [|done]. by destruct u.
Qed.

(** X11.  In the revision with [findMediaStatus], when a variant of a
    series is found nowhere - Plex returns no item for its rating key and
    no sync-enabled Sonarr server of the variant returns the series with
    an episode file - the processing of the record ends with the status
    of that variant DELETED if it was AVAILABLE or PARTIALLY_AVAILABLE,
    and with the status UNKNOWN in that variant for every season of
    [media.seasons] that was AVAILABLE or PARTIALLY_AVAILABLE there,
    whatever Plex and Sonarr hold about the seasons themselves. *)
Theorem part001_series_removal w requests media st (v : bool) :
  mediaType media = TV → gone w st media v →
  (Part001.isAvailable (statusOf v media) = true →
   statusOf v (Part001.processMedia w requests media st).1.2 = DELETED)
  ∧ ∀ r s,
      r ∈ seasons media → seasonObjs media !! r = Some s →
      Part001.isAvailable (seasonStatusOf v s) = true →
      ∃ s', seasonObjs (Part001.processMedia w requests media st).1.2 !! r = Some s'
            ∧ seasonStatusOf v s' = UNKNOWN.
Proof.
  intros MT [GP GS].
  pose proof (processMedia_moved w requests media st) as [(_ & _ & VM & SM) _].
  revert VM SM. unfold Part001.processMedia.
  pose proof (mediaExists_moved w requests media st) as [(_ & _ & VE & _) _].
  revert VE. unfold Part001.mediaExists. rewrite MT.
  destruct (plexItem_spec w (ratingKey media) st) as (P & C1 & _).
  pose proof (plexItem_sonarrServers w (ratingKey media) st) as S1.
  destruct (Part001.plexItem w (ratingKey media) st) as [p st1].
  cbn [fst snd] in P, C1, S1.
  destruct (plexItem_spec w (ratingKey4k media) st1) as (P4 & _ & _).
  pose proof (plexItem_sonarrServers w (ratingKey4k media) st1) as S2.
  destruct (Part001.plexItem w (ratingKey4k media) st1) as [p4 st2].
  cbn [fst snd] in P4, S2.
  assert (Pv : (if v then p4 else p) = false).
  { destruct v; cbn [ratingKeyOf] in GP.
    - destruct p4; [|done]. exfalso. apply GP.
      destruct P4 as [P4 _]. specialize (P4 eq_refl).
      unfold plexFinds in *. by rewrite C1 in P4.
    - destruct p; [|done]. exfalso. by apply GP, P. }
  assert (G2 : ∀ s, s ∈ sonarrServers st2 → is4k s = v → ¬ sonarrHolds w media v s)
    by (rewrite S2, S1; exact GS).
  destruct (mediaExistsInSonarr_lost w requests media p p4 st2 v Pv G2) as [LS LR].
  destruct (Part001.mediaExistsInSonarr w requests media p p4 st2) as [[x m1] st3].
  cbn [fst snd] in LS, LR.
  assert (Fin : ∀ m',
             seasonObjs m' = seasonObjs m1 →
             Forall2 seasonMove (seasonObjs media) (seasonObjs m') →
             ∀ r s,
               r ∈ seasons media → seasonObjs media !! r = Some s →
               Part001.isAvailable (seasonStatusOf v s) = true →
               ∃ s', seasonObjs m' !! r = Some s' ∧ seasonStatusOf v s' = UNKNOWN).
  { intros m' E F r s I Es A.
    destruct (LS r s I Es) as (s1 & E1 & A1).
    destruct (seasonMove_lookup _ _ r s F Es) as (s' & E' & M').
    rewrite E, E1 in E'. injection E' as <-.
    exists s1. split; [by rewrite E|]. by eapply seasonMove_unset_final. }
  destruct x; cbn [negb fst snd].
  - intros VE VM SM. split; [intros A; by apply LR|].
    by apply Fin.
  - intros VE.
    set (b := bool_decide (mediaType m1 = TV)
              && Part001.findMediaStatus requests m1 false).
    set (b4 := bool_decide (mediaType m1 = TV)
               && Part001.findMediaStatus requests m1 true).
    set (m2 := Part001.deleteVariant false b m1).
    set (m3 := Part001.deleteVariant true b4 m2).
    destruct (deleteVariant_fields false b m1) as (D1 & D2 & D3).
    destruct (deleteVariant_fields true b4 m2) as (D4 & D5 & D6).
    fold m2 in D1, D2, D3. fold m3 in D4, D5, D6.
    assert (A1 : Part001.isAvailable (statusOf v media) = true →
                 Part001.isAvailable (statusOf v m1) = true
                 ∨ statusOf v m1 = DELETED).
    { intros A. destruct (VE v) as [[_ [E|[E1 E2]]]|(_ & E & _)];
        [left; by rewrite E|left; by rewrite E2|by right]. }
    assert (Dv : Part001.isAvailable (statusOf v media) = true →
                 statusOf v m3 = DELETED).
    { intros A. specialize (A1 A). destruct v; cbn [negb statusOf] in *.
      - rewrite D5, D3. by destruct A1 as [->| ->].
      - rewrite D6, D2. by destruct A1 as [->| ->]. }
    destruct (save w m3 _) as [[u|e] st4]; cbn [fst snd]; intros VM SM;
      (split; [exact Dv|apply Fin; [congruence|done]]).
Qed.

Lemma part001_series_removal_witness :
  statusOf false (Part001.processMedia offline [] showTwo (ready offline)).1.2
  = DELETED
  ∧ ∃ s',
      seasonObjs (Part001.processMedia offline [] showTwo (ready offline)).1.2
      !! 0%nat = Some s'
      ∧ seasonStatusOf false s' = UNKNOWN.
Proof.
  assert (G : gone offline (ready offline) showTwo false).
  { split.
    - intros (_ & api & item & _ & X). discriminate X.
    - intros server _ _ (_ & series & X & _). discriminate X. }
  destruct (part001_series_removal offline [] showTwo (ready offline) false
              eq_refl G) as [H1 H2].
  split; [by apply H1|].
  apply (H2 0%nat (mkSeason 1 AVAILABLE AVAILABLE)); [|done|done].
  apply elem_of_cons. by left.
Defined.

Lemma filter_all_length {A} (f : A → bool) (l : list A) :
  length l = length (List.filter f l) ↔ Forall (λ x, f x = true) l.
Proof.
  induction l as [|x l IH]; simpl.
  - split; [constructor|done].
  - pose proof (filter_length_le f l) as L.
    destruct (f x) eqn:F; simpl.
    + split.
      * intros E. constructor; [done|]. apply IH. lia.
      * intros H. apply Forall_cons in H as [_ H]. apply IH in H. lia.
    + split; [lia|]. intros H. apply Forall_cons in H as [H _]. congruence.
Qed.

Lemma allCompleted_test seasons :
  (length seasons
   =? length (List.filter
                (λ season,
                   bool_decide (SeasonRequestEntity.sr_status season
                                = Part001.REQUEST_COMPLETED))
                seasons))%nat = true
  ↔ allCompleted seasons.
Proof.
  rewrite Nat.eqb_eq, filter_all_length. unfold allCompleted.
  apply Forall_iff. intros s. apply bool_decide_eq_true.
Qed.

Lemma find_row_spec (id : Z) (rows : list SeasonRequestEntity.RequestRow) :
  match List.find (λ row, SeasonRequestEntity.row_id row =? id) rows with
  | None => ∀ row, row ∈ rows → SeasonRequestEntity.row_id row ≠ id
  | Some parent => parent ∈ rows ∧ SeasonRequestEntity.row_id parent = id
  end.
Proof.
  destruct (List.find _ rows) as [parent|] eqn:F.
  - apply find_some in F as [I E]. split; [by apply list_elem_of_In|].
    by apply Z.eqb_eq.
  - intros row I. apply list_elem_of_In in I.
    pose proof (find_none _ _ F row I) as N. by apply Z.eqb_neq.
Qed.

Lemma update_settled this parent rows l :
  NoDup (map SeasonRequestEntity.row_id rows) →
  parent ∈ rows →
  SeasonRequestEntity.row_id parent = SeasonRequestEntity.sr_request this →
  allCompleted (SeasonRequestEntity.row_seasons parent) →
  (∀ row, row ∈ l → row ∈ rows) →
  Forall2 (hookOutcome this) l
    (SeasonRequestEntity.update (SeasonRequestEntity.sr_request this)
       Part001.REQUEST_COMPLETED l).
Proof.
  intros N I E A. unfold SeasonRequestEntity.update.
  induction l as [|row l IH]; intros Sub; simpl; constructor.
  - unfold hookOutcome.
    destruct (SeasonRequestEntity.row_id row
              =? SeasonRequestEntity.sr_request this) eqn:Q.
    + apply Z.eqb_eq in Q.
      assert (row = parent) as ->.
      { apply (NoDup_map_eq SeasonRequestEntity.row_id rows);
          [done| |done|congruence].
        apply Sub. by left. }
      repeat split. cbn. by rewrite bool_decide_eq_true_2.
    + apply Z.eqb_neq in Q. repeat split.
      rewrite bool_decide_eq_false_2; [done|]. by intros [? _].
  - apply IH. intros r Hr. apply Sub. by right.
Qed.

(** X12.  The hook [handleRemoveParent] of a season request looks up the
    media request that the season request belongs to and rejects when
    there is none.  Otherwise it sets the status of that media request to
    COMPLETED exactly when every one of its season requests is COMPLETED -
    also when it has no season request at all - and writes nothing else:
    every other request, and the parent itself when one of its season
    requests is not COMPLETED, is left as it was, and no season request
    is touched.  The ids of the request table are taken to be unique. *)
Theorem handleRemoveParent_outcome this rows :
  NoDup (map SeasonRequestEntity.row_id rows) →
  match SeasonRequestEntity.handleRemoveParent this rows with
  | None =>
      ∀ row, row ∈ rows →
             SeasonRequestEntity.row_id row ≠ SeasonRequestEntity.sr_request this
  | Some rows' =>
      (∃ parent, parent ∈ rows
                 ∧ SeasonRequestEntity.row_id parent
                   = SeasonRequestEntity.sr_request this)
      ∧ Forall2 (hookOutcome this) rows rows'
  end.
Proof.
  intros N. unfold SeasonRequestEntity.handleRemoveParent.
  pose proof (find_row_spec (SeasonRequestEntity.sr_request this) rows) as F.
  destruct (List.find _ rows) as [parent|]; [|exact F].
  destruct F as [I E].
  pose proof (allCompleted_test (SeasonRequestEntity.row_seasons parent)) as T.
  cbn zeta.
  destruct (_ =? _)%nat.
  - split; [by exists parent|].
    apply (update_settled this parent rows rows); try done. by apply T.
  - split; [by exists parent|].
    apply Forall_Forall2_diag, Forall_forall. intros row Hr. repeat split.
    rewrite bool_decide_eq_false_2; [done|]. intros [Q A].
    assert (row = parent) as ->.
    { apply (NoDup_map_eq SeasonRequestEntity.row_id rows); try done.
      congruence. }
    by apply T in A.
Qed.

Lemma handleRemoveParent_outcome_witness :
  match SeasonRequestEntity.handleRemoveParent
          (SeasonRequestEntity.mkSeasonRequest 2 2 Part001.REQUEST_COMPLETED 7)
          requestRows with
  | None =>
      ∀ row, row ∈ requestRows → SeasonRequestEntity.row_id row ≠ 7
  | Some rows' =>
      (∃ parent, parent ∈ requestRows ∧ SeasonRequestEntity.row_id parent = 7)
      ∧ Forall2
          (hookOutcome
             (SeasonRequestEntity.mkSeasonRequest 2 2 Part001.REQUEST_COMPLETED 7))
          requestRows rows'
  end.
Proof.
  apply (handleRemoveParent_outcome
           (SeasonRequestEntity.mkSeasonRequest 2 2 Part001.REQUEST_COMPLETED 7)
           requestRows).
  apply (bool_decide_unpack _). by vm_compute.
Defined.

